(** * Object pool allocator (memory_pool.hpp): model and properties

    A shallow embedding of [detail::MemoryPoolBlock<T>], [FixedMemoryPool<T>]
    and [DynamicMemoryPool<T>].

    - [index_t] (uint32_t) values are [N] with the wrap-around written out
      ([wrap32]); [size_t] counters wrap at 2^64 ([wrap64]).
    - Pointers are byte addresses in [Z]; [0] is [nullptr].
    - The index array and the object storage that follow a block header are
      lists; an access outside them is [Undefined].
    - [assert] is compiled in or out by the [assertions] flag of the target
      (NDEBUG), so every statement covers both kinds of build.
    - The host allocator is the environment: each call that may reach
      [aligned_malloc] or [realloc] takes the allocator's answer as input. *)

From Stdlib Require Import ZArith NArith Lia.
From stdpp Require Import base list sorting.

Set Default Proof Using "Type".
Local Open Scope Z_scope.

(** ** Outcomes of running a piece of the code *)

Inductive outcome (A : Type) : Type :=
| Done (a : A)   (* ran to completion *)
| AssertFail     (* an [assert] fired (only in builds with assertions) *)
| Undefined.     (* null dereference, access outside an array, ... *)
Arguments Done {A} a.
Arguments AssertFail {A}.
Arguments Undefined {A}.

#[global] Instance outcome_ret : MRet outcome := fun A a => Done a.
#[global] Instance outcome_bind : MBind outcome := fun A B f m =>
  match m with
  | Done a => f a
  | AssertFail => AssertFail
  | Undefined => Undefined
  end.

(** ** Machine integers *)

Definition wrap32 (n : N) : N := (n mod 2 ^ 32)%N.
Definition wrap64 (n : N) : N := (n mod 2 ^ 64)%N.

(** Conversion of a [ptrdiff_t] to [index_t]. *)
Definition to_index (d : Z) : N := Z.to_N (d mod 2 ^ 32).

(** [--x] on an [index_t]. *)
Definition dec32 (n : N) : N := wrap32 (n + (2 ^ 32 - 1))%N.

(** ** Arrays *)

Definition read {A} (l : list A) (i : N) : outcome A :=
  match l !! N.to_nat i with
  | Some x => Done x
  | None => Undefined
  end.

Definition store {A} (l : list A) (i : N) (x : A) : outcome (list A) :=
  if decide (N.to_nat i < length l)%nat then Done (<[N.to_nat i := x]> l)
  else Undefined.

(** ** The compilation target: what [sizeof], [alignof] and NDEBUG say *)

Record target : Type := {
  sizeof_T : Z;       (* sizeof(T) *)
  alignof_T : Z;      (* alignof(T) *)
  header_size : Z;    (* sizeof(MemoryPoolBlock<T>) *)
  assertions : bool   (* false when NDEBUG is defined *)
}.

(** sizeof(index_t) *)
Definition sizeof_index : Z := 4.

Definition MIN_BLOCK_ALIGN : Z := 64.

Record target_ok (tg : target) : Prop := {
  sizeof_pos : 0 < sizeof_T tg;
  alignof_pos : 0 < alignof_T tg;
  header_nonneg : 0 <= header_size tg
}.

(** A 64-bit target with an 8-byte element type ([double], [uint64_t]) and
    assertions compiled in; the header is two [index_t]. *)
Definition tg8 : target :=
  {| sizeof_T := 8; alignof_T := 8; header_size := 8; assertions := true |}.

Definition assert (tg : target) (c : bool) : outcome unit :=
  if assertions tg && negb c then AssertFail else Done tt.

(** Modelled from the spec: [align_to] is only declared in the header
    ([size_t align_to(size_t n, size_t align)]); the spec describes it as the
    smallest multiple of [align] that is [>= n]. *)
Definition align_to (n align : Z) : Z := ((n + align - 1) / align) * align.

(** Modelled from the spec: [aligned_malloc(size, align)] is only declared in
    the header; it returns memory aligned to [align], or null on failure. An
    answer [a] of the host allocator to such a request is acceptable when this
    holds. *)
Definition aligned_malloc_answer (align a : Z) : Prop :=
  a = 0 ∨ (0 < a ∧ a mod align = 0).

(** * MemoryPoolBlock<T> *)

Module MemoryPoolBlock.

Record Block (T : Type) : Type := {
  this : Z;                   (* address of the header *)
  free_head_index_ : N;
  entries_per_block_ : N;
  indices : list N;           (* the index_t array at indices_begin() *)
  memory : list (option T)    (* the T storage at memory_begin(); None: no
                                 object lives in the slot *)
}.
Arguments this {T} _.
Arguments free_head_index_ {T} _.
Arguments entries_per_block_ {T} _.
Arguments indices {T} _.
Arguments memory {T} _.

Section Code.
Context {T : Type} (tg : target).

Definition indices_begin (b : Block T) : Z := this b + header_size tg.

Definition memory_begin (b : Block T) : Z :=
  indices_begin b + sizeof_index * Z.of_N (entries_per_block_ b).

Definition memory_offset (b : Block T) : Z := memory_begin b.

(** The constructor's loop [for (i = 0; i < entries_per_block; ++i)
    indices[i] = i + 1], with [n] iterations left. *)
Fixpoint ctor_loop (n : nat) (i : N) : list N :=
  match n with
  | O => []
  | S n' => wrap32 (i + 1)%N :: ctor_loop n' (i + 1)%N
  end.

Definition ctor (a : Z) (entries_per_block : N) : Block T :=
  {| this := a;
     free_head_index_ := 0%N;
     entries_per_block_ := entries_per_block;
     indices := ctor_loop (N.to_nat entries_per_block) 0%N;
     memory := replicate (N.to_nat entries_per_block) None |}.

Definition indices_size (entries_per_block : N) : Z :=
  align_to (sizeof_index * Z.of_N entries_per_block) (alignof_T tg).

Definition entries_size (entries_per_block : N) : Z :=
  sizeof_T tg * Z.of_N entries_per_block.

Definition block_size (entries_per_block : N) : Z :=
  header_size tg + indices_size entries_per_block
  + entries_size entries_per_block.

(** [create]: [a] is the answer of [aligned_malloc(block_size,
    MIN_BLOCK_ALIGN)]. The two asserts come after the [if (ptr)] and go
    through [ptr] also when it is null; [memory_begin] then reads
    [entries_per_block_] through the null pointer. *)
Definition create (entries_per_block : N) (a : Z) : outcome (option (Block T)) :=
  let ptr := if (a =? 0)%Z then None else Some (ctor a entries_per_block) in
  if assertions tg then
    match ptr with
    | None => Undefined
    | Some b =>
        _ ← assert tg (indices_begin b =? a + header_size tg)%Z;
        _ ← assert tg (memory_begin b
                        =? a + header_size tg + indices_size entries_per_block)%Z;
        Done ptr
    end
  else Done ptr.

Definition slot_address (b : Block T) (index : N) : Z :=
  memory_begin b + Z.of_N index * sizeof_T tg.

(** [new_object]: [v] is the object that [T(std::forward<P>(params)...)]
    constructs. The result pointer is [0] for [nullptr]. *)
Definition new_object (v : T) (b : Block T) : outcome (Z * Block T) :=
  let index := free_head_index_ b in
  if negb (index =? entries_per_block_ b)%N then
    next ← read (indices b) index;
    _ ← assert tg (negb (next =? index)%N);
    indices' ← store (indices b) index index;
    let ptr := slot_address b index in
    memory' ← store (memory b) index (Some v);
    Done (ptr, {| this := this b;
                  free_head_index_ := next;
                  entries_per_block_ := entries_per_block_ b;
                  indices := indices';
                  memory := memory' |})
  else Done (0%Z, b).

(** [ptr->~T()]: ends the lifetime of the object whose storage starts at
    [ptr]. Without a live object of this block at that address the call has
    no defined behaviour. *)
Definition destroy_at (ptr : Z) (b : Block T) : outcome (list (option T)) :=
  let d := (ptr - memory_begin b)%Z in
  if (0 <=? d)%Z && (d mod sizeof_T tg =? 0)%Z then
    let i := Z.to_N (d / sizeof_T tg) in
    o ← read (memory b) i;
    match o with
    | Some _ => store (memory b) i None
    | None => Undefined
    end
  else Undefined.

Definition delete_object (ptr : Z) (b : Block T) : outcome (Block T) :=
  if negb (ptr =? 0)%Z then
    let begin := memory_begin b in
    let end_ := (begin + Z.of_N (entries_per_block_ b) * sizeof_T tg)%Z in
    _ ← assert tg ((begin <=? ptr)%Z && (ptr <? end_)%Z);
    memory' ← destroy_at ptr b;
    let index := to_index ((ptr - begin) / sizeof_T tg) in
    cur ← read (indices b) index;
    _ ← assert tg (cur =? index)%N;
    indices' ← store (indices b) index (free_head_index_ b);
    Done {| this := this b;
            free_head_index_ := index;
            entries_per_block_ := entries_per_block_ b;
            indices := indices';
            memory := memory' |}
  else Done b.

(** [for_each]: the visitor [func] acts on a state of type [S] (what the
    closure captures by reference); [n] iterations of the loop are left. *)
Fixpoint for_each_loop {St : Type} (func : Z → St → St) (b : Block T)
    (n : nat) (i : N) (s : St) : outcome St :=
  match n with
  | O => Done s
  | S n' =>
      x ← read (indices b) i;
      for_each_loop func b n' (i + 1)%N
        (if (x =? i)%N then func (slot_address b i) s else s)
  end.

Definition for_each {St : Type} (func : Z → St → St) (b : Block T) (s : St)
    : outcome St :=
  for_each_loop func b (N.to_nat (entries_per_block_ b)) 0%N s.

Definition count_allocations (b : Block T) : outcome N :=
  for_each (fun _ num_allocations => wrap32 (num_allocations + 1)%N) b 0%N.

(** [~MemoryPoolBlock]: [assert(count_allocations() == 0)]; the count is
    evaluated only in builds with assertions. *)
Definition dtor (b : Block T) : outcome unit :=
  if assertions tg then
    n ← count_allocations b;
    assert tg (n =? 0)%N
  else Done tt.

(** [destroy]: runs the destructor through [ptr] and hands [ptr] to
    [aligned_free]. The result lists the addresses passed to
    [aligned_free]. Calling the destructor through a null pointer has no
    defined behaviour. *)
Definition destroy (ptr : option (Block T)) : outcome (list Z) :=
  match ptr with
  | None => Undefined
  | Some b => _ ← dtor b; Done [this b]
  end.

End Code.

(** ** What the index array means *)

Section Meaning.
Context {T : Type} (tg : target).

(** Slot [i] holds a live object. *)
Definition live (b : Block T) (i : N) : Prop :=
  ∃ v, memory b !! N.to_nat i = Some (Some v).

(** [fl] is the free list that starts at head [h]: every member is a slot,
    its index entry names the next member, and the entry of the last member
    (or the head itself, when the list is empty) is the sentinel [cap]. *)
Fixpoint free_chain (idx : list N) (cap h : N) (fl : list N) : Prop :=
  match fl with
  | [] => h = cap
  | i :: fl' =>
      h = i ∧ (i < cap)%N ∧
      ∃ next, idx !! N.to_nat i = Some next ∧ free_chain idx cap next fl'
  end.

(** The block invariant: the arrays have [entries_per_block_] entries, an
    index entry refers to itself exactly at the live slots, and the free list
    from [free_head_index_] runs once through exactly the other slots. *)
Record inv (b : Block T) : Prop := {
  inv_this : 0 < this b;
  inv_cap : (entries_per_block_ b < 2 ^ 32)%N;
  inv_indices : length (indices b) = N.to_nat (entries_per_block_ b);
  inv_memory : length (memory b) = N.to_nat (entries_per_block_ b);
  inv_self : ∀ i, (i < entries_per_block_ b)%N →
    (indices b !! N.to_nat i = Some i ↔ live b i);
  inv_free : ∃ fl,
    free_chain (indices b) (entries_per_block_ b) (free_head_index_ b) fl ∧
    NoDup fl ∧
    ∀ i, i ∈ fl ↔ (i < entries_per_block_ b)%N ∧ ¬ live b i
}.

(** The ownership precondition of [delete_object]: [ptr] is the address of a
    slot of this block that holds a live object. *)
Definition owned (b : Block T) (ptr : Z) : Prop :=
  ∃ i, (i < entries_per_block_ b)%N ∧ live b i ∧ ptr = slot_address tg b i.

(** The addresses of the live objects held in [mem], whose first slot has
    index [i], in slot order. *)
Fixpoint live_from (b : Block T) (mem : list (option T)) (i : N) : list Z :=
  match mem with
  | [] => []
  | o :: mem' =>
      match o with
      | Some _ => slot_address tg b i :: live_from b mem' (i + 1)%N
      | None => live_from b mem' (i + 1)%N
      end
  end.

Definition live_objects (b : Block T) : list Z := live_from b (memory b) 0%N.

(** The visits a visitor receives, recorded in order. *)
Definition visits {St : Type} (func : Z → St → St) (ptrs : list Z) (s : St) : St :=
  foldl (fun s ptr => func ptr s) s ptrs.

End Meaning.
End MemoryPoolBlock.

(** * MemoryPoolStats *)

Record MemoryPoolStats : Type := {
  block_count : N;
  allocation_count : N
}.

(** * FixedMemoryPool<T> *)

Module FixedMemoryPool.
Import MemoryPoolBlock.

Record Pool (T : Type) : Type := {
  block_ : option (Block T)   (* None: the pointer is null *)
}.
Arguments block_ {T} _.

Section Code.
Context {T : Type} (tg : target).

(** The constructor; [a] is the host allocator's answer inside
    [Block::create]. *)
Definition ctor (max_entries : N) (a : Z) : outcome (Pool T) :=
  b ← create tg max_entries a;
  Done {| block_ := b |}.

Definition new_object (v : T) (p : Pool T) : outcome (Z * Pool T) :=
  match block_ p with
  | None => Undefined
  | Some b =>
      '(ptr, b') ← MemoryPoolBlock.new_object tg v b;
      Done (ptr, {| block_ := Some b' |})
  end.

Definition delete_object (ptr : Z) (p : Pool T) : outcome (Pool T) :=
  match block_ p with
  | None => Undefined
  | Some b =>
      b' ← MemoryPoolBlock.delete_object tg ptr b;
      Done {| block_ := Some b' |}
  end.

Definition for_each {St : Type} (func : Z → St → St) (p : Pool T) (s : St)
    : outcome St :=
  match block_ p with
  | None => Undefined
  | Some b => MemoryPoolBlock.for_each tg func b s
  end.

Definition get_stats (p : Pool T) : outcome MemoryPoolStats :=
  match block_ p with
  | None => Undefined
  | Some b =>
      n ← MemoryPoolBlock.for_each tg (fun _ n => wrap64 (n + 1)%N) b 0%N;
      Done {| block_count := 1; allocation_count := n |}
  end.

(** [~FixedMemoryPool]: [assert(get_stats().allocation_count == 0)], then
    [Block::destroy(block_)]. The result lists the addresses passed to
    [aligned_free]. *)
Definition dtor (p : Pool T) : outcome (list Z) :=
  _ ← (if assertions tg then
         stats ← get_stats p;
         assert tg (allocation_count stats =? 0)%N
       else Done tt);
  MemoryPoolBlock.destroy tg (block_ p).

End Code.
End FixedMemoryPool.

(** * DynamicMemoryPool<T> *)

Module DynamicMemoryPool.
Import MemoryPoolBlock.

(** The block a [BlockInfo] points to is owned by that record alone, so the
    record carries the block itself. *)
Record BlockInfo (T : Type) : Type := {
  num_free_ : N;
  offset_ : Z;
  block_ : Block T
}.
Arguments num_free_ {T} _.
Arguments offset_ {T} _.
Arguments block_ {T} _.

(** [block_info_] is the array behind the pointer ([[]] for [nullptr]); an
    element that [realloc] added and nobody wrote yet is [None]. *)
Record Pool (T : Type) : Type := {
  block_info_ : list (option (BlockInfo T));
  num_blocks_ : N;
  free_block_index_ : N;
  entries_per_block_ : N
}.
Arguments block_info_ {T} _.
Arguments num_blocks_ {T} _.
Arguments free_block_index_ {T} _.
Arguments entries_per_block_ {T} _.

(** What the host allocator answers during one call: the address returned by
    [aligned_malloc] ([0]: failure) and whether [realloc] succeeds. An answer
    is consumed only if the call reaches [add_block]. *)
Record host : Type := {
  malloc_answer : Z;
  realloc_ok : bool
}.

Section Code.
Context {T : Type} (tg : target).

(** Reading a field through [&block_info_[k]]. *)
Definition info_at (infos : list (option (BlockInfo T))) (k : N)
    : outcome (BlockInfo T) :=
  o ← read infos k;
  match o with
  | Some info => Done info
  | None => Undefined
  end.

(** [add_block]; the result is the index of the new record ([&info]) or
    [None] for [nullptr]. [realloc]'s result is not tested: when it is null
    the record is written through a null pointer. *)
Definition add_block (h : host) (p : Pool T) : outcome (option N * Pool T) :=
  _ ← assert tg (free_block_index_ p =? num_blocks_ p)%N;
  ob ← create tg (entries_per_block_ p) (malloc_answer h);
  match ob with
  | Some block =>
      let num_blocks := wrap32 (num_blocks_ p + 1)%N in
      if realloc_ok h then
        let grown := resize (N.to_nat num_blocks) None (block_info_ p) in
        let info := {| num_free_ := entries_per_block_ p;
                       offset_ := memory_offset tg block;
                       block_ := block |} in
        infos ← store grown (free_block_index_ p) (Some info);
        Done (Some (free_block_index_ p),
              {| block_info_ := infos;
                 num_blocks_ := num_blocks;
                 free_block_index_ := free_block_index_ p;
                 entries_per_block_ := entries_per_block_ p |})
      else Undefined
  | None => Done (None, p)
  end.

(** The constructor; the result of [add_block] is ignored. *)
Definition ctor (entries_per_block : N) (h : host) : outcome (Pool T) :=
  '(_, p) ← add_block h {| block_info_ := [];
                           num_blocks_ := 0;
                           free_block_index_ := 0;
                           entries_per_block_ := entries_per_block |};
  Done p.

(** The search loop of [new_object]: [rest] is the array from [p_info] on and
    [k] is [p_info - block_info_]. *)
Fixpoint search (rest : list (option (BlockInfo T))) (k num_blocks : N)
    : outcome N :=
  if (k =? num_blocks)%N then Done k
  else match rest with
       | Some info :: rest' =>
           if (num_free_ info =? 0)%N then search rest' (k + 1)%N num_blocks
           else Done k
       | _ => Undefined
       end.

Definition set_free_block_index (p : Pool T) (i : N) : Pool T :=
  {| block_info_ := block_info_ p;
     num_blocks_ := num_blocks_ p;
     free_block_index_ := i;
     entries_per_block_ := entries_per_block_ p |}.

Definition set_block_info (p : Pool T) (infos : list (option (BlockInfo T)))
    : Pool T :=
  {| block_info_ := infos;
     num_blocks_ := num_blocks_ p;
     free_block_index_ := free_block_index_ p;
     entries_per_block_ := entries_per_block_ p |}.

(** The tail of [new_object], from [// construct the new object] on. *)
Definition construct (v : T) (p_info : N) (p : Pool T) : outcome (Z * Pool T) :=
  info ← info_at (block_info_ p) p_info;
  '(ptr, block) ← MemoryPoolBlock.new_object tg v (block_ info);
  _ ← assert tg (negb (ptr =? 0));
  infos ← store (block_info_ p) p_info
            (Some {| num_free_ := dec32 (num_free_ info);
                     offset_ := offset_ info;
                     block_ := block |});
  Done (ptr, set_block_info p infos).

Definition new_object (v : T) (h : host) (p : Pool T) : outcome (Z * Pool T) :=
  _ ← assert tg (free_block_index_ p <? num_blocks_ p)%N;
  k ← search (drop (N.to_nat (free_block_index_ p)) (block_info_ p))
        (free_block_index_ p) (num_blocks_ p);
  let p := set_free_block_index p (to_index (Z.of_N k)) in
  if (free_block_index_ p =? num_blocks_ p)%N then
    '(p_info, p) ← add_block h p;
    match p_info with
    | None => Done (0, p)
    | Some p_info => construct v p_info p
    end
  else construct v k p.

(** The loop of [delete_object] up to the matching block: [rest] is the array
    from [p_info] on, [k] is [p_info - block_info_] and [n] iterations are
    left. The result is the matching record and its index, if any. *)
Fixpoint find_block (ptr : Z) (entries_per_block : N)
    (rest : list (option (BlockInfo T))) (k : N) (n : nat)
    : outcome (option (N * BlockInfo T)) :=
  match n with
  | O => Done None
  | S n' =>
      match rest with
      | Some info :: rest' =>
          let p_entries_begin := offset_ info in
          let p_entries_end :=
            p_entries_begin + Z.of_N entries_per_block * sizeof_T tg in
          if (p_entries_begin <=? ptr) && (ptr <? p_entries_end)
          then Done (Some (k, info))
          else find_block ptr entries_per_block rest' (k + 1)%N n'
      | _ => Undefined
      end
  end.

Definition delete_object (ptr : Z) (p : Pool T) : outcome (Pool T) :=
  found ← find_block ptr (entries_per_block_ p) (block_info_ p) 0%N
            (N.to_nat (num_blocks_ p));
  match found with
  | Some (k, info) =>
      block ← MemoryPoolBlock.delete_object tg ptr (block_ info);
      infos ← store (block_info_ p) k
                (Some {| num_free_ := wrap32 (num_free_ info + 1)%N;
                         offset_ := offset_ info;
                         block_ := block |});
      let p := set_block_info p infos in
      let free_block := to_index (Z.of_N k) in
      Done (if (free_block <? free_block_index_ p)%N
            then set_free_block_index p free_block else p)
  | None => Done p
  end.

(** The loop of [for_each] over the records in [rest], [n] iterations left. *)
Fixpoint for_each_loop {St : Type} (func : Z → St → St) (entries_per_block : N)
    (rest : list (option (BlockInfo T))) (n : nat) (s : St) : outcome St :=
  match n with
  | O => Done s
  | S n' =>
      match rest with
      | Some info :: rest' =>
          s' ← (if (num_free_ info <? entries_per_block)%N
                then MemoryPoolBlock.for_each tg func (block_ info) s
                else Done s);
          for_each_loop func entries_per_block rest' n' s'
      | _ => Undefined
      end
  end.

Definition for_each {St : Type} (func : Z → St → St) (p : Pool T) (s : St)
    : outcome St :=
  for_each_loop func (entries_per_block_ p) (block_info_ p)
    (N.to_nat (num_blocks_ p)) s.

(** The loop of [get_stats]. *)
Fixpoint get_stats_loop (entries_per_block : N)
    (rest : list (option (BlockInfo T))) (n : nat) (stats : MemoryPoolStats)
    : outcome MemoryPoolStats :=
  match n with
  | O => Done stats
  | S n' =>
      match rest with
      | Some info :: rest' =>
          let count := wrap64 (block_count stats + 1)%N in
          allocs ← (if (num_free_ info <? entries_per_block)%N
                    then c ← count_allocations tg (block_ info);
                         Done (wrap64 (allocation_count stats + c)%N)
                    else Done (allocation_count stats));
          get_stats_loop entries_per_block rest' n'
            {| block_count := count; allocation_count := allocs |}
      | _ => Undefined
      end
  end.

Definition get_stats (p : Pool T) : outcome MemoryPoolStats :=
  get_stats_loop (entries_per_block_ p) (block_info_ p)
    (N.to_nat (num_blocks_ p)) {| block_count := 0; allocation_count := 0 |}.

(** [~DynamicMemoryPool]: [assert(get_stats().allocation_count == 0)] and
    nothing else: no [Block::destroy], no [free(block_info_)]. The result
    lists the addresses passed to [aligned_free]. *)
Definition dtor (p : Pool T) : outcome (list Z) :=
  _ ← (if assertions tg then
         stats ← get_stats p;
         assert tg (allocation_count stats =? 0)%N
       else Done tt);
  Done [].

End Code.

(** ** What the records mean *)

Section Meaning.
Context {T : Type} (tg : target).

(** The blocks of the pool, in the order of the [block_info_] array. *)
Definition blocks (p : Pool T) : list (Block T) :=
  omap (fun o => block_ <$> o) (block_info_ p).

(** The addresses of the live objects of the pool: block after block in array
    order, slot order inside a block. *)
Definition live_objects (p : Pool T) : list Z :=
  blocks p ≫= MemoryPoolBlock.live_objects tg.

(** Two blocks of capacity [entries_per_block] at addresses [a1] and [a2] do
    not overlap. *)
Definition apart (entries_per_block : N) (a1 a2 : Z) : Prop :=
  a1 + block_size tg entries_per_block <= a2 ∨
  a2 + block_size tg entries_per_block <= a1.

(** An acceptable answer of the host allocator: [aligned_malloc] fails or
    returns aligned memory that overlaps no block of the pool. *)
(** [ptr] lies in the storage range of the block of [info]. *)
Definition in_range (entries_per_block : N) (info : BlockInfo T) (ptr : Z)
    : Prop :=
  offset_ info <= ptr < offset_ info + Z.of_N entries_per_block * sizeof_T tg.

Definition host_ok (p : Pool T) (h : host) : Prop :=
  aligned_malloc_answer MIN_BLOCK_ALIGN (malloc_answer h) ∧
  (malloc_answer h ≠ 0 →
   ∀ b, b ∈ blocks p →
     apart (entries_per_block_ p) (malloc_answer h) (this b)).

(** The record that [add_block] writes for a new block at address [a]. *)
Definition new_info (entries_per_block : N) (a : Z) : BlockInfo T :=
  {| num_free_ := entries_per_block;
     offset_ :=
       memory_offset tg (MemoryPoolBlock.ctor (T:=T) a entries_per_block);
     block_ := MemoryPoolBlock.ctor a entries_per_block |}.

(** A record is in sync with its block. For capacity [0] the cached count is
    not kept: [new_object] decrements it below zero. *)
Record info_inv (entries_per_block : N) (info : BlockInfo T) : Prop := {
  info_block : MemoryPoolBlock.inv (block_ info);
  info_entries :
    MemoryPoolBlock.entries_per_block_ (block_ info) = entries_per_block;
  info_offset : offset_ info = memory_begin tg (block_ info);
  info_free : (0 < entries_per_block)%N →
    (num_free_ info
     + N.of_nat (length (MemoryPoolBlock.live_objects tg (block_ info)))
     = entries_per_block)%N
}.

Record inv (p : Pool T) : Prop := {
  inv_entries : (entries_per_block_ p < 2 ^ 32)%N;
  inv_num_blocks : (num_blocks_ p < 2 ^ 32)%N;
  inv_length : length (block_info_ p) = N.to_nat (num_blocks_ p);
  inv_hint : (free_block_index_ p <= num_blocks_ p)%N;
  inv_infos : ∀ k o, block_info_ p !! k = Some o →
    ∃ info, o = Some info ∧ info_inv (entries_per_block_ p) info;
  inv_apart : ∀ j k bj bk, j ≠ k →
    blocks p !! j = Some bj → blocks p !! k = Some bk →
    apart (entries_per_block_ p) (this bj) (this bk)
}.

(** The free-block hint is a lower bound: no record before it has free
    entries according to its cached count. *)
Definition hint_ok (p : Pool T) : Prop :=
  ∀ (k : nat) info, block_info_ p !! k = Some (Some info) →
    (N.of_nat k < free_block_index_ p)%N → num_free_ info = 0%N.

(** The shape of the records while nothing has been released: only the last
    block has free entries, the free-block hint does not point past a block
    with free entries, and every block after the first holds an object. *)
Definition packed (p : Pool T) : Prop :=
  ∀ (k : nat) info, block_info_ p !! k = Some (Some info) →
    (num_free_ info ≠ 0%N →
     S k = length (block_info_ p) ∧ (free_block_index_ p <= N.of_nat k)%N) ∧
    ((0 < k)%nat → (num_free_ info < entries_per_block_ p)%N).

End Meaning.
End DynamicMemoryPool.

(** * Pools and their clients *)

Module Pool.

Inductive pool (T : Type) : Type :=
| Fixed (p : FixedMemoryPool.Pool T)
| Dynamic (p : DynamicMemoryPool.Pool T).
Arguments Fixed {T} p.
Arguments Dynamic {T} p.

Section Code.
Context {T : Type} (tg : target).

Definition new_object (v : T) (h : DynamicMemoryPool.host) (q : pool T)
    : outcome (Z * pool T) :=
  match q with
  | Fixed p =>
      '(ptr, p') ← FixedMemoryPool.new_object tg v p; Done (ptr, Fixed p')
  | Dynamic p =>
      '(ptr, p') ← DynamicMemoryPool.new_object tg v h p;
      Done (ptr, Dynamic p')
  end.

Definition delete_object (ptr : Z) (q : pool T) : outcome (pool T) :=
  match q with
  | Fixed p => p' ← FixedMemoryPool.delete_object tg ptr p; Done (Fixed p')
  | Dynamic p =>
      p' ← DynamicMemoryPool.delete_object tg ptr p; Done (Dynamic p')
  end.

Definition for_each {St : Type} (func : Z → St → St) (q : pool T) (s : St)
    : outcome St :=
  match q with
  | Fixed p => FixedMemoryPool.for_each tg func p s
  | Dynamic p => DynamicMemoryPool.for_each tg func p s
  end.

Definition get_stats (q : pool T) : outcome MemoryPoolStats :=
  match q with
  | Fixed p => FixedMemoryPool.get_stats tg p
  | Dynamic p => DynamicMemoryPool.get_stats tg p
  end.

(** The blocks of a pool in array order. *)
Definition blocks (q : pool T) : list (MemoryPoolBlock.Block T) :=
  match q with
  | Fixed p => option_list (FixedMemoryPool.block_ p)
  | Dynamic p => DynamicMemoryPool.blocks p
  end.

(** The live objects of a pool: block after block, slot order inside. *)
Definition live_objects (q : pool T) : list Z :=
  blocks q ≫= MemoryPoolBlock.live_objects tg.

Definition host_ok (q : pool T) (h : DynamicMemoryPool.host) : Prop :=
  match q with
  | Fixed _ => True
  | Dynamic p => DynamicMemoryPool.host_ok tg p h
  end.

(** The invariant of a pool: a fixed pool has its block, and the blocks (and
    records) satisfy their invariants. *)
Definition inv (q : pool T) : Prop :=
  match q with
  | Fixed p =>
      ∃ b, FixedMemoryPool.block_ p = Some b ∧ MemoryPoolBlock.inv b
  | Dynamic p => DynamicMemoryPool.inv tg p
  end.

(** [history q owned allocs releases]: the pool state [q] is reached from a
    constructor by calls of [new_object] and [delete_object] that respect the
    ownership contract. [owned] lists the pointers handed out and not yet
    released, [allocs] counts the successful allocations and [releases] the
    releases. A release is of an owned pointer; releasing null is no release.
    The block of a fixed pool was allocated. *)
Inductive history : pool T → list Z → nat → nat → Prop :=
| history_fixed max_entries a p :
    (max_entries < 2 ^ 32)%N →
    0 < a →
    FixedMemoryPool.ctor tg max_entries a = Done p →
    history (Fixed p) [] 0 0
| history_dynamic entries_per_block h p :
    (entries_per_block < 2 ^ 32)%N →
    aligned_malloc_answer MIN_BLOCK_ALIGN (DynamicMemoryPool.malloc_answer h) →
    DynamicMemoryPool.ctor tg entries_per_block h = Done p →
    history (Dynamic p) [] 0 0
| history_new q owned allocs releases v h ptr q' :
    history q owned allocs releases →
    host_ok q h →
    new_object v h q = Done (ptr, q') →
    ptr ≠ 0 →
    history q' (ptr :: owned) (S allocs) releases
| history_new_null q owned allocs releases v h q' :
    history q owned allocs releases →
    host_ok q h →
    new_object v h q = Done (0, q') →
    history q' owned allocs releases
| history_delete q owned1 ptr owned2 allocs releases q' :
    history q (owned1 ++ ptr :: owned2) allocs releases →
    delete_object ptr q = Done q' →
    history q' (owned1 ++ owned2) allocs (S releases)
| history_delete_null q owned allocs releases q' :
    history q owned allocs releases →
    delete_object 0 q = Done q' →
    history q' owned allocs releases.

End Code.
End Pool.

(** * Example states *)

Module Examples.

(** A fixed pool of two entries at address 64 (target [tg8]) after two
    allocations. *)
Definition fixed_full : FixedMemoryPool.Pool nat :=
  {| FixedMemoryPool.block_ := Some
       {| MemoryPoolBlock.this := 64;
          MemoryPoolBlock.free_head_index_ := 2;
          MemoryPoolBlock.entries_per_block_ := 2;
          MemoryPoolBlock.indices := [0; 1]%N;
          MemoryPoolBlock.memory := [Some 1%nat; Some 2%nat] |} |}.

(** A dynamic pool with blocks of two entries (target [tg8]) after three
    allocations; the host placed the blocks at 64 and 128. *)
Definition dynamic_three : DynamicMemoryPool.Pool nat :=
  {| DynamicMemoryPool.block_info_ :=
       [Some {| DynamicMemoryPool.num_free_ := 0;
                DynamicMemoryPool.offset_ := 80;
                DynamicMemoryPool.block_ :=
                  {| MemoryPoolBlock.this := 64;
                     MemoryPoolBlock.free_head_index_ := 2;
                     MemoryPoolBlock.entries_per_block_ := 2;
                     MemoryPoolBlock.indices := [0; 1]%N;
                     MemoryPoolBlock.memory := [Some 1%nat; Some 2%nat] |} |};
        Some {| DynamicMemoryPool.num_free_ := 1;
                DynamicMemoryPool.offset_ := 144;
                DynamicMemoryPool.block_ :=
                  {| MemoryPoolBlock.this := 128;
                     MemoryPoolBlock.free_head_index_ := 1;
                     MemoryPoolBlock.entries_per_block_ := 2;
                     MemoryPoolBlock.indices := [0; 2]%N;
                     MemoryPoolBlock.memory := [Some 3%nat; None] |} |}];
     DynamicMemoryPool.num_blocks_ := 2;
     DynamicMemoryPool.free_block_index_ := 1;
     DynamicMemoryPool.entries_per_block_ := 2 |}.

End Examples.

(** * Properties *)

(** ** Outcomes, integers and arrays *)

Lemma bind_Done {A B} (m : outcome A) (f : A → outcome B) (r : B) :
  m ≫= f = Done r → ∃ a, m = Done a ∧ f a = Done r.
Proof. destruct m as [a| |]; cbn; [eauto | done | done]. Qed.

Lemma read_Done {A} (l : list A) (i : N) (x : A) :
  read l i = Done x ↔ l !! N.to_nat i = Some x.
Proof. unfold read. destruct (l !! N.to_nat i); split; congruence. Qed.

Lemma read_lookup {A} (l : list A) (i : N) (x : A) :
  l !! N.to_nat i = Some x → read l i = Done x.
Proof. apply read_Done. Qed.

Lemma store_Done {A} (l l' : list A) (i : N) (x : A) :
  store l i x = Done l' ↔ (N.to_nat i < length l)%nat ∧ l' = <[N.to_nat i := x]> l.
Proof.
  unfold store. destruct (decide _); split.
  - intros [= <-]. done.
  - intros [_ ->]. done.
  - done.
  - intros [? _]. lia.
Qed.

Lemma store_lt {A} (l : list A) (i : N) (x : A) :
  (N.to_nat i < length l)%nat → store l i x = Done (<[N.to_nat i := x]> l).
Proof. intros. by apply store_Done. Qed.

Lemma assert_true tg c : c = true → assert tg c = Done tt.
Proof. intros ->. unfold assert. by rewrite andb_false_r. Qed.

Lemma assert_Done tg c u :
  assert tg c = Done u → assertions tg = false ∨ c = true.
Proof.
  unfold assert. destruct (assertions tg), c; cbn; try discriminate; auto.
Qed.

Lemma wrap32_small n : (n < 2 ^ 32)%N → wrap32 n = n.
Proof. intros. unfold wrap32. by apply N.mod_small. Qed.

Lemma wrap64_small n : (n < 2 ^ 64)%N → wrap64 n = n.
Proof. intros. unfold wrap64. by apply N.mod_small. Qed.

Lemma to_index_small n : (n < 2 ^ 32)%N → to_index (Z.of_N n) = n.
Proof.
  intros. unfold to_index. rewrite Z.mod_small; [apply N2Z.id|].
  change (2 ^ 32)%N with 4294967296%N in *. lia.
Qed.

Lemma dec32_pos n : (0 < n < 2 ^ 32)%N → dec32 n = (n - 1)%N.
Proof.
  intros. unfold dec32, wrap32.
  change (2 ^ 32)%N with 4294967296%N in *.
  replace (n + (4294967296 - 1))%N with (n - 1 + 1 * 4294967296)%N by lia.
  rewrite N.Div0.mod_add. apply N.mod_small. lia.
Qed.

Lemma align_to_ge n align : 0 < align → n <= align_to n align.
Proof.
  intros. unfold align_to.
  pose proof (Z.mod_pos_bound (n + align - 1) align ltac:(lia)).
  pose proof (Z.div_mod (n + align - 1) align ltac:(lia)). lia.
Qed.

(** ** The free list of a block *)

Module BlockFacts.
Import MemoryPoolBlock.

Section Facts.
Context {T : Type} (tg : target).
Implicit Types (b : Block T) (i : N).

Lemma ctor_loop_length n i : length (ctor_loop n i) = n.
Proof. revert i. induction n as [|n IH]; intros i; cbn; [done|]. by rewrite IH. Qed.

Lemma ctor_loop_lookup n i (j : nat) :
  (j < n)%nat → ctor_loop n i !! j = Some (wrap32 (i + N.of_nat j + 1)).
Proof.
  revert i j. induction n as [|n IH]; intros i j Hj; [lia|].
  destruct j as [|j]; cbn [ctor_loop lookup list_lookup].
  - do 2 f_equal. lia.
  - rewrite IH by lia. do 2 f_equal. lia.
Qed.

Lemma free_chain_insert (idx : list N) cap h fl i x :
  i ∉ fl → free_chain idx cap h fl →
  free_chain (<[N.to_nat i := x]> idx) cap h fl.
Proof.
  revert h. induction fl as [|j fl IH]; intros h Hi; cbn; [done|].
  apply not_elem_of_cons in Hi as [Hij Hi].
  intros (-> & Hj & next & Hnext & Hrest).
  split_and!; [done..|]. exists next. split; [|by apply IH].
  rewrite list_lookup_insert_ne; [done|]. lia.
Qed.

Lemma free_chain_head (idx : list N) cap h fl :
  free_chain idx cap h fl → h = cap ∨ h ∈ fl.
Proof.
  destruct fl; cbn; [by left|]. intros (-> & _). right. apply elem_of_cons. by left.
Qed.

Lemma free_chain_fresh cap (k n : nat) :
  (k + n)%nat = N.to_nat cap → (cap < 2 ^ 32)%N →
  free_chain (ctor_loop (N.to_nat cap) 0) cap (N.of_nat k)
    (N.of_nat <$> seq k n).
Proof.
  intros Hkn Hcap. revert k Hkn.
  change (2 ^ 32)%N with 4294967296%N in *.
  induction n as [|n IH]; intros k Hkn; cbn.
  - lia.
  - split_and!; [done | lia |]. exists (N.of_nat (S k)). split; [|apply IH; lia].
    rewrite Nat2N.id, ctor_loop_lookup by lia. f_equal.
    rewrite wrap32_small; change (2 ^ 32)%N with 4294967296%N; lia.
Qed.

Lemma live_lt b i : inv b → live b i → (i < entries_per_block_ b)%N.
Proof.
  intros Hb [v Hv]. apply lookup_lt_Some in Hv.
  rewrite (inv_memory _ Hb) in Hv. lia.
Qed.

Lemma not_live_lookup b i :
  inv b → (i < entries_per_block_ b)%N → ¬ live b i →
  memory b !! N.to_nat i = Some None.
Proof.
  intros Hb Hi Hn.
  destruct (lookup_lt_is_Some_2 (memory b) (N.to_nat i)) as [o Ho].
  { rewrite (inv_memory _ Hb). lia. }
  destruct o as [v|]; [|done]. destruct Hn. by exists v.
Qed.

(** The invariant holds at creation. *)
Lemma inv_ctor (a : Z) (cap : N) :
  0 < a → (cap < 2 ^ 32)%N → inv (ctor (T:=T) a cap).
Proof.
  intros Ha Hcap.
  assert (Hdead : ∀ i, ¬ live (ctor (T:=T) a cap) i).
  { intros i [v Hv]. cbn in Hv. apply lookup_replicate in Hv as [? _]. done. }
  split; cbn.
  - done.
  - done.
  - apply ctor_loop_length.
  - apply length_replicate.
  - intros i Hi. split; [|by intros ?%Hdead].
    rewrite ctor_loop_lookup by lia. intros [= Hw]. exfalso.
    rewrite wrap32_small in Hw;
      change (2 ^ 32)%N with 4294967296%N in *; lia.
  - exists (N.of_nat <$> seq 0 (N.to_nat cap)). split_and!.
    + apply (free_chain_fresh cap 0); [lia | done].
    + apply NoDup_fmap; [apply _ | apply NoDup_seq].
    + intros i. rewrite list_elem_of_fmap. setoid_rewrite elem_of_seq. split.
      * intros (k & -> & Hk). split; [lia | apply Hdead].
      * intros [Hi _]. exists (N.to_nat i). split; [by rewrite N2Nat.id | lia].
Qed.

(** *** new_object *)

Lemma new_object_full b v :
  free_head_index_ b = entries_per_block_ b → new_object tg v b = Done (0, b).
Proof. intros H. unfold new_object. rewrite H, N.eqb_refl. done. Qed.

Lemma new_object_free b v :
  inv b → free_head_index_ b ≠ entries_per_block_ b →
  ∃ next,
    indices b !! N.to_nat (free_head_index_ b) = Some next ∧
    (free_head_index_ b < entries_per_block_ b)%N ∧
    ¬ live b (free_head_index_ b) ∧
    new_object tg v b =
      Done (slot_address tg b (free_head_index_ b),
            {| this := this b;
               free_head_index_ := next;
               entries_per_block_ := entries_per_block_ b;
               indices := <[N.to_nat (free_head_index_ b)
                            := free_head_index_ b]> (indices b);
               memory := <[N.to_nat (free_head_index_ b) := Some v]>
                           (memory b) |}).
Proof.
  intros Hb Hne. destruct (inv_free _ Hb) as (fl & Hchain & Hnd & Hfl).
  destruct fl as [|i fl]; cbn in Hchain; [done|].
  destruct Hchain as (Hhead & Hi & next & Hnext & _).
  assert (Hdead : ¬ live b i) by (apply Hfl, elem_of_cons; by left).
  rewrite Hhead. exists next. split_and!; [done..|].
  unfold new_object. rewrite Hhead.
  apply N.eqb_neq in Hne. rewrite <- Hhead, Hne, Hhead. cbn [negb].
  rewrite (read_lookup _ _ _ Hnext). cbn [mbind outcome_bind].
  rewrite assert_true; cbn [mbind outcome_bind].
  2:{ apply negb_true_iff, N.eqb_neq. intros ->.
      by apply Hdead, (inv_self _ Hb). }
  rewrite !store_lt; [done|..].
  - rewrite (inv_indices _ Hb). lia.
  - rewrite (inv_memory _ Hb). lia.
Qed.

Lemma new_object_inv b v ptr b' :
  inv b → new_object tg v b = Done (ptr, b') → inv b'.
Proof.
  intros Hb Hnew.
  destruct (decide (free_head_index_ b = entries_per_block_ b)) as [Hfull|Hne].
  { rewrite new_object_full in Hnew by done. by injection Hnew as _ <-. }
  destruct (new_object_free b v Hb Hne) as (next & Hnext & Hlt & Hdead & Heq).
  rewrite Heq in Hnew. injection Hnew as _ <-.
  set (h := free_head_index_ b) in *.
  destruct (inv_free _ Hb) as (fl & Hchain & Hnd & Hfl).
  destruct fl as [|i fl]; cbn in Hchain; [done|].
  destruct Hchain as (Hhead & Hi & next' & Hnext' & Hchain).
  fold h in Hhead. subst i.
  assert (next' = next) as -> by congruence.
  apply NoDup_cons in Hnd as [Hh Hnd].
  assert (Hmem : (N.to_nat h < length (memory b))%nat)
    by (rewrite (inv_memory _ Hb); lia).
  assert (Hidx : (N.to_nat h < length (indices b))%nat)
    by (rewrite (inv_indices _ Hb); lia).
  assert (Hlive : ∀ i, i ≠ h →
    live {| this := this b; free_head_index_ := next;
            entries_per_block_ := entries_per_block_ b;
            indices := <[N.to_nat h := h]> (indices b);
            memory := <[N.to_nat h := Some v]> (memory b) |} i ↔ live b i).
  { intros i Hih. unfold live; cbn.
    rewrite list_lookup_insert_ne; [done | lia]. }
  split; cbn.
  - apply (inv_this _ Hb).
  - apply (inv_cap _ Hb).
  - rewrite length_insert. apply (inv_indices _ Hb).
  - rewrite length_insert. apply (inv_memory _ Hb).
  - intros i Hi'. destruct (decide (i = h)) as [->|Hih].
    + rewrite list_lookup_insert_eq by done. split; [|done].
      intros _. exists v. cbn. by rewrite list_lookup_insert_eq.
    + rewrite Hlive by done. rewrite list_lookup_insert_ne by lia.
      by apply (inv_self _ Hb).
  - exists fl. split_and!; [by apply free_chain_insert | done |].
    intros i. destruct (decide (i = h)) as [->|Hih].
    + split; [done|]. intros [_ Hn]. destruct Hn. exists v. cbn.
      by rewrite list_lookup_insert_eq.
    + rewrite Hlive by done. rewrite <- Hfl, elem_of_cons.
      split; [by right | by intros [?|?]].
Qed.

(** *** delete_object *)

Lemma slot_address_pos b i :
  target_ok tg → inv b → 0 < slot_address tg b i.
Proof.
  intros [Hs _ Hh] Hb. pose proof (inv_this _ Hb).
  unfold slot_address, memory_begin, indices_begin, sizeof_index. nia.
Qed.

(** The slots are aligned for [T] when the block is, the header together
    with the unpadded index array is a multiple of the alignment, and so is
    the size of [T]. *)
Lemma slot_address_aligned b i :
  (alignof_T tg | this b) →
  (alignof_T tg | header_size tg + sizeof_index * Z.of_N (entries_per_block_ b)) →
  (alignof_T tg | sizeof_T tg) →
  (alignof_T tg | slot_address tg b i).
Proof.
  intros Ht Hh Hs. unfold slot_address, memory_begin, indices_begin.
  replace (this b + header_size tg
           + sizeof_index * Z.of_N (entries_per_block_ b))
    with (this b + (header_size tg
                    + sizeof_index * Z.of_N (entries_per_block_ b))) by lia.
  apply Z.divide_add_r; [apply Z.divide_add_r; [exact Ht | exact Hh]|].
  by apply Z.divide_mul_r.
Qed.

Lemma delete_object_null b : delete_object tg 0 b = Done b.
Proof. done. Qed.

Lemma delete_object_owned b i :
  target_ok tg → inv b → live b i →
  delete_object tg (slot_address tg b i) b =
    Done {| this := this b;
            free_head_index_ := i;
            entries_per_block_ := entries_per_block_ b;
            indices := <[N.to_nat i := free_head_index_ b]> (indices b);
            memory := <[N.to_nat i := None]> (memory b) |}.
Proof.
  intros Htg Hb Hlive. pose proof (live_lt b i Hb Hlive) as Hi.
  pose proof (slot_address_pos b i Htg Hb) as Hpos.
  pose proof (inv_cap _ Hb) as Hcap.
  destruct Htg as [Hs _ _].
  assert (Hd : slot_address tg b i - memory_begin tg b
               = Z.of_N i * sizeof_T tg) by (unfold slot_address; lia).
  unfold delete_object, destroy_at.
  replace (slot_address tg b i =? 0) with false by (symmetry; lia).
  cbn [negb]. rewrite assert_true; cbn [mbind outcome_bind].
  2:{ apply andb_true_iff. split; [apply Z.leb_le | apply Z.ltb_lt];
      unfold slot_address; nia. }
  rewrite Hd, Z.mod_mul, Z.div_mul by lia.
  replace (0 <=? Z.of_N i * sizeof_T tg) with true by (symmetry; nia).
  rewrite Z.eqb_refl, N2Z.id. cbn [andb].
  destruct Hlive as [v Hv]. rewrite (read_lookup _ _ _ Hv).
  cbn [mbind outcome_bind].
  rewrite (store_lt (memory b)) by (rewrite (inv_memory _ Hb); lia).
  cbn [mbind outcome_bind].
  rewrite to_index_small by lia.
  assert (Hself : indices b !! N.to_nat i = Some i).
  { apply (inv_self _ Hb); [done | by exists v]. }
  rewrite (read_lookup _ _ _ Hself). cbn [mbind outcome_bind].
  rewrite assert_true by apply N.eqb_refl. cbn [mbind outcome_bind].
  rewrite store_lt by (rewrite (inv_indices _ Hb); lia). done.
Qed.

Lemma delete_object_inv b ptr :
  target_ok tg → inv b → owned tg b ptr →
  ∃ b', delete_object tg ptr b = Done b' ∧ inv b'.
Proof.
  intros Htg Hb (i & Hi & Hlive & ->).
  eexists. split; [by apply delete_object_owned|].
  destruct (inv_free _ Hb) as (fl & Hchain & Hnd & Hfl).
  assert (Hifl : i ∉ fl) by (intros [_ ?]%Hfl; done).
  assert (Hhead : free_head_index_ b ≠ i).
  { destruct (free_chain_head _ _ _ _ Hchain) as [Hc|Hc]; [lia|].
    by intros <-. }
  assert (Hmem : (N.to_nat i < length (memory b))%nat)
    by (rewrite (inv_memory _ Hb); lia).
  assert (Hidx : (N.to_nat i < length (indices b))%nat)
    by (rewrite (inv_indices _ Hb); lia).
  set (b' := Build_Block _ _ _ _ _ _).
  assert (Hdead : ¬ live b' i).
  { intros [v Hv]. cbn in Hv. by rewrite list_lookup_insert_eq in Hv. }
  assert (Hother : ∀ j, j ≠ i → live b' j ↔ live b j).
  { intros j Hj. unfold live; cbn.
    rewrite list_lookup_insert_ne; [done | lia]. }
  split; cbn.
  - apply (inv_this _ Hb).
  - apply (inv_cap _ Hb).
  - rewrite length_insert. apply (inv_indices _ Hb).
  - rewrite length_insert. apply (inv_memory _ Hb).
  - intros j Hj. destruct (decide (j = i)) as [->|Hji].
    + rewrite list_lookup_insert_eq by done. split; [congruence | done].
    + rewrite Hother by done. rewrite list_lookup_insert_ne by lia.
      by apply (inv_self _ Hb).
  - exists (i :: fl). split_and!.
    + cbn. split_and!; [done..|]. exists (free_head_index_ b).
      split; [by rewrite list_lookup_insert_eq | by apply free_chain_insert].
    + by apply NoDup_cons.
    + intros j. rewrite elem_of_cons. destruct (decide (j = i)) as [->|Hji].
      * split; [done | by left].
      * rewrite Hother, <- Hfl by done. split; [by intros [?|?] | by right].
Qed.

(** *** The live objects and for_each *)

Lemma live_from_length b (mem : list (option T)) i :
  (length (live_from tg b mem i) <= length mem)%nat.
Proof.
  revert i. induction mem as [|o mem IH]; intros i; cbn; [done|].
  specialize (IH (i + 1)%N). destruct o; cbn; lia.
Qed.

Lemma elem_of_live_from b (mem : list (option T)) k ptr :
  ptr ∈ live_from tg b mem k ↔
  ∃ (j : nat) v, mem !! j = Some (Some v)
                 ∧ ptr = slot_address tg b (k + N.of_nat j).
Proof.
  revert k. induction mem as [|o mem IH]; intros k; cbn [live_from].
  - split; [by intros ?%elem_of_nil | by intros (j & v & ? & _)].
  - assert (Hshift : ptr ∈ live_from tg b mem (k + 1) ↔
      ∃ (j : nat) v, (o :: mem) !! S j = Some (Some v)
                     ∧ ptr = slot_address tg b (k + N.of_nat (S j))).
    { rewrite IH. apply exist_proper; intros j. apply exist_proper; intros v.
      cbn. by replace (k + 1 + N.of_nat j)%N with (k + N.of_nat (S j))%N by lia. }
    destruct o as [w|].
    + rewrite elem_of_cons, Hshift. split.
      * intros [->|(j & v & ? & ?)]; [|by exists (S j), v].
        exists 0%nat, w. by rewrite N.add_0_r.
      * intros ([|j] & v & Hj & ->); [left; by rewrite N.add_0_r|].
        right. by exists j, v.
    + rewrite Hshift. split.
      * intros (j & v & ? & ?). by exists (S j), v.
      * intros ([|j] & v & Hj & ->); [done|]. by exists j, v.
Qed.

Lemma elem_of_live_objects b ptr :
  inv b → ptr ∈ live_objects tg b ↔ owned tg b ptr.
Proof.
  intros Hb. unfold live_objects, owned. rewrite elem_of_live_from. split.
  - intros (j & v & Hj & ->). exists (N.of_nat j).
    assert (live b (N.of_nat j)) by (exists v; by rewrite Nat2N.id).
    split_and!; [by apply live_lt | done | done].
  - intros (i & _ & [v Hv] & ->). exists (N.to_nat i), v.
    by rewrite N2Nat.id.
Qed.

Lemma for_each_loop_spec {St : Type} (func : Z → St → St) b n i s :
  inv b → (N.to_nat i + n)%nat = N.to_nat (entries_per_block_ b) →
  for_each_loop tg func b n i s
  = Done (visits func (live_from tg b (drop (N.to_nat i) (memory b)) i) s).
Proof.
  intros Hb. revert i s. induction n as [|n IH]; intros i s Hn.
  - rewrite drop_ge by (rewrite (inv_memory _ Hb); lia). done.
  - assert (Hi : (i < entries_per_block_ b)%N) by lia.
    destruct (lookup_lt_is_Some_2 (indices b) (N.to_nat i)) as [x Hx].
    { rewrite (inv_indices _ Hb). lia. }
    destruct (lookup_lt_is_Some_2 (memory b) (N.to_nat i)) as [o Ho].
    { rewrite (inv_memory _ Hb). lia. }
    cbn [for_each_loop]. rewrite (read_lookup _ _ _ Hx).
    cbn [mbind outcome_bind]. rewrite IH by lia.
    rewrite (drop_S _ _ _ Ho). cbn [live_from].
    replace (N.to_nat (i + 1)) with (S (N.to_nat i)) by lia.
    pose proof (inv_self _ Hb i Hi) as Hself.
    destruct o as [v|].
    + assert (x = i) as ->.
      { assert (Some x = Some i) by (rewrite <- Hx; apply Hself; by exists v).
        congruence. }
      by rewrite N.eqb_refl.
    + destruct (N.eqb_spec x i) as [->|_]; [|done].
      apply Hself in Hx as [v Hv]. congruence.
Qed.

Lemma for_each_spec {St : Type} (func : Z → St → St) b s :
  inv b →
  for_each tg func b s = Done (visits func (live_objects tg b) s).
Proof.
  intros Hb. unfold for_each. rewrite for_each_loop_spec by (done || lia).
  done.
Qed.

Lemma live_objects_length b :
  inv b → (N.of_nat (length (live_objects tg b)) <= entries_per_block_ b)%N.
Proof.
  intros Hb. pose proof (live_from_length b (memory b) 0) as Hl.
  rewrite (inv_memory _ Hb) in Hl. unfold live_objects. lia.
Qed.

Lemma visits_count (ptrs : list Z) (c : nat) :
  visits (fun _ n => S n) ptrs c = (c + length ptrs)%nat.
Proof.
  revert c. unfold visits.
  induction ptrs as [|p ptrs IH]; intros c; cbn [foldl length]; [lia|].
  rewrite IH. lia.
Qed.

Lemma visits_count32 (ptrs : list Z) (c : N) :
  (c + N.of_nat (length ptrs) < 2 ^ 32)%N →
  visits (fun _ n => wrap32 (n + 1)) ptrs c = (c + N.of_nat (length ptrs))%N.
Proof.
  revert c. unfold visits.
  induction ptrs as [|p ptrs IH]; intros c Hc; cbn [foldl length] in *.
  - lia.
  - rewrite wrap32_small by lia. rewrite IH by lia. lia.
Qed.

Lemma visits_count64 (ptrs : list Z) (c : N) :
  (c + N.of_nat (length ptrs) < 2 ^ 64)%N →
  visits (fun _ n => wrap64 (n + 1)) ptrs c = (c + N.of_nat (length ptrs))%N.
Proof.
  revert c. unfold visits.
  induction ptrs as [|p ptrs IH]; intros c Hc; cbn [foldl length] in *.
  - lia.
  - rewrite wrap64_small by lia. rewrite IH by lia. lia.
Qed.

Lemma count_allocations_spec b :
  inv b →
  count_allocations tg b = Done (N.of_nat (length (live_objects tg b))).
Proof.
  intros Hb. unfold count_allocations. rewrite for_each_spec by done.
  rewrite visits_count32; [done|].
  pose proof (live_objects_length b Hb). pose proof (inv_cap _ Hb). lia.
Qed.

(** *** How the operations change the live objects *)

Lemma live_from_ext b b' (mem : list (option T)) k :
  this b' = this b → entries_per_block_ b' = entries_per_block_ b →
  live_from tg b' mem k = live_from tg b mem k.
Proof.
  intros Ht Hc. revert k. induction mem as [|o mem IH]; intros k; [done|].
  cbn [live_from]. rewrite IH.
  unfold slot_address, memory_begin, indices_begin. by rewrite Ht, Hc.
Qed.

Lemma live_from_insert_Some b (mem : list (option T)) k (j : nat) v :
  mem !! j = Some None →
  live_from tg b (<[j := Some v]> mem) k
  ≡ₚ slot_address tg b (k + N.of_nat j) :: live_from tg b mem k.
Proof.
  revert k j. induction mem as [|o mem IH]; intros k j Hj; [done|].
  destruct j as [|j]; cbn in Hj.
  - injection Hj as ->. cbn. by rewrite N.add_0_r.
  - cbn [insert list_insert live_from].
    replace (k + N.of_nat (S j))%N with (k + 1 + N.of_nat j)%N by lia.
    destruct o; rewrite (IH _ _ Hj); [apply perm_swap | done].
Qed.

Lemma live_from_insert_None b (mem : list (option T)) k (j : nat) v :
  mem !! j = Some (Some v) →
  live_from tg b mem k
  ≡ₚ slot_address tg b (k + N.of_nat j) :: live_from tg b (<[j := None]> mem) k.
Proof.
  revert k j. induction mem as [|o mem IH]; intros k j Hj; [done|].
  destruct j as [|j]; cbn in Hj.
  - injection Hj as ->. cbn. by rewrite N.add_0_r.
  - cbn [insert list_insert live_from].
    replace (k + N.of_nat (S j))%N with (k + 1 + N.of_nat j)%N by lia.
    destruct o; rewrite (IH _ _ Hj) at 1; [apply perm_swap | done].
Qed.

Lemma new_object_live b v ptr b' :
  target_ok tg → inv b → new_object tg v b = Done (ptr, b') →
  this b' = this b ∧ entries_per_block_ b' = entries_per_block_ b ∧
  ((ptr = 0 ∧ b' = b ∧ free_head_index_ b = entries_per_block_ b) ∨
   (ptr ≠ 0 ∧ free_head_index_ b ≠ entries_per_block_ b ∧
    live_objects tg b' ≡ₚ ptr :: live_objects tg b)).
Proof.
  intros Htg Hb Hnew.
  destruct (decide (free_head_index_ b = entries_per_block_ b)) as [Hfull|Hne].
  { rewrite new_object_full in Hnew by done. injection Hnew as <- <-.
    split_and!; [done..|]. by left. }
  destruct (new_object_free b v Hb Hne) as (next & Hnext & Hlt & Hdead & Heq).
  rewrite Heq in Hnew. injection Hnew as <- <-.
  split_and!; [done..|]. right. split_and!; [|done|].
  - pose proof (slot_address_pos b (free_head_index_ b) Htg Hb). lia.
  - unfold live_objects. cbn [memory].
    rewrite (live_from_ext b) by done.
    rewrite live_from_insert_Some by by apply not_live_lookup.
    by rewrite N.add_0_l, N2Nat.id.
Qed.

Lemma delete_object_live b ptr :
  target_ok tg → inv b → owned tg b ptr →
  ∃ b', delete_object tg ptr b = Done b' ∧ inv b' ∧
        this b' = this b ∧ entries_per_block_ b' = entries_per_block_ b ∧
        live_objects tg b ≡ₚ ptr :: live_objects tg b'.
Proof.
  intros Htg Hb Hown.
  destruct (delete_object_inv b ptr Htg Hb Hown) as (b' & Hdel & Hb').
  exists b'. split_and!; [done..| | |];
    destruct Hown as (i & Hi & Hlive & ->);
    rewrite delete_object_owned in Hdel by done; injection Hdel as <-;
    [done..|].
  unfold live_objects. cbn [memory]. destruct Hlive as [v Hv].
  rewrite (live_from_ext b (Build_Block _ _ _ _ _ _)) by done.
  rewrite (live_from_insert_None _ _ _ _ _ Hv) at 1.
  by rewrite N.add_0_l, N2Nat.id.
Qed.

(** *** Full blocks *)

Lemma live_from_all b (mem : list (option T)) k :
  (∀ j, (j < length mem)%nat → ∃ v, mem !! j = Some (Some v)) →
  length (live_from tg b mem k) = length mem.
Proof.
  revert k. induction mem as [|o mem IH]; intros k Hall; [done|].
  destruct (Hall 0%nat) as [v Hv]; [cbn; lia|]. injection Hv as ->.
  cbn. f_equal. apply IH. intros j Hj. apply (Hall (S j)). cbn. lia.
Qed.

Lemma full_live b :
  inv b → free_head_index_ b = entries_per_block_ b →
  N.of_nat (length (live_objects tg b)) = entries_per_block_ b.
Proof.
  intros Hb Hfull. destruct (inv_free _ Hb) as (fl & Hchain & _ & Hfl).
  destruct fl as [|i fl]; cbn in Hchain.
  2:{ destruct Hchain as (? & ? & _). lia. }
  unfold live_objects. rewrite live_from_all.
  { rewrite (inv_memory _ Hb). lia. }
  intros j Hj. rewrite (inv_memory _ Hb) in Hj.
  destruct (lookup_lt_is_Some_2 (memory b) j) as [[v|] Ho];
    [rewrite (inv_memory _ Hb); lia | by exists v |].
  exfalso. apply (not_elem_of_nil (N.of_nat j)), Hfl. split; [lia|].
  intros [v Hv]. rewrite Nat2N.id in Hv. congruence.
Qed.

End Facts.
End BlockFacts.

(** ** Statements about a single block *)

Module BlockClaims.
Import MemoryPoolBlock BlockFacts.

Lemma tg8_ok : target_ok tg8.
Proof. split; cbn; lia. Qed.

(** C1. The block invariant [inv] (an index entry refers to itself exactly at
    the live slots; the entries of the other slots link the free list, whose
    last entry is the sentinel [entries_per_block_]; [free_head_index_] is the
    first free slot, or the sentinel when there is none) holds for a block
    that [create] returns, and [new_object] and [delete_object] (of null or
    of an owned pointer) preserve it; such a [delete_object] completes. *)
Theorem block_invariant {T : Type} (tg : target) :
  target_ok tg →
  (∀ cap a (b : Block T), (cap < 2 ^ 32)%N → 0 <= a →
     create tg cap a = Done (Some b) → inv b) ∧
  (∀ (b : Block T) v ptr b',
     inv b → new_object tg v b = Done (ptr, b') → inv b') ∧
  (∀ (b : Block T) ptr,
     inv b → ptr = 0 ∨ owned tg b ptr →
     ∃ b', delete_object tg ptr b = Done b' ∧ inv b').
Proof.
  intros Htg. split_and!.
  - intros cap a b Hcap Ha Hcreate. unfold create in Hcreate.
    destruct (Z.eqb_spec a 0) as [->|Hne].
    { by destruct (assertions tg). }
    assert (b = ctor a cap) as ->.
    { destruct (assertions tg); [|congruence].
      apply bind_Done in Hcreate as (_ & _ & Hcreate).
      apply bind_Done in Hcreate as (_ & _ & Hcreate). congruence. }
    apply inv_ctor; [lia | done].
  - intros b v ptr b'. apply new_object_inv.
  - intros b ptr Hb [->|Hown].
    + exists b. by rewrite delete_object_null.
    + by apply delete_object_inv.
Qed.

Lemma block_invariant_witness :
  target_ok tg8 ∧
  ∃ b1 b2 : Block nat,
    create tg8 2 64 = Done (Some b1) ∧ inv b1 ∧
    new_object tg8 7%nat b1 = Done (80, b2) ∧ inv b2 ∧
    ∃ b3, delete_object tg8 80 b2 = Done b3 ∧ inv b3.
Proof.
  split; [exact tg8_ok|].
  destruct (block_invariant (T:=nat) tg8 tg8_ok) as (Hcreate & Hnew & Hdel).
  eexists _, _.
  assert (H1 : create (T:=nat) tg8 2 64 = Done (Some (ctor 64 2)))
    by reflexivity.
  assert (Hb1 : inv (ctor (T:=nat) 64 2)).
  { apply (Hcreate 2%N 64); [reflexivity | lia | exact H1]. }
  split; [exact H1|]. split; [exact Hb1|].
  assert (H2 : ∃ b2, new_object tg8 7%nat (ctor 64 2) = Done (80, b2))
    by (eexists; vm_compute; reflexivity).
  destruct H2 as [b2 H2]. pose proof (Hnew _ _ _ _ Hb1 H2) as Hb2.
  vm_compute in H2. injection H2 as <-.
  split; [reflexivity|]. split; [exact Hb2|].
  apply Hdel; [exact Hb2|]. right. exists 0%N.
  split_and!; [reflexivity | by exists 7%nat | reflexivity].
Defined.

(** C2. On a block that satisfies the invariant, [new_object] behaves as
    follows. When [free_head_index_] equals the capacity it returns null and
    the block is unchanged. Otherwise, with [i] the old [free_head_index_],
    it returns the address of slot [i]; afterwards entry [i] of the index
    array is [i], [free_head_index_] is the old entry [i], slot [i] holds the
    constructed object, and every other index entry and every other slot is
    as before. *)
Theorem new_object_spec {T : Type} (tg : target) (b : Block T) (v : T) :
  inv b →
  (free_head_index_ b = entries_per_block_ b →
   new_object tg v b = Done (0, b)) ∧
  (free_head_index_ b ≠ entries_per_block_ b →
   ∃ next b',
     let i := free_head_index_ b in
     indices b !! N.to_nat i = Some next ∧
     new_object tg v b = Done (slot_address tg b i, b') ∧
     indices b' !! N.to_nat i = Some i ∧
     free_head_index_ b' = next ∧
     memory b' !! N.to_nat i = Some (Some v) ∧
     (∀ j : nat, j ≠ N.to_nat i →
        indices b' !! j = indices b !! j ∧ memory b' !! j = memory b !! j) ∧
     length (indices b') = length (indices b) ∧
     length (memory b') = length (memory b) ∧
     this b' = this b ∧ entries_per_block_ b' = entries_per_block_ b).
Proof.
  intros Hb. split; [apply new_object_full|]. intros Hne.
  destruct (new_object_free tg b v Hb Hne) as (next & Hnext & Hlt & _ & Heq).
  eexists next, _. cbn zeta. split; [done|]. split; [exact Heq|]. cbn.
  assert ((N.to_nat (free_head_index_ b) < length (indices b))%nat)
    by (rewrite (inv_indices _ Hb); lia).
  assert ((N.to_nat (free_head_index_ b) < length (memory b))%nat)
    by (rewrite (inv_memory _ Hb); lia).
  rewrite !list_lookup_insert_eq, !length_insert by done.
  split_and!; try done.
  intros j Hj. by rewrite !list_lookup_insert_ne.
Qed.

Lemma new_object_spec_witness :
  inv (ctor (T:=nat) 64 2) ∧
  new_object tg8 7%nat (ctor 64 2)
  = Done (80, {| this := 64; free_head_index_ := 1; entries_per_block_ := 2;
                 indices := [0; 2]%N; memory := [Some 7%nat; None] |}).
Proof.
  assert (Hb : inv (ctor (T:=nat) 64 2)) by (apply inv_ctor; [lia | reflexivity]).
  split; [exact Hb|].
  destruct (new_object_spec tg8 (ctor 64 2) 7%nat Hb) as [_ Hfree].
  destruct Hfree as (next & b' & _ & Hnew & _); [discriminate|].
  rewrite Hnew. vm_compute in Hnew. injection Hnew as <-. reflexivity.
Defined.

(** C5. LIFO reuse: on a block that satisfies the invariant, releasing an
    owned pointer and allocating next returns that same pointer, whatever
    other live objects the block holds. *)
Theorem lifo_reuse {T : Type} (tg : target) (b : Block T) (ptr : Z) (v : T) :
  target_ok tg → inv b → owned tg b ptr →
  ∃ b1 b2, delete_object tg ptr b = Done b1 ∧
           new_object tg v b1 = Done (ptr, b2).
Proof.
  intros Htg Hb Hown.
  destruct (delete_object_inv tg b ptr Htg Hb Hown) as (b1 & Hdel & Hb1).
  destruct Hown as (i & Hi & Hlive & ->).
  pose proof Hdel as Hdel'.
  rewrite delete_object_owned in Hdel' by done. injection Hdel' as Hb1eq.
  assert (Hhead : free_head_index_ b1 = i) by by rewrite <- Hb1eq.
  assert (Hne : free_head_index_ b1 ≠ entries_per_block_ b1).
  { rewrite <- Hb1eq. cbn. lia. }
  destruct (new_object_free tg b1 v Hb1 Hne) as (next & _ & _ & _ & Hnew).
  eexists b1, _. split; [done|]. rewrite Hnew, Hhead. f_equal. f_equal.
  rewrite <- Hb1eq. done.
Qed.

Lemma lifo_reuse_witness :
  let b : Block nat :=
    {| this := 64; free_head_index_ := 4; entries_per_block_ := 4;
       indices := [0; 1; 2; 3]%N;
       memory := [Some 5%nat; Some 6%nat; Some 7%nat; Some 8%nat] |} in
  target_ok tg8 ∧ inv b ∧ owned tg8 b 96 ∧
  ∃ b1 b2, delete_object tg8 96 b = Done b1 ∧
           new_object tg8 9%nat b1 = Done (96, b2).
Proof.
  intros b.
  assert (Hb : inv b).
  { split; try reflexivity.
    - intros i Hi. unfold live.
      assert (i = 0 ∨ i = 1 ∨ i = 2 ∨ i = 3)%N as [-> | [-> | [-> | ->]]]
        by (cbn in Hi; lia); cbn;
        (split; [eauto | done]).
    - exists []. split_and!; [reflexivity | constructor |].
      intros i. split; [by intros ?%elem_of_nil|]. intros [Hi Hn].
      destruct Hn. unfold live.
      assert (i = 0 ∨ i = 1 ∨ i = 2 ∨ i = 3)%N as [-> | [-> | [-> | ->]]]
        by (cbn in Hi; lia); cbn; eauto. }
  assert (Hown : owned tg8 b 96).
  { exists 1%N. split_and!; [reflexivity | by exists 6%nat | reflexivity]. }
  split_and!; [exact tg8_ok | exact Hb | exact Hown |].
  exact (lifo_reuse tg8 b 96 9%nat tg8_ok Hb Hown).
Defined.

(** C7. The storage of a block is not always aligned for [T]:
    [memory_begin] adds the unpadded size of the index array to the end of
    the header, not [indices_size]. For an element type of size and alignment
    16 and a block of 4 entries at address 64 both assertions of [create]
    pass and the first object is at address 88. For an element type of size
    and alignment 8 and a block of 1 entry the object is at address 76 when
    assertions are compiled out, and the second assertion of [create] fails
    when they are compiled in. *)
Theorem storage_misaligned :
  let tg16 := {| sizeof_T := 16; alignof_T := 16; header_size := 8;
                 assertions := true |} in
  let tg8r := {| sizeof_T := 8; alignof_T := 8; header_size := 8;
                 assertions := false |} in
  aligned_malloc_answer MIN_BLOCK_ALIGN 64 ∧
  (∃ b b' : Block unit,
     create tg16 4 64 = Done (Some b) ∧
     new_object tg16 () b = Done (88, b') ∧
     88 mod alignof_T tg16 = 8) ∧
  (∃ b b' : Block unit,
     create tg8r 1 64 = Done (Some b) ∧
     new_object tg8r () b = Done (76, b') ∧
     76 mod alignof_T tg8r = 4) ∧
  create (T:=unit) tg8 1 64 = AssertFail.
Proof.
  cbn zeta. split_and!.
  - right. split; [lia | reflexivity].
  - eexists _, _. split_and!; [reflexivity | vm_compute; reflexivity | reflexivity].
  - eexists _, _. split_and!; [reflexivity | vm_compute; reflexivity | reflexivity].
  - reflexivity.
Qed.

End BlockClaims.

(** ** The dynamic pool: records, search and growth *)

Module DynamicFacts.
Import MemoryPoolBlock DynamicMemoryPool.

Section Facts.
Context {T : Type} (tg : target).
Implicit Types (p : Pool T) (info : BlockInfo T) (infos : list (BlockInfo T)).

Lemma blocks_Some infos (p : Pool T) :
  block_info_ p = Some <$> infos → blocks p = block_ <$> infos.
Proof.
  unfold blocks. intros ->. induction infos as [|info infos IH]; [done|].
  cbn. by rewrite IH.
Qed.

Lemma all_Some {A} (P : A → Prop) (l : list (option A)) :
  (∀ k o, l !! k = Some o → ∃ x, o = Some x ∧ P x) →
  ∃ l', l = Some <$> l' ∧ Forall P l'.
Proof.
  induction l as [|o l IH]; intros Hl.
  - by exists [].
  - destruct (Hl 0%nat o) as (x & -> & Hx); [done|].
    destruct IH as (l' & -> & Hl'); [intros k; apply (Hl (S k))|].
    exists (x :: l'). split; [done | by constructor].
Qed.

(** The records of a pool that satisfies the invariant. *)
Lemma inv_records p :
  inv tg p →
  ∃ infos, block_info_ p = Some <$> infos ∧
           Forall (info_inv tg (entries_per_block_ p)) infos ∧
           length infos = N.to_nat (num_blocks_ p) ∧
           blocks p = block_ <$> infos.
Proof.
  intros Hp. destruct (all_Some _ _ (inv_infos _ _ Hp)) as (infos & Hi & Hall).
  exists infos. split_and!; [done | done | | by apply blocks_Some].
  rewrite <- (inv_length _ _ Hp), Hi. by rewrite length_fmap.
Qed.

Lemma inv_intro p infos :
  (entries_per_block_ p < 2 ^ 32)%N → (num_blocks_ p < 2 ^ 32)%N →
  (free_block_index_ p <= num_blocks_ p)%N →
  block_info_ p = Some <$> infos →
  length infos = N.to_nat (num_blocks_ p) →
  Forall (info_inv tg (entries_per_block_ p)) infos →
  (∀ j k ij ik, j ≠ k → infos !! j = Some ij → infos !! k = Some ik →
     apart tg (entries_per_block_ p) (this (block_ ij)) (this (block_ ik))) →
  inv tg p.
Proof.
  intros HB Hnb Hhint Hi Hlen Hall Hapart. split; [done | done | | done | |].
  - by rewrite Hi, length_fmap.
  - intros k o. rewrite Hi, list_lookup_fmap. intros Hk.
    destruct (infos !! k) as [info|] eqn:Hinfo; [|done]. injection Hk as <-.
    exists info. split; [done|]. by eapply Forall_lookup_1.
  - intros j k bj bk Hjk. rewrite (blocks_Some infos) by done.
    rewrite !list_lookup_fmap. intros Hj Hk.
    destruct (infos !! j) as [ij|] eqn:Hij; [|done].
    destruct (infos !! k) as [ik|] eqn:Hik; [|done].
    injection Hj as <-. injection Hk as <-. by eapply Hapart.
Qed.

Lemma inv_apart_records p infos j k ij ik :
  inv tg p → block_info_ p = Some <$> infos →
  j ≠ k → infos !! j = Some ij → infos !! k = Some ik →
  apart tg (entries_per_block_ p) (this (block_ ij)) (this (block_ ik)).
Proof.
  intros Hp Hi Hjk Hj Hk. apply (inv_apart _ _ Hp j k); [done|..];
    rewrite (blocks_Some infos) by done; rewrite list_lookup_fmap;
    [by rewrite Hj | by rewrite Hk].
Qed.

Lemma live_objects_ctor (a : Z) (cap : N) :
  MemoryPoolBlock.live_objects tg (MemoryPoolBlock.ctor (T:=T) a cap) = [].
Proof.
  unfold MemoryPoolBlock.live_objects. cbn [memory MemoryPoolBlock.ctor].
  generalize (N.to_nat cap) 0%N.
  intros n. induction n as [|n IH]; intros k; [done|]. cbn. apply IH.
Qed.

(** *** add_block *)

(** What [create] returns when it completes. *)
Lemma create_Done cap a (ob : option (Block T)) :
  create tg cap a = Done ob →
  (a = 0 ∧ ob = None ∧ assertions tg = false) ∨
  (a ≠ 0 ∧ ob = Some (MemoryPoolBlock.ctor a cap)).
Proof.
  unfold create. destruct (Z.eqb_spec a 0) as [->|Hne].
  - destruct (assertions tg); [done|]. intros [= <-]. by left.
  - intros Hc. right. split; [done|].
    destruct (assertions tg); [|congruence].
    apply bind_Done in Hc as (_ & _ & Hc).
    apply bind_Done in Hc as (_ & _ & Hc). congruence.
Qed.

(** [create] completes when the allocation succeeds and either assertions
    are compiled out or the index array needs no padding. *)
Lemma create_ok cap a :
  a ≠ 0 →
  assertions tg = false ∨ indices_size tg cap = sizeof_index * Z.of_N cap →
  create (T:=T) tg cap a = Done (Some (MemoryPoolBlock.ctor a cap)).
Proof.
  intros Ha Hlayout. unfold create.
  replace (a =? 0) with false by (symmetry; lia).
  destruct (assertions tg) eqn:Hassert; [|done].
  destruct Hlayout as [|Hlayout]; [done|].
  rewrite !assert_true; [done|..]; apply Z.eqb_eq;
    unfold memory_begin, indices_begin; cbn; lia.
Qed.

Lemma add_block_Done h p r p' :
  length (block_info_ p) = N.to_nat (num_blocks_ p) →
  free_block_index_ p = num_blocks_ p →
  add_block tg h p = Done (r, p') →
  (r = None ∧ p' = p ∧ malloc_answer h = 0) ∨
  (malloc_answer h ≠ 0 ∧ r = Some (num_blocks_ p) ∧
   (num_blocks_ p + 1 < 2 ^ 32)%N ∧
   p' = {| block_info_ :=
             block_info_ p ++
             [Some (new_info tg (entries_per_block_ p) (malloc_answer h))];
           num_blocks_ := num_blocks_ p + 1;
           free_block_index_ := free_block_index_ p;
           entries_per_block_ := entries_per_block_ p |}).
Proof.
  intros Hlen Hfbi Hadd. unfold add_block in Hadd.
  apply bind_Done in Hadd as (_ & _ & Hadd).
  apply bind_Done in Hadd as (ob & Hcreate & Hadd).
  apply create_Done in Hcreate as [(Ha & -> & _)|(Ha & ->)].
  { injection Hadd as <- <-. by left. }
  right. destruct (realloc_ok h); [|done].
  apply bind_Done in Hadd as (infos' & Hstore & Hadd).
  apply store_Done in Hstore as [Hlt ->]. rewrite length_resize in Hlt.
  assert (Hnb : (num_blocks_ p + 1 < 2 ^ 32)%N).
  { destruct (decide (num_blocks_ p + 1 < 2 ^ 32)%N) as [|Hge]; [done|].
    exfalso. unfold wrap32 in Hlt.
    pose proof (N.mod_upper_bound (num_blocks_ p + 1) (2 ^ 32) ltac:(done)).
    pose proof (N.Div0.mod_le (num_blocks_ p + 1) (2 ^ 32)).
    destruct (decide (num_blocks_ p + 1 = 2 ^ 32)%N) as [Heq|Hne].
    - rewrite Heq, N.Div0.mod_same in Hlt. lia.
    - assert (num_blocks_ p < 2 ^ 32)%N by lia. lia. }
  rewrite wrap32_small in Hadd by done.
  injection Hadd as <- <-. split_and!; [done | by rewrite Hfbi | done |].
  f_equal.
  rewrite resize_spec, take_ge by lia.
  replace (N.to_nat (num_blocks_ p + 1) - length (block_info_ p))%nat
    with 1%nat by lia.
  rewrite Hfbi, <- Hlen. cbn [replicate].
  rewrite insert_app_r_alt, Nat.sub_diag by lia. done.
Qed.

Lemma apart_sym cap a1 a2 : apart tg cap a1 a2 → apart tg cap a2 a1.
Proof. unfold apart. tauto. Qed.

Lemma new_info_inv cap a :
  0 < a → (cap < 2 ^ 32)%N → info_inv tg cap (new_info (T:=T) tg cap a).
Proof.
  intros Ha Hcap. split; unfold new_info; cbn [block_ num_free_ offset_].
  - by apply BlockFacts.inv_ctor.
  - done.
  - done.
  - intros _. rewrite live_objects_ctor. cbn. lia.
Qed.

(** Appending the record of a fresh block keeps the invariant and the live
    objects. *)
Lemma inv_append p a :
  inv tg p → 0 < a → (num_blocks_ p + 1 < 2 ^ 32)%N →
  (∀ b, b ∈ blocks p → apart tg (entries_per_block_ p) a (this b)) →
  let p' := {| block_info_ :=
                 block_info_ p ++ [Some (new_info tg (entries_per_block_ p) a)];
               num_blocks_ := num_blocks_ p + 1;
               free_block_index_ := free_block_index_ p;
               entries_per_block_ := entries_per_block_ p |} in
  inv tg p' ∧
  blocks p' = blocks p ++ [MemoryPoolBlock.ctor a (entries_per_block_ p)] ∧
  live_objects tg p' = live_objects tg p.
Proof.
  intros Hp Ha Hnb Hfresh p'.
  destruct (inv_records p Hp) as (infos & Hi & Hall & Hlen & Hblocks).
  assert (Hi' : block_info_ p'
                = Some <$> (infos ++ [new_info tg (entries_per_block_ p) a])).
  { cbn. by rewrite Hi, fmap_app. }
  assert (Hblocks' : blocks p'
    = blocks p ++ [MemoryPoolBlock.ctor a (entries_per_block_ p)]).
  { rewrite (blocks_Some _ _ Hi'), Hblocks, fmap_app. done. }
  split_and!; [|done|].
  - apply (inv_intro p' (infos ++ [new_info tg (entries_per_block_ p) a]));
      cbn.
    + apply (inv_entries _ _ Hp).
    + done.
    + pose proof (inv_hint _ _ Hp). lia.
    + done.
    + rewrite length_app. cbn. lia.
    + apply Forall_app. split; [done|]. constructor; [|done].
      apply new_info_inv; [done | apply (inv_entries _ _ Hp)].
    + assert (Hold : ∀ j ij, infos !! j = Some ij →
        apart tg (entries_per_block_ p) a (this (block_ ij))).
      { intros j ij Hj. apply Hfresh. rewrite Hblocks.
        apply list_elem_of_fmap. exists ij. split; [done|].
        by eapply list_elem_of_lookup_2. }
      intros j k ij ik Hjk Hj Hk.
      apply lookup_app_Some in Hj as [Hj|[Hjl Hj]];
        apply lookup_app_Some in Hk as [Hk|[Hkl Hk]].
      * by eapply (inv_apart_records p infos j k).
      * apply list_lookup_singleton_Some in Hk as [_ <-]. cbn.
        apply apart_sym. by eapply Hold.
      * apply list_lookup_singleton_Some in Hj as [_ <-]. cbn.
        by eapply Hold.
      * apply list_lookup_singleton_Some in Hj as [? _].
        apply list_lookup_singleton_Some in Hk as [? _]. lia.
  - unfold live_objects. rewrite Hblocks', bind_app, bind_singleton.
    by rewrite live_objects_ctor, app_nil_r.
Qed.

(** *** The search for a block with free space *)

Lemma search_spec infos (k nb : N) :
  (N.to_nat k + length infos)%nat = N.to_nat nb →
  ∃ k', search (Some <$> infos) k nb = Done k' ∧ (k <= k' <= nb)%N ∧
        (∀ (j : nat) info, infos !! j = Some info →
           (k + N.of_nat j < k')%N → num_free_ info = 0%N) ∧
        ((k' < nb)%N →
         ∃ info, infos !! N.to_nat (k' - k) = Some info ∧ num_free_ info ≠ 0%N).
Proof.
  revert k. induction infos as [|info infos IH]; intros k Hlen.
  - cbn in Hlen. assert (k = nb) as -> by lia. exists nb.
    cbn. rewrite N.eqb_refl. split_and!; [done | lia | lia | done | lia].
  - cbn in Hlen. cbn [fmap list_fmap search].
    destruct (N.eqb_spec k nb) as [->|_]; [lia|].
    destruct (N.eqb_spec (num_free_ info) 0) as [Hzero|Hfree].
    + destruct (IH (k + 1)%N) as (k' & Hs & Hk' & Hbefore & Hat); [lia|].
      exists k'. rewrite Hs. split_and!; [done | lia | lia | |].
      * intros [|j] info' Hj Hlt; cbn in Hj; [congruence|].
        apply (Hbefore j); [done | lia].
      * intros Hnb. destruct (Hat Hnb) as (info' & Hinfo' & Hne).
        exists info'. split; [|done].
        replace (N.to_nat (k' - k)) with (S (N.to_nat (k' - (k + 1)))) by lia.
        done.
    + exists k. split_and!; [done | lia | lia | intros; lia |].
      intros _. exists info. by rewrite N.sub_diag.
Qed.

(** *** Updating one record *)

Lemma inv_set_hint p i :
  inv tg p → (i <= num_blocks_ p)%N → inv tg (set_free_block_index p i).
Proof. intros [] Hi. by split. Qed.

Lemma inv_update p infos (k : nat) info info' :
  inv tg p → block_info_ p = Some <$> infos → infos !! k = Some info →
  info_inv tg (entries_per_block_ p) info' →
  this (block_ info') = this (block_ info) →
  inv tg (set_block_info p (Some <$> <[k := info']> infos)).
Proof.
  intros Hp Hi Hk Hinfo' Hthis.
  destruct (inv_records p Hp) as (infos0 & Hi0 & Hall & Hlen & _).
  assert (infos0 = infos) as ->.
  { rewrite Hi in Hi0. by apply (inj (fmap Some)) in Hi0. }
  assert (Hsame : ∀ j ij, <[k := info']> infos !! j = Some ij →
    ∃ ij0, infos !! j = Some ij0 ∧ this (block_ ij) = this (block_ ij0)).
  { intros j ij [(<- & <- & _)|[_ Hj]]%list_lookup_insert_Some; eauto. }
  apply (inv_intro _ (<[k := info']> infos)); cbn.
  - apply (inv_entries _ _ Hp).
  - apply (inv_num_blocks _ _ Hp).
  - apply (inv_hint _ _ Hp).
  - done.
  - by rewrite length_insert.
  - by apply Forall_insert.
  - intros i j ii ij Hij Hii Hjj.
    destruct (Hsame _ _ Hii) as (ii0 & Hii0 & ->).
    destruct (Hsame _ _ Hjj) as (ij0 & Hij0 & ->).
    by eapply (inv_apart_records p infos i j).
Qed.

Lemma live_objects_update p infos (k : nat) info info' :
  block_info_ p = Some <$> infos → infos !! k = Some info →
  ∃ L1 L2,
    live_objects tg p
    = L1 ++ MemoryPoolBlock.live_objects tg (block_ info) ++ L2 ∧
    live_objects tg (set_block_info p (Some <$> <[k := info']> infos))
    = L1 ++ MemoryPoolBlock.live_objects tg (block_ info') ++ L2.
Proof.
  intros Hi Hk.
  exists ((block_ <$> take k infos) ≫= MemoryPoolBlock.live_objects tg),
         ((block_ <$> drop (S k) infos) ≫= MemoryPoolBlock.live_objects tg).
  unfold live_objects. rewrite (blocks_Some infos) by done.
  rewrite (blocks_Some (<[k := info']> infos)) by done.
  rewrite insert_take_drop by by eapply lookup_lt_Some.
  rewrite <- (take_drop_middle infos k info Hk) at 1.
  by rewrite !fmap_app, !fmap_cons, !bind_app, !bind_cons.
Qed.

Lemma addresses_update p infos (k : nat) info info' :
  block_info_ p = Some <$> infos → infos !! k = Some info →
  this (block_ info') = this (block_ info) →
  this <$> blocks (set_block_info p (Some <$> <[k := info']> infos))
  = this <$> blocks p.
Proof.
  intros Hi Hk Hthis. rewrite (blocks_Some infos p) by done.
  rewrite (blocks_Some (<[k := info']> infos)) by done.
  rewrite !list_fmap_insert, Hthis. apply list_insert_id.
  by rewrite !list_lookup_fmap, Hk.
Qed.

(** *** The tail of new_object *)

Lemma construct_Done p infos v (k : N) info ptr p' :
  block_info_ p = Some <$> infos → infos !! N.to_nat k = Some info →
  construct tg v k p = Done (ptr, p') →
  ∃ block,
    MemoryPoolBlock.new_object tg v (block_ info) = Done (ptr, block) ∧
    (ptr = 0 → assertions tg = false) ∧
    p' = set_block_info p
           (Some <$> <[N.to_nat k := {| num_free_ := dec32 (num_free_ info);
                                        offset_ := offset_ info;
                                        block_ := block |}]> infos).
Proof.
  intros Hi Hk Hc. unfold construct, info_at in Hc.
  rewrite (read_lookup _ _ (Some info)) in Hc
    by by rewrite Hi, list_lookup_fmap, Hk.
  cbn [mbind outcome_bind] in Hc.
  apply bind_Done in Hc as ([ptr' block] & Hnew & Hc).
  apply bind_Done in Hc as (u & Hassert & Hc).
  apply bind_Done in Hc as (infos' & Hstore & Hc).
  injection Hc as -> <-. apply store_Done in Hstore as [_ ->].
  exists block. split_and!; [done | |].
  - intros ->. by apply assert_Done in Hassert as [?|?].
  - by rewrite Hi, list_fmap_insert.
Qed.

Lemma construct_inv p infos v (k : N) info ptr p' :
  target_ok tg → inv tg p →
  block_info_ p = Some <$> infos → infos !! N.to_nat k = Some info →
  ((0 < entries_per_block_ p)%N → num_free_ info ≠ 0%N) →
  construct tg v k p = Done (ptr, p') →
  inv tg p' ∧ num_blocks_ p' = num_blocks_ p ∧
  free_block_index_ p' = free_block_index_ p ∧
  entries_per_block_ p' = entries_per_block_ p ∧
  this <$> blocks p' = this <$> blocks p ∧
  ((ptr = 0 ∧ live_objects tg p' = live_objects tg p) ∨
   (ptr ≠ 0 ∧ live_objects tg p' ≡ₚ ptr :: live_objects tg p)).
Proof.
  intros Htg Hp Hi Hk Hfree Hc.
  destruct (construct_Done p infos v k info ptr p' Hi Hk Hc)
    as (block & Hnew & _ & ->).
  destruct (inv_records p Hp) as (infos0 & Hi0 & Hall & Hlen & _).
  assert (infos0 = infos) as ->.
  { rewrite Hi in Hi0. by apply (inj (fmap Some)) in Hi0. }
  pose proof (Forall_lookup_1 _ _ _ _ Hall Hk) as [Hb Hcap Hoff Hcount].
  pose proof (inv_entries _ _ Hp) as HB.
  destruct (BlockFacts.new_object_live tg _ _ _ _ Htg Hb Hnew)
    as (Hthis & Hcap' & Hcases).
  set (info' := Build_BlockInfo _ _ _ _).
  assert (Hinfo' : info_inv tg (entries_per_block_ p) info').
  { split; cbn.
    - by eapply BlockFacts.new_object_inv.
    - by rewrite Hcap'.
    - rewrite Hoff. unfold memory_begin, indices_begin.
      by rewrite Hthis, Hcap'.
    - intros Hpos. specialize (Hcount Hpos). specialize (Hfree Hpos).
      destruct Hcases as [(_ & _ & Hfull)|(_ & _ & Hperm)].
      + pose proof (BlockFacts.full_live tg _ Hb Hfull). lia.
      + rewrite (Permutation_length Hperm). cbn [length].
        rewrite dec32_pos by lia. lia. }
  destruct (live_objects_update p infos (N.to_nat k) info info' Hi Hk)
    as (L1 & L2 & HL & HL').
  split_and!; [by eapply inv_update | done | done | done
              | by eapply addresses_update |].
  destruct Hcases as [(-> & -> & _)|(Hne & _ & Hperm)].
  - left. split; [done|]. by rewrite HL', HL.
  - right. split; [done|]. rewrite HL', HL. cbn [block_ info'].
    rewrite Hperm. cbn [app]. symmetry. apply Permutation_middle.
Qed.

(** *** new_object *)

Lemma dyn_new_object_inv p v h ptr p' :
  target_ok tg → inv tg p → host_ok tg p h →
  new_object tg v h p = Done (ptr, p') →
  inv tg p' ∧ entries_per_block_ p' = entries_per_block_ p ∧
  (∃ added, this <$> blocks p' = (this <$> blocks p) ++ added) ∧
  ((ptr = 0 ∧ live_objects tg p' = live_objects tg p) ∨
   (ptr ≠ 0 ∧ live_objects tg p' ≡ₚ ptr :: live_objects tg p)).
Proof.
  intros Htg Hp [Hans Hfresh] Hnew.
  destruct (inv_records p Hp) as (infos & Hi & Hall & Hlen & Hblocks).
  pose proof (inv_hint _ _ Hp) as Hhint.
  pose proof (inv_num_blocks _ _ Hp) as Hnb.
  unfold new_object in Hnew.
  apply bind_Done in Hnew as (_ & _ & Hnew).
  apply bind_Done in Hnew as (k & Hsearch & Hnew).
  rewrite Hi, <- fmap_drop in Hsearch.
  destruct (search_spec (drop (N.to_nat (free_block_index_ p)) infos)
              (free_block_index_ p) (num_blocks_ p))
    as (k' & Hs & Hk & _ & Hat).
  { rewrite length_drop. lia. }
  assert (k' = k) as -> by congruence. clear Hs Hsearch.
  rewrite to_index_small in Hnew by lia.
  set (p1 := set_free_block_index p k) in *.
  assert (Hp1 : inv tg p1) by (apply inv_set_hint; [done | lia]).
  cbn [p1 free_block_index_ num_blocks_ set_free_block_index] in Hnew.
  destruct (N.eqb_spec k (num_blocks_ p)) as [->|Hne].
  - apply bind_Done in Hnew as ([r p2] & Hadd & Hnew).
    apply (add_block_Done h _ r p2 (inv_length _ _ Hp1) eq_refl) in Hadd
      as [(-> & -> & _)|(Ha & -> & Hnb' & ->)].
    { injection Hnew as <- <-. split_and!; [done | done | |].
      - exists []. by rewrite app_nil_r.
      - by left. }
    assert (Hapos : 0 < malloc_answer h) by (destruct Hans as [?|[? _]]; lia).
    destruct (inv_append p1 (malloc_answer h) Hp1 Hapos Hnb' (Hfresh Ha))
      as (Hp2 & Hblocks2 & Hlive2).
    cbn zeta in Hp2, Hblocks2, Hlive2.
    set (p2 := Build_Pool _ _ _ _ _) in *.
    set (ninfo := new_info (T:=T) tg (entries_per_block_ p) (malloc_answer h)).
    assert (Hi2 : block_info_ p2 = Some <$> (infos ++ [ninfo])).
    { cbn. by rewrite Hi, fmap_app. }
    assert (Hk2 : (infos ++ [ninfo]) !! N.to_nat (num_blocks_ p) = Some ninfo).
    { rewrite <- Hlen. apply list_lookup_middle. done. }
    destruct (construct_inv p2 _ v _ ninfo ptr p' Htg Hp2 Hi2 Hk2)
      as (Hp' & _ & _ & HB & Haddr & Hlive); [cbn; lia | done |].
    split_and!; [done | done | |].
    + exists [malloc_answer h]. rewrite Haddr, Hblocks2, fmap_app. done.
    + by rewrite Hlive2 in Hlive.
  - destruct Hat as (info & Hinfo & Hfree); [lia|].
    rewrite lookup_drop in Hinfo.
    replace (N.to_nat (free_block_index_ p)
             + N.to_nat (k - free_block_index_ p))%nat
      with (N.to_nat k) in Hinfo by lia.
    destruct (construct_inv p1 infos v k info ptr p' Htg Hp1 Hi Hinfo)
      as (Hp' & _ & _ & HB & Haddr & Hlive); [done | done |].
    split_and!; [done | done | | done].
    exists []. by rewrite app_nil_r.
Qed.

(** The three ways in which [new_object] completes: the search ends at the
    end of the array and [aligned_malloc] fails; it ends there and a block is
    added; it stops at a record with free entries. *)
Lemma new_object_Done p infos v h ptr p' :
  inv tg p → block_info_ p = Some <$> infos →
  new_object tg v h p = Done (ptr, p') →
  ∃ k, (free_block_index_ p <= k <= num_blocks_ p)%N ∧
    (∀ (j : nat) info, infos !! j = Some info →
       (free_block_index_ p <= N.of_nat j < k)%N → num_free_ info = 0%N) ∧
    ((k = num_blocks_ p ∧ malloc_answer h = 0 ∧ ptr = 0 ∧
      p' = set_free_block_index p k) ∨
     (k = num_blocks_ p ∧ malloc_answer h ≠ 0 ∧
      (num_blocks_ p + 1 < 2 ^ 32)%N ∧
      construct tg v k
        {| block_info_ :=
             Some <$> (infos ++ [new_info tg (entries_per_block_ p)
                                   (malloc_answer h)]);
           num_blocks_ := num_blocks_ p + 1;
           free_block_index_ := k;
           entries_per_block_ := entries_per_block_ p |} = Done (ptr, p')) ∨
     ((k < num_blocks_ p)%N ∧
      ∃ info, infos !! N.to_nat k = Some info ∧ num_free_ info ≠ 0%N ∧
              construct tg v k (set_free_block_index p k) = Done (ptr, p'))).
Proof.
  intros Hp Hi Hnew.
  destruct (inv_records p Hp) as (infos0 & Hi0 & _ & Hlen & _).
  assert (infos0 = infos) as ->.
  { rewrite Hi in Hi0. by apply (inj (fmap Some)) in Hi0. }
  pose proof (inv_hint _ _ Hp) as Hhint.
  pose proof (inv_num_blocks _ _ Hp) as Hnb.
  unfold new_object in Hnew.
  apply bind_Done in Hnew as (_ & _ & Hnew).
  apply bind_Done in Hnew as (k & Hsearch & Hnew).
  rewrite Hi, <- fmap_drop in Hsearch.
  destruct (search_spec (drop (N.to_nat (free_block_index_ p)) infos)
              (free_block_index_ p) (num_blocks_ p))
    as (k' & Hs & Hk & Hbefore & Hat).
  { rewrite length_drop. lia. }
  assert (k' = k) as -> by congruence. clear Hs Hsearch.
  rewrite to_index_small in Hnew by lia.
  exists k. split; [done|]. split.
  { intros j info Hj Hjk.
    apply (Hbefore (j - N.to_nat (free_block_index_ p))%nat); [|lia].
    rewrite lookup_drop. rewrite <- Hj. f_equal. lia. }
  cbn [free_block_index_ num_blocks_ set_free_block_index] in Hnew.
  destruct (N.eqb_spec k (num_blocks_ p)) as [Heq|Hne].
  - apply bind_Done in Hnew as ([r p2] & Hadd & Hnew).
    apply (add_block_Done h (set_free_block_index p k) r p2
             (inv_length _ _ Hp) Heq) in Hadd
      as [(-> & -> & Ha)|(Ha & -> & Hnb' & ->)].
    + injection Hnew as <- <-. by left.
    + right. left. split_and!; [done..|].
      rewrite <- Hnew. cbn. by rewrite Hi, fmap_app, Heq.
  - right. right. split; [lia|].
    destruct Hat as (info & Hinfo & Hfree); [lia|].
    rewrite lookup_drop in Hinfo.
    replace (N.to_nat (free_block_index_ p)
             + N.to_nat (k - free_block_index_ p))%nat
      with (N.to_nat k) in Hinfo by lia.
    by exists info.
Qed.

(** *** When new_object completes *)

Lemma add_block_ok h p :
  length (block_info_ p) = N.to_nat (num_blocks_ p) →
  free_block_index_ p = num_blocks_ p →
  (num_blocks_ p + 1 < 2 ^ 32)%N →
  malloc_answer h ≠ 0 → realloc_ok h = true →
  assertions tg = false
  ∨ indices_size tg (entries_per_block_ p)
    = sizeof_index * Z.of_N (entries_per_block_ p) →
  add_block tg h p
  = Done (Some (num_blocks_ p),
          {| block_info_ :=
               block_info_ p ++
               [Some (new_info tg (entries_per_block_ p) (malloc_answer h))];
             num_blocks_ := num_blocks_ p + 1;
             free_block_index_ := free_block_index_ p;
             entries_per_block_ := entries_per_block_ p |}).
Proof.
  intros Hlen Hfbi Hnb Ha Hre Hlayout. unfold add_block.
  rewrite assert_true by (by apply N.eqb_eq). cbn [mbind outcome_bind].
  rewrite create_ok by done. cbn [mbind outcome_bind]. rewrite Hre.
  rewrite wrap32_small by done.
  rewrite resize_spec, take_ge by lia.
  replace (N.to_nat (num_blocks_ p + 1) - length (block_info_ p))%nat
    with 1%nat by lia.
  cbn [replicate]. rewrite store_lt by (rewrite length_app; cbn; lia).
  cbn [mbind outcome_bind]. rewrite Hfbi at 1 2.
  rewrite <- Hlen at 1. rewrite insert_app_r_alt, Nat.sub_diag by lia. done.
Qed.

Lemma construct_ok p v (k : N) info :
  target_ok tg →
  block_info_ p !! N.to_nat k = Some (Some info) →
  MemoryPoolBlock.inv (block_ info) →
  MemoryPoolBlock.free_head_index_ (block_ info)
  ≠ MemoryPoolBlock.entries_per_block_ (block_ info) →
  ∃ ptr p', construct tg v k p = Done (ptr, p') ∧ ptr ≠ 0 ∧
            num_blocks_ p' = num_blocks_ p ∧
            free_block_index_ p' = free_block_index_ p.
Proof.
  intros Htg Hk Hb Hfree. unfold construct, info_at.
  rewrite (read_lookup _ _ _ Hk). cbn [mbind outcome_bind].
  destruct (BlockFacts.new_object_free tg _ v Hb Hfree)
    as (next & _ & _ & _ & ->).
  cbn [mbind outcome_bind].
  pose proof (BlockFacts.slot_address_pos tg (block_ info)
                (MemoryPoolBlock.free_head_index_ (block_ info)) Htg Hb).
  rewrite assert_true by (apply negb_true_iff, Z.eqb_neq; lia).
  cbn [mbind outcome_bind].
  rewrite store_lt by by eapply lookup_lt_Some.
  eexists _, _. split; [done|]. split; [lia | done].
Qed.

Lemma dyn_new_object_progress p v h :
  target_ok tg → inv tg p → (0 < entries_per_block_ p)%N →
  (free_block_index_ p < num_blocks_ p)%N →
  (num_blocks_ p + 1 < 2 ^ 32)%N →
  0 < malloc_answer h → realloc_ok h = true →
  assertions tg = false
  ∨ indices_size tg (entries_per_block_ p)
    = sizeof_index * Z.of_N (entries_per_block_ p) →
  ∃ ptr p', new_object tg v h p = Done (ptr, p') ∧ ptr ≠ 0 ∧
            (free_block_index_ p' < num_blocks_ p')%N.
Proof.
  intros Htg Hp Hpos Hhint Hnb Ha Hre Hlayout.
  destruct (inv_records p Hp) as (infos & Hi & Hall & Hlen & _).
  pose proof (inv_entries _ _ Hp) as HB.
  unfold new_object.
  rewrite assert_true by (by apply N.ltb_lt). cbn [mbind outcome_bind].
  rewrite Hi, <- fmap_drop.
  destruct (search_spec (drop (N.to_nat (free_block_index_ p)) infos)
              (free_block_index_ p) (num_blocks_ p))
    as (k & -> & Hk & _ & Hat).
  { rewrite length_drop. lia. }
  cbn [mbind outcome_bind]. rewrite to_index_small by lia.
  cbn [free_block_index_ num_blocks_ set_free_block_index].
  destruct (N.eqb_spec k (num_blocks_ p)) as [Heq|Hne].
  - rewrite (add_block_ok h (set_free_block_index p k));
      [|apply (inv_length _ _ Hp) | done | done | lia | done | done].
    cbn [mbind outcome_bind].
    cbn [block_info_ num_blocks_ free_block_index_ entries_per_block_
         set_free_block_index].
    rewrite Hi.
    set (ninfo := new_info (T:=T) tg (entries_per_block_ p) (malloc_answer h)).
    edestruct (construct_ok
      {| block_info_ := (Some <$> infos) ++ [Some ninfo];
         num_blocks_ := num_blocks_ p + 1;
         free_block_index_ := k;
         entries_per_block_ := entries_per_block_ p |} v (num_blocks_ p) ninfo
      Htg) as (ptr & p' & Hc & Hptr & Hnb' & Hfbi').
    + cbn [block_info_]. rewrite <- Hlen, <- (length_fmap Some infos).
      by apply list_lookup_middle.
    + by apply BlockFacts.inv_ctor.
    + cbn. lia.
    + exists ptr, p'. split; [exact Hc|]. split; [done|].
      rewrite Hnb', Hfbi'. cbn. lia.
  - destruct Hat as (info & Hinfo & Hfree); [lia|].
    rewrite lookup_drop in Hinfo.
    replace (N.to_nat (free_block_index_ p)
             + N.to_nat (k - free_block_index_ p))%nat
      with (N.to_nat k) in Hinfo by lia.
    pose proof (Forall_lookup_1 _ _ _ _ Hall Hinfo) as [Hb Hcap _ Hcount].
    edestruct (construct_ok (set_free_block_index p k) v k info Htg)
      as (ptr & p' & Hc & Hptr & Hnb' & Hfbi').
    + cbn. by rewrite Hi, list_lookup_fmap, Hinfo.
    + done.
    + intros Hfull. pose proof (BlockFacts.full_live tg _ Hb Hfull).
      specialize (Hcount Hpos). lia.
    + exists ptr, p'. split; [exact Hc|]. split; [done|].
      rewrite Hnb', Hfbi'. cbn. lia.
Qed.

(** *** Growth while nothing is released *)

Lemma new_object_packed p v h ptr p' :
  target_ok tg → inv tg p → packed p → (0 < entries_per_block_ p)%N →
  new_object tg v h p = Done (ptr, p') → packed p'.
Proof.
  intros Htg Hp Hpacked Hpos Hnew.
  destruct (inv_records p Hp) as (infos & Hi & Hall & Hlen & _).
  pose proof (inv_entries _ _ Hp) as HB.
  pose proof (inv_num_blocks _ _ Hp) as Hnb.
  assert (Hpk : ∀ (j : nat) info, infos !! j = Some info →
    (num_free_ info ≠ 0%N → S j = length infos
                            ∧ (free_block_index_ p <= N.of_nat j)%N) ∧
    ((0 < j)%nat → (num_free_ info < entries_per_block_ p)%N)).
  { intros j info Hj. specialize (Hpacked j info).
    rewrite Hi, list_lookup_fmap, Hj, length_fmap in Hpacked. by apply Hpacked. }
  destruct (new_object_Done p infos v h ptr p' Hp Hi Hnew)
    as (k & Hk & Hbefore & Hcases).
  assert (Hfull : k = num_blocks_ p →
    ∀ (j : nat) info, infos !! j = Some info → num_free_ info = 0%N).
  { intros -> j info Hj.
    destruct (decide (num_free_ info = 0%N)) as [|Hne]; [done|].
    destruct (Hpk j info Hj) as [Hlast _]. destruct (Hlast Hne) as [_ Hle].
    apply (Hbefore j info Hj). apply lookup_lt_Some in Hj. lia. }
  destruct Hcases as [(Hkn & _ & _ & ->)
                     |[(Hkn & _ & _ & Hc)|(Hkn & info & Hinfo & Hne & Hc)]].
  - intros j info Hj. cbn in Hj |- *. rewrite Hi, list_lookup_fmap in Hj.
    destruct (infos !! j) as [ij|] eqn:Hij; [|done]. injection Hj as ->.
    split; [|by apply (Hpk j info)].
    intros Hne. by rewrite (Hfull Hkn j info Hij) in Hne.
  - set (ninfo := new_info (T:=T) tg (entries_per_block_ p) (malloc_answer h))
      in *.
    assert (Hlast : (infos ++ [ninfo]) !! N.to_nat k = Some ninfo).
    { rewrite Hkn, <- Hlen. by apply list_lookup_middle. }
    eapply construct_Done in Hc as (block & _ & _ & ->); [|done|exact Hlast].
    cbn [num_free_ ninfo new_info] in *.
    rewrite Hkn, <- Hlen, insert_app_r_alt, Nat.sub_diag by lia.
    cbn [insert list_insert].
    intros j info Hj.
    cbn [block_info_ set_block_info free_block_index_ entries_per_block_]
      in Hj |- *.
    rewrite list_lookup_fmap, length_fmap, length_app in *. cbn [length].
    destruct (infos !! j) as [ij|] eqn:Hij.
    + rewrite (lookup_app_l_Some _ _ _ _ Hij) in Hj. injection Hj as ->.
      rewrite (Hfull Hkn j info Hij). split; [done | lia].
    + apply lookup_ge_None in Hij.
      destruct (decide (j = length infos)) as [->|Hne].
      * rewrite list_lookup_middle in Hj by done. injection Hj as <-.
        cbn [num_free_]. rewrite dec32_pos by lia. split; [|lia].
        intros _. split; lia.
      * rewrite lookup_ge_None_2 in Hj; [done|].
        rewrite length_app. cbn. lia.
  - eapply construct_Done in Hc as (block & _ & _ & ->); [|done..].
    destruct (Hpk _ info Hinfo) as [Hlast Hsecond].
    destruct (Hlast Hne) as [Hklast _].
    pose proof (Forall_lookup_1 _ _ _ _ Hall Hinfo) as [Hb _ _ Hcount].
    specialize (Hcount Hpos).
    intros j ij Hj.
    cbn [block_info_ set_block_info set_free_block_index free_block_index_
         entries_per_block_] in Hj |- *.
    rewrite list_lookup_fmap, length_fmap, length_insert in *.
    destruct (<[N.to_nat k := _]> infos !! j) as [ij'|] eqn:Hij; [|done].
    injection Hj as ->.
    apply list_lookup_insert_Some in Hij as [(<- & <- & _)|[Hjk Hij]].
    + cbn [num_free_]. rewrite dec32_pos by lia. split; [|lia].
      intros _. split; [done | lia].
    + destruct (Hpk j ij Hij) as [Hl Hs]. split; [|done].
      intros Hnej. destruct (Hl Hnej). lia.
Qed.

(** The number of live objects of a packed pool. *)
Lemma full_blocks_count cap infos :
  Forall (info_inv tg cap) infos → (0 < cap)%N →
  (∀ info, info ∈ infos → num_free_ info = 0%N) →
  N.of_nat (length ((block_ <$> infos) ≫= MemoryPoolBlock.live_objects tg))
  = (N.of_nat (length infos) * cap)%N.
Proof.
  intros Hall Hpos. induction Hall as [|info infos Hinfo _ IH]; intros Hfull.
  { cbn. lia. }
  rewrite fmap_cons, bind_cons, length_app. cbn [length].
  assert (Hz : num_free_ info = 0%N) by (apply Hfull; by left).
  pose proof (info_free _ _ _ Hinfo Hpos) as Hc. rewrite Hz in Hc.
  specialize (IH ltac:(intros i Hi; apply Hfull; by right)). lia.
Qed.

Lemma packed_count p :
  inv tg p → packed p → (0 < entries_per_block_ p)%N →
  let n := N.of_nat (length (live_objects tg p)) in
  (n = entries_per_block_ p + 1 → num_blocks_ p = 2)%N ∧
  (0 < n <= entries_per_block_ p → num_blocks_ p = 1)%N.
Proof.
  intros Hp Hpacked Hpos.
  destruct (inv_records p Hp) as (infos & Hi & Hall & Hlen & Hblocks).
  unfold live_objects. rewrite Hblocks.
  destruct infos as [|last front _] using rev_ind.
  { cbn in *. lia. }
  rewrite length_app in Hlen. cbn [length] in Hlen.
  apply Forall_app in Hall as [Hfront Hlast].
  apply Forall_inv in Hlast.
  assert (Hfull : ∀ info, info ∈ front → num_free_ info = 0%N).
  { intros info [j Hj]%list_elem_of_lookup.
    destruct (decide (num_free_ info = 0%N)) as [|Hne]; [done|].
    destruct (Hpacked j info) as [Hl _].
    { by rewrite Hi, list_lookup_fmap, (lookup_app_l_Some _ _ _ _ Hj). }
    destruct (Hl Hne) as [Hend _]. apply lookup_lt_Some in Hj.
    rewrite Hi, length_fmap, length_app in Hend. cbn in Hend. lia. }
  assert (Hsecond : (0 < length front)%nat →
                    (num_free_ last < entries_per_block_ p)%N).
  { intros Hk. destruct (Hpacked (length front) last) as [_ Hs]; [|by apply Hs].
    by rewrite Hi, list_lookup_fmap, list_lookup_middle. }
  rewrite fmap_app, bind_app, length_app.
  change (block_ <$> [last]) with [block_ last]. rewrite bind_singleton.
  pose proof (full_blocks_count _ front Hfront Hpos Hfull) as Hcount.
  pose proof (info_free _ _ _ Hlast Hpos) as Hclast.
  cbn zeta. split; intros Hn.
  - destruct (decide (length front = 0%nat)) as [Hz|Hnz]; [rewrite Hz in *; lia|].
    specialize (Hsecond ltac:(lia)).
    destruct (decide (length front = 1%nat)) as [H1|Hn1]; [lia|]. nia.
  - destruct (decide (length front = 0%nat)) as [Hz|Hnz]; [lia|].
    specialize (Hsecond ltac:(lia)). nia.
Qed.

(** *** delete_object *)

Lemma find_block_found ptr cap infos (k0 : N) (k : nat) info :
  infos !! k = Some info → in_range tg cap info ptr →
  (∀ j ij, (j < k)%nat → infos !! j = Some ij → ¬ in_range tg cap ij ptr) →
  find_block tg ptr cap (Some <$> infos) k0 (length infos)
  = Done (Some ((k0 + N.of_nat k)%N, info)).
Proof.
  revert k0 k. induction infos as [|i0 infos IH]; intros k0 k Hk Hin Hbefore;
    [done|].
  cbn [fmap list_fmap length find_block]. destruct k as [|k]; cbn in Hk.
  - injection Hk as ->. destruct Hin as [Hlo Hhi].
    apply Z.leb_le in Hlo. apply Z.ltb_lt in Hhi. rewrite Hlo, Hhi.
    by rewrite N.add_0_r.
  - destruct (andb _ _) eqn:Hrange.
    { exfalso. apply (Hbefore 0%nat i0); [lia | done |].
      apply andb_true_iff in Hrange as [Hlo Hhi].
      apply Z.leb_le in Hlo. apply Z.ltb_lt in Hhi. by split. }
    rewrite (IH (k0 + 1)%N k); [do 3 f_equal; lia | done | done |].
    intros j ij Hj. apply (Hbefore (S j)). lia.
Qed.

Lemma find_block_none ptr cap infos (k0 : N) :
  (∀ info, info ∈ infos → ¬ in_range tg cap info ptr) →
  find_block tg ptr cap (Some <$> infos) k0 (length infos) = Done None.
Proof.
  revert k0. induction infos as [|i0 infos IH]; intros k0 Hout; [done|].
  cbn [fmap list_fmap length find_block].
  destruct (andb _ _) eqn:Hrange.
  { exfalso. apply (Hout i0); [by left|].
    apply andb_true_iff in Hrange as [Hlo Hhi].
    apply Z.leb_le in Hlo. apply Z.ltb_lt in Hhi. by split. }
  apply IH. intros info Hinfo. apply Hout. by right.
Qed.

Lemma owned_in_range cap info ptr :
  target_ok tg → info_inv tg cap info →
  MemoryPoolBlock.owned tg (block_ info) ptr → in_range tg cap info ptr.
Proof.
  intros [Hs _ _] [_ Hcap Hoff _] (i & Hi & _ & ->).
  unfold in_range, slot_address. rewrite Hoff, <- Hcap. nia.
Qed.

Lemma in_range_region cap info ptr :
  target_ok tg → info_inv tg cap info → in_range tg cap info ptr →
  this (block_ info) <= ptr < this (block_ info) + block_size tg cap.
Proof.
  intros [Hs Ha Hh] [_ Hcap Hoff _] [Hlo Hhi]. rewrite Hoff in Hlo, Hhi.
  unfold memory_begin, indices_begin in Hlo, Hhi. rewrite Hcap in Hlo, Hhi.
  unfold block_size, indices_size, entries_size.
  pose proof (align_to_ge (sizeof_index * Z.of_N cap) (alignof_T tg) Ha).
  unfold sizeof_index in *. nia.
Qed.

Lemma dyn_delete_object_inv p ptr :
  target_ok tg → inv tg p → ptr ∈ live_objects tg p →
  ∃ p', delete_object tg ptr p = Done p' ∧ inv tg p' ∧
        entries_per_block_ p' = entries_per_block_ p ∧
        this <$> blocks p' = this <$> blocks p ∧
        live_objects tg p ≡ₚ ptr :: live_objects tg p'.
Proof.
  intros Htg Hp Hptr.
  destruct (inv_records p Hp) as (infos & Hi & Hall & Hlen & Hblocks).
  pose proof (inv_entries _ _ Hp) as HB.
  pose proof (inv_num_blocks _ _ Hp) as Hnb.
  unfold live_objects in Hptr. rewrite Hblocks in Hptr.
  apply list_elem_of_bind in Hptr as (b & Hptr & Hb).
  apply list_elem_of_fmap in Hb as (info & -> & Hinfo).
  apply list_elem_of_lookup in Hinfo as [k Hk].
  pose proof (Forall_lookup_1 _ _ _ _ Hall Hk) as Hinfo.
  pose proof Hinfo as [Hb Hcap Hoff Hcount].
  apply (BlockFacts.elem_of_live_objects tg _ _ Hb) in Hptr.
  pose proof (lookup_lt_Some _ _ _ Hk) as Hklt.
  assert (Hfind :
    find_block tg ptr (entries_per_block_ p) (block_info_ p) 0
      (N.to_nat (num_blocks_ p)) = Done (Some (N.of_nat k, info))).
  { rewrite Hi, <- Hlen.
    rewrite (find_block_found ptr _ infos 0 k info);
      [done | done | by apply owned_in_range |].
    intros j ij Hjk Hj Hin.
    pose proof (Forall_lookup_1 _ _ _ _ Hall Hj) as Hij.
    apply (in_range_region _ _ _ Htg Hij) in Hin.
    pose proof (in_range_region _ _ _ Htg Hinfo
                  (owned_in_range _ _ _ Htg Hinfo Hptr)).
    pose proof (inv_apart_records p infos j k ij info Hp Hi ltac:(lia) Hj Hk)
      as Hapart.
    unfold apart in Hapart. lia. }
  destruct (BlockFacts.delete_object_live tg _ _ Htg Hb Hptr)
    as (block & Hdel & Hblock & Hthis & Hcap' & Hperm).
  set (info' := {| num_free_ := wrap32 (num_free_ info + 1);
                   offset_ := offset_ info; block_ := block |}).
  assert (Hinfo' : info_inv tg (entries_per_block_ p) info').
  { split; cbn.
    - done.
    - by rewrite Hcap'.
    - rewrite Hoff. unfold memory_begin, indices_begin.
      by rewrite Hthis, Hcap'.
    - intros Hpos. specialize (Hcount Hpos).
      pose proof (Permutation_length Hperm) as Hlenp. cbn [length] in Hlenp.
      rewrite wrap32_small by lia. lia. }
  set (p1 := set_block_info p (Some <$> <[k := info']> infos)).
  assert (Hp1 : inv tg p1) by by eapply inv_update.
  set (p' := if (N.of_nat k <? free_block_index_ p1)%N
             then set_free_block_index p1 (N.of_nat k) else p1).
  assert (Hdone : delete_object tg ptr p = Done p').
  { unfold delete_object. rewrite Hfind. cbn [mbind outcome_bind].
    rewrite Hdel. cbn [mbind outcome_bind].
    rewrite store_lt by (rewrite Hi, length_fmap, Nat2N.id; lia).
    cbn [mbind outcome_bind]. rewrite to_index_small by lia.
    by rewrite Nat2N.id, Hi, <- list_fmap_insert. }
  destruct (live_objects_update p infos k info info' Hi Hk)
    as (L1 & L2 & HL & HL').
  assert (Hcommon :
    entries_per_block_ p1 = entries_per_block_ p ∧
    this <$> blocks p1 = this <$> blocks p ∧
    live_objects tg p ≡ₚ ptr :: live_objects tg p1).
  { split_and!; [done | by eapply addresses_update |].
    unfold p1. rewrite HL, HL'. cbn [block_ info']. rewrite Hperm.
    cbn [app]. symmetry. apply Permutation_middle. }
  exists p'. split; [done|]. unfold p'.
  destruct (N.of_nat k <? free_block_index_ p1)%N; [|done].
  split; [|done]. apply inv_set_hint; [done|]. cbn. lia.
Qed.

(** *** for_each and get_stats *)

Lemma visits_app {St : Type} (func : Z → St → St) (l1 l2 : list Z) s :
  visits func (l1 ++ l2) s = visits func l2 (visits func l1 s).
Proof. apply foldl_app. Qed.

(** A block that [for_each] and [get_stats] skip has no live object. *)
Lemma skipped_block_empty cap info :
  info_inv tg cap info → (cap <= num_free_ info)%N →
  MemoryPoolBlock.live_objects tg (block_ info) = [].
Proof.
  intros [Hb Hcap _ Hcount] Hskip.
  pose proof (BlockFacts.live_objects_length tg _ Hb) as Hle.
  rewrite Hcap in Hle. apply length_zero_iff_nil.
  destruct (decide (0 < cap)%N) as [Hpos|]; [specialize (Hcount Hpos)|]; lia.
Qed.

Lemma dyn_for_each_loop_spec {St : Type} (func : Z → St → St) cap infos s :
  Forall (info_inv tg cap) infos →
  for_each_loop tg func cap (Some <$> infos) (length infos) s
  = Done (visits func
            ((block_ <$> infos) ≫= MemoryPoolBlock.live_objects tg) s).
Proof.
  intros Hall. revert s. induction Hall as [|info infos Hinfo _ IH]; intros s;
    [done|].
  cbn [fmap list_fmap length for_each_loop]. rewrite bind_cons, visits_app.
  destruct (N.ltb_spec (num_free_ info) cap) as [_|Hskip].
  - rewrite BlockFacts.for_each_spec by apply (info_block _ _ _ Hinfo).
    cbn [mbind outcome_bind]. apply IH.
  - rewrite (skipped_block_empty cap info) by done.
    cbn [mbind outcome_bind]. apply IH.
Qed.

Lemma dyn_for_each_spec {St : Type} (func : Z → St → St) p s :
  inv tg p → for_each tg func p s = Done (visits func (live_objects tg p) s).
Proof.
  intros Hp. destruct (inv_records p Hp) as (infos & Hi & Hall & Hlen & Hblocks).
  unfold for_each, live_objects. rewrite Hi, <- Hlen, Hblocks.
  by apply dyn_for_each_loop_spec.
Qed.

Lemma get_stats_loop_spec cap infos (bc ac : N) :
  Forall (info_inv tg cap) infos → (cap < 2 ^ 32)%N →
  (bc + N.of_nat (length infos) < 2 ^ 64)%N →
  (ac + N.of_nat (length infos) * 2 ^ 32 < 2 ^ 64)%N →
  get_stats_loop tg cap (Some <$> infos) (length infos)
    {| block_count := bc; allocation_count := ac |}
  = Done {| block_count := bc + N.of_nat (length infos);
            allocation_count :=
              ac + N.of_nat (length ((block_ <$> infos)
                                     ≫= MemoryPoolBlock.live_objects tg)) |}.
Proof.
  intros Hall Hcap. revert bc ac.
  change (2 ^ 32)%N with 4294967296%N in *.
  change (2 ^ 64)%N with 18446744073709551616%N.
  induction Hall as [|info infos Hinfo _ IH]; intros bc ac Hbc Hac.
  { cbn. by rewrite !N.add_0_r. }
  cbn [fmap list_fmap length get_stats_loop block_count allocation_count]
    in *.
  pose proof (BlockFacts.live_objects_length tg _ (info_block _ _ _ Hinfo))
    as Hle.
  rewrite (info_entries _ _ _ Hinfo) in Hle.
  rewrite bind_cons, length_app.
  destruct (N.ltb_spec (num_free_ info) cap) as [_|Hskip].
  - rewrite BlockFacts.count_allocations_spec
      by apply (info_block _ _ _ Hinfo).
    cbn [mbind outcome_bind].
    rewrite !wrap64_small
      by (change (2 ^ 64)%N with 18446744073709551616%N; lia).
    rewrite IH by lia. do 2 f_equal; lia.
  - rewrite (skipped_block_empty cap info) by done.
    cbn [mbind outcome_bind length].
    rewrite !wrap64_small
      by (change (2 ^ 64)%N with 18446744073709551616%N; lia).
    rewrite IH by lia. do 2 f_equal; lia.
Qed.

Lemma dyn_get_stats_spec p :
  inv tg p →
  get_stats tg p
  = Done {| block_count := num_blocks_ p;
            allocation_count := N.of_nat (length (live_objects tg p)) |}.
Proof.
  intros Hp. destruct (inv_records p Hp) as (infos & Hi & Hall & Hlen & Hblocks).
  pose proof (inv_num_blocks _ _ Hp) as Hnb.
  unfold get_stats, live_objects. rewrite Hi, <- Hlen, Hblocks.
  change (2 ^ 32)%N with 4294967296%N in *.
  rewrite get_stats_loop_spec;
    [| done | apply (inv_entries _ _ Hp)
     | change (2 ^ 64)%N with 18446744073709551616%N; lia
     | change (2 ^ 32)%N with 4294967296%N;
       change (2 ^ 64)%N with 18446744073709551616%N; lia].
  do 2 f_equal; lia.
Qed.

(** *** The constructor *)

Lemma ctor_inv cap h p :
  (cap < 2 ^ 32)%N → aligned_malloc_answer MIN_BLOCK_ALIGN (malloc_answer h) →
  ctor tg cap h = Done p →
  inv tg p ∧ entries_per_block_ p = cap ∧ live_objects tg p = [] ∧
  free_block_index_ p = 0%N ∧
  ((malloc_answer h = 0 ∧ block_info_ p = []) ∨
   (malloc_answer h ≠ 0 ∧ num_blocks_ p = 1%N ∧
    block_info_ p = [Some (new_info tg cap (malloc_answer h))])).
Proof.
  intros Hcap Hans Hctor. unfold ctor in Hctor.
  apply bind_Done in Hctor as ([r p1] & Hadd & Hctor). injection Hctor as ->.
  set (p0 := Build_Pool _ _ _ _ _) in *.
  assert (Hp0 : inv tg p0).
  { apply (inv_intro p0 []); cbn; try done; try lia. }
  apply (add_block_Done h p0 r p eq_refl eq_refl) in Hadd
    as [(-> & -> & Ha)|(Ha & -> & Hnb & ->)].
  { split_and!; [done..|]. by left. }
  assert (Hapos : 0 < malloc_answer h) by (destruct Hans as [?|[? _]]; lia).
  destruct (inv_append p0 (malloc_answer h) Hp0 Hapos Hnb) as (Hp & _ & Hlive).
  { intros b Hb. by apply elem_of_nil in Hb. }
  split_and!; [done..|]. by right.
Qed.

End Facts.
End DynamicFacts.

(** ** Pools under the ownership contract *)

Module PoolFacts.
Import Pool.

Section Facts.
Context {T : Type} (tg : target).
Implicit Types (q : pool T).

Lemma delete_null_dynamic (p : DynamicMemoryPool.Pool T) :
  target_ok tg → DynamicMemoryPool.inv tg p →
  DynamicMemoryPool.delete_object tg 0 p = Done p.
Proof.
  intros [_ _ Hh] Hp.
  destruct (DynamicFacts.inv_records tg p Hp) as (infos & Hi & Hall & Hlen & _).
  unfold DynamicMemoryPool.delete_object.
  rewrite Hi, <- Hlen, DynamicFacts.find_block_none; [done|].
  intros info Hinfo [Hlo _].
  pose proof (proj1 (Forall_forall _ _) Hall info Hinfo) as [Hb _ Hoff _].
  pose proof (MemoryPoolBlock.inv_this _ Hb).
  rewrite Hoff in Hlo.
  unfold MemoryPoolBlock.memory_begin, MemoryPoolBlock.indices_begin,
    sizeof_index in Hlo. lia.
Qed.

Lemma pool_new_object_inv q v h ptr q' :
  target_ok tg → inv tg q → host_ok tg q h →
  new_object tg v h q = Done (ptr, q') →
  inv tg q' ∧
  (∃ added, MemoryPoolBlock.this <$> blocks q'
            = (MemoryPoolBlock.this <$> blocks q) ++ added) ∧
  ((ptr = 0 ∧ live_objects tg q' = live_objects tg q) ∨
   (ptr ≠ 0 ∧ live_objects tg q' ≡ₚ ptr :: live_objects tg q)).
Proof.
  intros Htg Hq Hh Hnew. destruct q as [p|p]; cbn in Hnew.
  - apply bind_Done in Hnew as ([ptr' p'] & Hnew & Heq).
    injection Heq as -> <-. destruct Hq as (b & Hb & Hinv).
    unfold FixedMemoryPool.new_object in Hnew. rewrite Hb in Hnew.
    apply bind_Done in Hnew as ([ptr' b'] & Hnew & Heq).
    injection Heq as -> <-.
    destruct (BlockFacts.new_object_live tg b v ptr b' Htg Hinv Hnew)
      as (Hthis & _ & Hcases).
    split_and!.
    + exists b'. split; [done|]. by eapply BlockFacts.new_object_inv.
    + exists []. cbn. by rewrite Hb, Hthis.
    + unfold live_objects. cbn. rewrite Hb. cbn. rewrite !app_nil_r.
      destruct Hcases as [(-> & -> & _)|(? & _ & ?)]; [by left | by right].
  - apply bind_Done in Hnew as ([ptr' p'] & Hnew & Heq).
    injection Heq as -> <-.
    destruct (DynamicFacts.dyn_new_object_inv tg p v h ptr p' Htg Hq Hh Hnew)
      as (Hp' & _ & Haddr & Hlive).
    done.
Qed.

Lemma pool_delete_object_inv q ptr :
  target_ok tg → inv tg q → ptr ∈ live_objects tg q →
  ∃ q', delete_object tg ptr q = Done q' ∧ inv tg q' ∧
        MemoryPoolBlock.this <$> blocks q' = MemoryPoolBlock.this <$> blocks q ∧
        live_objects tg q ≡ₚ ptr :: live_objects tg q'.
Proof.
  intros Htg Hq Hptr. destruct q as [p|p].
  - destruct Hq as (b & Hb & Hinv).
    unfold live_objects in Hptr. cbn in Hptr. rewrite Hb in Hptr.
    cbn in Hptr. rewrite app_nil_r in Hptr.
    apply (BlockFacts.elem_of_live_objects tg _ _ Hinv) in Hptr.
    destruct (BlockFacts.delete_object_live tg b ptr Htg Hinv Hptr)
      as (b' & Hdel & Hb' & Hthis & _ & Hperm).
    exists (Fixed {| FixedMemoryPool.block_ := Some b' |}).
    cbn. unfold FixedMemoryPool.delete_object. rewrite Hb, Hdel. cbn.
    split_and!; [done | by exists b' | by rewrite Hthis |].
    unfold live_objects. cbn. by rewrite !app_nil_r.
  - destruct (DynamicFacts.dyn_delete_object_inv tg p ptr Htg Hq Hptr)
      as (p' & Hdel & Hp' & _ & Haddr & Hperm).
    exists (Dynamic p'). cbn. rewrite Hdel. done.
Qed.

Lemma delete_null q : target_ok tg → inv tg q → delete_object tg 0 q = Done q.
Proof.
  intros Htg Hq. destruct q as [p|p]; cbn.
  - destruct Hq as (b & Hb & _). unfold FixedMemoryPool.delete_object.
    rewrite Hb. cbn. destruct p. cbn in Hb. by rewrite Hb.
  - by rewrite delete_null_dynamic.
Qed.

(** The owned pointers of a history are the live objects of the state. *)
Lemma history_inv q owned allocs releases :
  target_ok tg → history tg q owned allocs releases →
  inv tg q ∧ owned ≡ₚ live_objects tg q ∧
  allocs = (releases + length owned)%nat.
Proof.
  intros Htg. induction 1 as
    [cap a p Hcap Ha Hctor
    |cap h p Hcap Hans Hctor
    |q owned allocs releases v h ptr q' _ IH Hh Hnew Hptr
    |q owned allocs releases v h q' _ IH Hh Hnew
    |q owned1 ptr owned2 allocs releases q' _ IH Hdel
    |q owned allocs releases q' _ IH Hdel].
  - unfold FixedMemoryPool.ctor in Hctor.
    apply bind_Done in Hctor as (ob & Hcreate & Heq). injection Heq as <-.
    apply DynamicFacts.create_Done in Hcreate as [(? & _)|(_ & ->)]; [lia|].
    split_and!; [| |done].
    + eexists. split; [done|]. by apply BlockFacts.inv_ctor.
    + unfold live_objects. cbn [blocks FixedMemoryPool.block_].
      change (option_list (Some ?b)) with [b].
      by rewrite bind_singleton, DynamicFacts.live_objects_ctor.
  - destruct (DynamicFacts.ctor_inv tg cap h p Hcap Hans Hctor)
      as (Hp & _ & Hlive & _).
    split_and!; [done | | done]. unfold live_objects. cbn.
    by rewrite <- Hlive.
  - destruct IH as (Hq & Hperm & ->).
    destruct (pool_new_object_inv q v h ptr q' Htg Hq Hh Hnew)
      as (Hq' & _ & [(? & _)|(_ & Hlive)]); [done|].
    split_and!; [done | by rewrite Hlive, Hperm | cbn; lia].
  - destruct IH as (Hq & Hperm & ->).
    destruct (pool_new_object_inv q v h 0 q' Htg Hq Hh Hnew)
      as (Hq' & _ & [(_ & Hlive)|(? & _)]); [|done].
    split_and!; [done | by rewrite Hlive | done].
  - destruct IH as (Hq & Hperm & ->).
    assert (Hin : ptr ∈ live_objects tg q).
    { rewrite <- Hperm. apply elem_of_app. right. by left. }
    destruct (pool_delete_object_inv q ptr Htg Hq Hin)
      as (q'' & Hdel' & Hq' & _ & Hlive).
    assert (q'' = q') as -> by congruence.
    split_and!; [done | | rewrite !length_app; cbn; lia].
    apply (Permutation_cons_inv (a:=ptr)).
    by rewrite <- Hlive, <- Hperm, Permutation_middle.
  - destruct IH as (Hq & Hperm & ->).
    rewrite delete_null in Hdel by done. injection Hdel as <-. done.
Qed.

(** *** for_each and get_stats *)

Lemma live_objects_fixed (p : FixedMemoryPool.Pool T) b :
  FixedMemoryPool.block_ p = Some b →
  live_objects tg (Fixed p) = MemoryPoolBlock.live_objects tg b.
Proof.
  intros Hb. unfold live_objects. cbn [blocks]. rewrite Hb.
  change (option_list (Some ?b)) with [b]. apply bind_singleton.
Qed.

Lemma pool_for_each_spec {St : Type} (func : Z → St → St) q s :
  inv tg q → for_each tg func q s = Done (MemoryPoolBlock.visits func (live_objects tg q) s).
Proof.
  intros Hq. destruct q as [p|p]; cbn [for_each].
  - destruct Hq as (b & Hb & Hinv). rewrite (live_objects_fixed p b Hb).
    unfold FixedMemoryPool.for_each. rewrite Hb.
    by apply BlockFacts.for_each_spec.
  - by apply DynamicFacts.dyn_for_each_spec.
Qed.

Lemma pool_get_stats_spec q :
  inv tg q →
  get_stats tg q
  = Done {| block_count := N.of_nat (length (blocks q));
            allocation_count := N.of_nat (length (live_objects tg q)) |}.
Proof.
  intros Hq. destruct q as [p|p]; cbn [get_stats].
  - destruct Hq as (b & Hb & Hinv). rewrite (live_objects_fixed p b Hb).
    unfold FixedMemoryPool.get_stats. cbn [blocks]. rewrite Hb.
    rewrite BlockFacts.for_each_spec by done. cbn [mbind outcome_bind].
    rewrite BlockFacts.visits_count64; [done|].
    pose proof (BlockFacts.live_objects_length tg b Hinv).
    pose proof (MemoryPoolBlock.inv_cap _ Hinv) as Hcap.
    change (2 ^ 32)%N with 4294967296%N in Hcap.
    change (2 ^ 64)%N with 18446744073709551616%N. lia.
  - rewrite DynamicFacts.dyn_get_stats_spec by done. do 2 f_equal.
    destruct (DynamicFacts.inv_records tg p Hq) as (infos & _ & _ & Hlen & Hb).
    cbn [blocks]. rewrite Hb, length_fmap. lia.
Qed.

(** *** The live objects are listed once, in slot order *)

Lemma live_from_sorted b (mem : list (option T)) k :
  target_ok tg → StronglySorted Z.lt (MemoryPoolBlock.live_from tg b mem k).
Proof.
  intros [Hs _ _]. revert k. induction mem as [|o mem IH]; intros k.
  - constructor.
  - cbn [MemoryPoolBlock.live_from]. destruct o; [|apply IH].
    constructor; [apply IH|]. apply Forall_forall. intros ptr Hptr.
    apply BlockFacts.elem_of_live_from in Hptr as (j & _ & _ & ->).
    unfold MemoryPoolBlock.slot_address. nia.
Qed.

Lemma sorted_NoDup (l : list Z) : StronglySorted Z.lt l → NoDup l.
Proof.
  induction 1 as [|x l _ IH Hx]; constructor; [|done].
  intros Hin. apply (proj1 (Forall_forall _ _) Hx) in Hin. lia.
Qed.

Lemma NoDup_bind_lookup {A B} (f : A → list B) (l : list A) :
  (∀ i x, l !! i = Some x → NoDup (f x)) →
  (∀ (i j : nat) x y z, i ≠ j → l !! i = Some x → l !! j = Some y →
     z ∈ f x → z ∈ f y → False) →
  NoDup (l ≫= f).
Proof.
  induction l as [|x l IH]; intros Heach Hcross; [constructor|].
  rewrite bind_cons. apply NoDup_app. split_and!.
  - by apply (Heach 0%nat).
  - intros z Hz (y & Hzy & Hy)%list_elem_of_bind.
    apply list_elem_of_lookup in Hy as [j Hj].
    by apply (Hcross 0%nat (S j) x y z).
  - apply IH.
    + intros i y. apply (Heach (S i)).
    + intros i j y1 y2 z Hij. apply (Hcross (S i) (S j)). lia.
Qed.

Lemma live_objects_NoDup q : target_ok tg → inv tg q → NoDup (live_objects tg q).
Proof.
  intros Htg Hq. unfold live_objects. apply NoDup_bind_lookup.
  { intros _ b _. by apply sorted_NoDup, live_from_sorted. }
  destruct q as [p|p]; cbn [blocks].
  - destruct Hq as (b & -> & _).
    intros [|i] [|j] x y z Hij; cbn; try done.
  - destruct (DynamicFacts.inv_records tg p Hq) as (infos & Hi & Hall & _ & Hb).
    rewrite Hb. intros i j x y z Hij Hx Hy Hzx Hzy.
    rewrite list_lookup_fmap in Hx, Hy.
    destruct (infos !! i) as [ii|] eqn:Hii; [|done].
    destruct (infos !! j) as [ij|] eqn:Hjj; [|done].
    injection Hx as <-. injection Hy as <-.
    pose proof (Forall_lookup_1 _ _ _ _ Hall Hii) as Hinfi.
    pose proof (Forall_lookup_1 _ _ _ _ Hall Hjj) as Hinfj.
    apply (BlockFacts.elem_of_live_objects tg _ _
             (DynamicMemoryPool.info_block _ _ _ Hinfi)) in Hzx.
    apply (BlockFacts.elem_of_live_objects tg _ _
             (DynamicMemoryPool.info_block _ _ _ Hinfj)) in Hzy.
    apply (DynamicFacts.owned_in_range tg _ _ _ Htg Hinfi) in Hzx.
    apply (DynamicFacts.owned_in_range tg _ _ _ Htg Hinfj) in Hzy.
    apply (DynamicFacts.in_range_region tg _ _ _ Htg Hinfi) in Hzx.
    apply (DynamicFacts.in_range_region tg _ _ _ Htg Hinfj) in Hzy.
    pose proof (DynamicFacts.inv_apart_records tg p infos i j ii ij
                  Hq Hi Hij Hii Hjj) as Hapart.
    unfold DynamicMemoryPool.apart in Hapart. lia.
Qed.

(** *** Dynamic pools before the first release *)

Lemma history_packed q owned allocs releases :
  target_ok tg → history tg q owned allocs releases → releases = 0%nat →
  ∀ p, q = Dynamic p → (0 < DynamicMemoryPool.entries_per_block_ p)%N →
       DynamicMemoryPool.packed p.
Proof.
  intros Htg Hhist. induction Hhist as
    [cap a p0 Hcap Ha Hctor
    |cap h p0 Hcap Hans Hctor
    |q owned allocs releases v h ptr q' Hhist IH Hh Hnew Hptr
    |q owned allocs releases v h q' Hhist IH Hh Hnew
    |q owned1 ptr owned2 allocs releases q' Hhist IH Hdel
    |q owned allocs releases q' Hhist IH Hdel]; intros Hrel p Hq Hpos.
  - done.
  - injection Hq as <-.
    destruct (DynamicFacts.ctor_inv tg cap h p0 Hcap Hans Hctor)
      as (_ & _ & _ & Hfbi & [(_ & Hi)|(_ & _ & Hi)]);
      intros k info Hk; rewrite Hi in Hk |- *; [done|].
    destruct k as [|k]; [|done]. rewrite Hfbi. cbn. split; [|lia].
    intros _. split; [done | lia].
  - subst q'. destruct q as [p0|p0]; cbn in Hnew.
    { by destruct (FixedMemoryPool.new_object tg v p0) as [[? ?]| |]. }
    apply bind_Done in Hnew as ([ptr' p'] & Hnew & Heq).
    injection Heq as -> ->.
    destruct (history_inv _ _ _ _ Htg Hhist) as (Hp0 & _).
    destruct (DynamicFacts.dyn_new_object_inv tg p0 v h ptr p Htg Hp0 Hh Hnew)
      as (_ & HB & _).
    rewrite HB in Hpos.
    eapply DynamicFacts.new_object_packed; [done | done | | done | done].
    by apply IH.
  - subst q'. destruct q as [p0|p0]; cbn in Hnew.
    { by destruct (FixedMemoryPool.new_object tg v p0) as [[? ?]| |]. }
    apply bind_Done in Hnew as ([ptr' p'] & Hnew & Heq).
    injection Heq as -> ->.
    destruct (history_inv _ _ _ _ Htg Hhist) as (Hp0 & _).
    destruct (DynamicFacts.dyn_new_object_inv tg p0 v h 0 p Htg Hp0 Hh Hnew)
      as (_ & HB & _).
    rewrite HB in Hpos.
    eapply DynamicFacts.new_object_packed; [done | done | | done | done].
    by apply IH.
  - done.
  - destruct (history_inv _ _ _ _ Htg Hhist) as (Hq0 & _).
    rewrite delete_null in Hdel by done. injection Hdel as ->.
    by apply IH.
Qed.

Lemma block_size_nonneg (B : N) :
  target_ok tg → 0 <= MemoryPoolBlock.block_size tg B.
Proof.
  intros [Hs Ha Hh].
  unfold MemoryPoolBlock.block_size, MemoryPoolBlock.indices_size,
    MemoryPoolBlock.entries_size.
  pose proof (align_to_ge (sizeof_index * Z.of_N B) (alignof_T tg) Ha).
  unfold sizeof_index in *. nia.
Qed.

(** Histories with up to [B + 1] successful allocations and no release
    exist for every block capacity [B > 0], provided assertions are compiled
    out or the index array needs no padding: the host places the first block
    at 64 and the second behind it. *)
Lemma overflow_history_exists (v : T) (B : N) (n : nat) :
  target_ok tg → (0 < B < 2 ^ 32)%N →
  assertions tg = false
  ∨ MemoryPoolBlock.indices_size tg B = sizeof_index * Z.of_N B →
  (N.of_nat n <= B + 1)%N →
  ∃ (p : DynamicMemoryPool.Pool T) owned,
    history tg (Dynamic p) owned n 0 ∧
    DynamicMemoryPool.entries_per_block_ p = B ∧
    (DynamicMemoryPool.free_block_index_ p
     < DynamicMemoryPool.num_blocks_ p)%N ∧
    ((N.of_nat n <= B)%N →
     MemoryPoolBlock.this <$> DynamicMemoryPool.blocks p = [64]).
Proof.
  intros Htg HB Hlayout. induction n as [|n IH]; intros Hn.
  - set (h := {| DynamicMemoryPool.malloc_answer := 64;
                 DynamicMemoryPool.realloc_ok := true |}).
    eexists _, []. split_and!.
    + apply (history_dynamic tg B h); [lia | right; split; [cbn; lia | done] |].
      unfold DynamicMemoryPool.ctor.
      rewrite DynamicFacts.add_block_ok; [done | done | done | | done..].
      cbn. change (2 ^ 32)%N with 4294967296%N. lia.
    + done.
    + cbn. lia.
    + done.
  - destruct IH as (p & owned & Hhist & Hcap & Hhint & Haddr); [lia|].
    specialize (Haddr ltac:(lia)).
    destruct (history_inv _ _ _ _ Htg Hhist) as (Hp & _ & _).
    cbn [inv] in Hp.
    assert (Hnb : DynamicMemoryPool.num_blocks_ p = 1%N).
    { destruct (DynamicFacts.inv_records tg p Hp) as (infos & _ & _ & Hl & Hb).
      apply (f_equal length) in Haddr.
      rewrite Hb, !length_fmap in Haddr. cbn in Haddr. lia. }
    pose proof (block_size_nonneg B Htg) as Hsize.
    set (a := 64 * (2 + MemoryPoolBlock.block_size tg B)).
    set (h := {| DynamicMemoryPool.malloc_answer := a;
                 DynamicMemoryPool.realloc_ok := true |}).
    destruct (DynamicFacts.dyn_new_object_progress tg p v h Htg Hp)
      as (ptr & p' & Hnew & Hptr & Hhint'); cbn [DynamicMemoryPool.malloc_answer
        DynamicMemoryPool.realloc_ok h];
      [lia | done | rewrite Hnb; done | unfold a; lia | done
      | by rewrite Hcap |].
    assert (Hh : host_ok tg (Dynamic p) h).
    { split; cbn [DynamicMemoryPool.malloc_answer h].
      - right. split; [unfold a; lia|].
        unfold a, MIN_BLOCK_ALIGN. by rewrite Z.mul_comm, Z.mod_mul.
      - intros _ b Hb. right.
        assert (MemoryPoolBlock.this b = 64) as ->.
        { apply (list_elem_of_fmap_2 MemoryPoolBlock.this) in Hb.
          rewrite Haddr in Hb. by apply list_elem_of_singleton in Hb. }
        rewrite Hcap. unfold a. lia. }
    assert (Hhist' : history tg (Dynamic p') (ptr :: owned) (S n) 0).
    { eapply (history_new tg (Dynamic p) owned n 0 v h); [done | done | | done].
      cbn. by rewrite Hnew. }
    destruct (DynamicFacts.dyn_new_object_inv tg p v h ptr p' Htg Hp Hh Hnew)
      as (Hp' & Hcap' & (added & Hadded) & _).
    exists p', (ptr :: owned).
    split_and!; [done | by rewrite Hcap' | done |].
    intros Hle.
    destruct (history_inv _ _ _ _ Htg Hhist') as (_ & Hperm & Hlen).
    pose proof (history_packed _ _ _ _ Htg Hhist' eq_refl p' eq_refl
                  ltac:(rewrite Hcap', Hcap; lia)) as Hpacked.
    destruct (DynamicFacts.packed_count tg p' Hp' Hpacked
                ltac:(rewrite Hcap', Hcap; lia)) as [_ Hone].
    cbn zeta in Hone.
    change (DynamicMemoryPool.live_objects tg p')
      with (live_objects tg (Dynamic p')) in Hone.
    rewrite <- Hperm, Hcap', Hcap in Hone.
    specialize (Hone ltac:(cbn [Nat.add] in Hlen; lia)).
    destruct (DynamicFacts.inv_records tg p' Hp') as (infos & _ & _ & Hl & Hb).
    pose proof (f_equal length Hadded) as Hlen'.
    rewrite Haddr in Hadded, Hlen'.
    rewrite Hb, !length_fmap, length_app in Hlen'. cbn in Hlen'.
    destruct added; [by rewrite Hadded | cbn in Hlen'; lia].
Qed.

End Facts.
End PoolFacts.

(** ** Statements about pools *)

Module PoolClaims.
Import Pool.

(** C3. For a fixed or dynamic pool reached by calls of [new_object] and
    [delete_object] that respect the ownership contract, [get_stats]
    completes and its [allocation_count] is the number of successful
    allocations minus the number of releases. *)
Theorem allocation_count_balance {T : Type} (tg : target) (q : pool T)
    (owned : list Z) (allocs releases : nat) :
  target_ok tg → history tg q owned allocs releases →
  ∃ stats, get_stats tg q = Done stats ∧
           Z.of_N (allocation_count stats)
           = Z.of_nat allocs - Z.of_nat releases.
Proof.
  intros Htg Hhist.
  destruct (PoolFacts.history_inv tg q owned allocs releases Htg Hhist)
    as (Hq & Hperm & ->).
  eexists. split; [by apply PoolFacts.pool_get_stats_spec|].
  cbn [allocation_count]. rewrite <- Hperm. lia.
Qed.

(** C4. In such a state [for_each] calls the visitor on the addresses
    [live_objects]: the live slots of each block in ascending slot order,
    block after block in the order of the array. These are the owned
    pointers, each once; a visitor that counts its calls counts as many as
    [allocation_count] says. Blocks are only ever appended to the array, so
    its order is the order of creation. *)
Theorem for_each_visits_live {T St : Type} (tg : target) (q : pool T)
    (owned : list Z) (allocs releases : nat) (func : Z → St → St) (s : St) :
  target_ok tg → history tg q owned allocs releases →
  for_each tg func q s
  = Done (MemoryPoolBlock.visits func (live_objects tg q) s) ∧
  for_each tg (fun _ n => S n) q 0%nat
  = Done (length (live_objects tg q)) ∧
  live_objects tg q ≡ₚ owned ∧
  NoDup (live_objects tg q) ∧
  Forall (fun b => StronglySorted Z.lt (MemoryPoolBlock.live_objects tg b))
    (blocks q) ∧
  get_stats tg q
  = Done {| block_count := N.of_nat (length (blocks q));
            allocation_count := N.of_nat (length (live_objects tg q)) |} ∧
  (∀ v h ptr q', host_ok tg q h → new_object tg v h q = Done (ptr, q') →
     ∃ added, MemoryPoolBlock.this <$> blocks q'
              = (MemoryPoolBlock.this <$> blocks q) ++ added) ∧
  (∀ ptr q', ptr ∈ owned → delete_object tg ptr q = Done q' →
     MemoryPoolBlock.this <$> blocks q' = MemoryPoolBlock.this <$> blocks q).
Proof.
  intros Htg Hhist.
  destruct (PoolFacts.history_inv tg q owned allocs releases Htg Hhist)
    as (Hq & Hperm & _).
  split_and!.
  - by apply PoolFacts.pool_for_each_spec.
  - rewrite PoolFacts.pool_for_each_spec by done.
    by rewrite BlockFacts.visits_count.
  - done.
  - by apply PoolFacts.live_objects_NoDup.
  - apply Forall_forall. intros b _. by apply PoolFacts.live_from_sorted.
  - by apply PoolFacts.pool_get_stats_spec.
  - intros v h ptr q' Hh Hnew.
    by destruct (PoolFacts.pool_new_object_inv tg q v h ptr q' Htg Hq Hh Hnew)
      as (_ & ? & _).
  - intros ptr q' Hptr Hdel. rewrite Hperm in Hptr.
    destruct (PoolFacts.pool_delete_object_inv tg q ptr Htg Hq Hptr)
      as (q'' & Hdel' & _ & Haddr & _).
    congruence.
Qed.

(** The example of the specification on a dynamic pool with blocks of two
    entries: five allocations (the host places the blocks at 64, 128 and
    192), then the second and the fourth object are released. *)
Lemma example_history :
  ∃ q : pool nat, history tg8 q [208; 144; 80] 5 2.
Proof.
  pose (h0 := {| DynamicMemoryPool.malloc_answer := 0;
                 DynamicMemoryPool.realloc_ok := true |}).
  pose (hat := fun a => {| DynamicMemoryPool.malloc_answer := a;
                           DynamicMemoryPool.realloc_ok := true |}).
  assert (Hh0 : ∀ q : pool nat, host_ok tg8 q h0).
  { intros [p|p]; [done|]. split; [by left | done]. }
  eexists.
  eapply (history_delete _ _ [208] 152 [144; 80]).
  eapply (history_delete _ _ [208; 152; 144] 88 [80]).
  eapply (history_new _ _ _ _ _ 5%nat (hat 192)).
  eapply (history_new _ _ _ _ _ 4%nat h0).
  eapply (history_new _ _ _ _ _ 3%nat (hat 128)).
  eapply (history_new _ _ _ _ _ 2%nat h0).
  eapply (history_new _ _ _ _ _ 1%nat h0).
  eapply (history_dynamic _ 2 (hat 64)).
  - reflexivity.
  - right. split; reflexivity.
  - vm_compute. reflexivity.
  - apply Hh0.
  - vm_compute. reflexivity.
  - discriminate.
  - apply Hh0.
  - vm_compute. reflexivity.
  - discriminate.
  - split; [right; split; reflexivity|].
    intros _ b Hb. apply list_elem_of_singleton in Hb as ->.
    unfold DynamicMemoryPool.apart. vm_compute. right. discriminate.
  - vm_compute. reflexivity.
  - discriminate.
  - apply Hh0.
  - vm_compute. reflexivity.
  - discriminate.
  - split; [right; split; reflexivity|].
    intros _ b Hb. cbn in Hb.
    apply elem_of_cons in Hb as [->|Hb];
      [|apply list_elem_of_singleton in Hb as ->];
      unfold DynamicMemoryPool.apart; vm_compute; right; discriminate.
  - vm_compute. reflexivity.
  - discriminate.
  - vm_compute. reflexivity.
  - vm_compute. reflexivity.
Qed.

Lemma allocation_count_balance_witness :
  target_ok tg8 ∧
  ∃ q : pool nat,
    history tg8 q [208; 144; 80] 5 2 ∧
    ∃ stats, get_stats tg8 q = Done stats ∧
             Z.of_N (allocation_count stats) = Z.of_nat 5 - Z.of_nat 2.
Proof.
  split; [exact BlockClaims.tg8_ok|].
  destruct example_history as [q Hq]. exists q. split; [exact Hq|].
  exact (allocation_count_balance tg8 q _ 5 2
           BlockClaims.tg8_ok Hq).
Defined.

Lemma for_each_visits_live_witness :
  target_ok tg8 ∧
  ∃ q : pool nat,
    history tg8 q [208; 144; 80] 5 2 ∧
    for_each tg8 (fun ptr seen => seen ++ [ptr]) q []
    = Done (MemoryPoolBlock.visits (fun ptr seen => seen ++ [ptr])
              (live_objects tg8 q) []) ∧
    for_each tg8 (fun _ n => S n) q 0%nat = Done 3%nat ∧
    live_objects tg8 q ≡ₚ [208; 144; 80].
Proof.
  split; [exact BlockClaims.tg8_ok|].
  destruct example_history as [q Hq]. exists q. split; [exact Hq|].
  destruct (for_each_visits_live tg8 q _ 5 2
              (fun ptr seen => seen ++ [ptr]) [] BlockClaims.tg8_ok Hq)
    as (Hvisits & Hcount & Hlive & _).
  split; [exact Hvisits|]. split; [|exact Hlive].
  rewrite Hcount. f_equal. exact (Permutation_length Hlive).
Defined.

(** C10. A fixed pool constructed with [max_entries = 0] (the block was
    allocated): the free head of its block equals the capacity from the
    start, and every [new_object] returns null and leaves the pool as it
    is. *)
Theorem fixed_zero_capacity {T : Type} (tg : target) (a : Z) :
  target_ok tg → 0 < a →
  ∃ b : MemoryPoolBlock.Block T,
    FixedMemoryPool.ctor tg 0 a = Done {| FixedMemoryPool.block_ := Some b |} ∧
    MemoryPoolBlock.free_head_index_ b = MemoryPoolBlock.entries_per_block_ b ∧
    (∀ v, MemoryPoolBlock.new_object tg v b = Done (0, b)) ∧
    (∀ v, FixedMemoryPool.new_object tg v {| FixedMemoryPool.block_ := Some b |}
          = Done (0, {| FixedMemoryPool.block_ := Some b |})).
Proof.
  intros Htg Ha. exists (MemoryPoolBlock.ctor a 0). split_and!.
  - unfold FixedMemoryPool.ctor. rewrite DynamicFacts.create_ok; [done | lia |].
    right. unfold MemoryPoolBlock.indices_size, align_to, sizeof_index.
    destruct Htg as [_ Hal _]. cbn. rewrite Z.div_small by lia. lia.
  - done.
  - intros v. by apply BlockFacts.new_object_full.
  - intros v. unfold FixedMemoryPool.new_object.
    cbn [FixedMemoryPool.block_]. by rewrite BlockFacts.new_object_full.
Qed.

Lemma fixed_zero_capacity_witness :
  target_ok tg8 ∧ 0 < 64 ∧
  ∃ p : FixedMemoryPool.Pool nat,
    FixedMemoryPool.ctor tg8 0 64 = Done p ∧
    FixedMemoryPool.new_object tg8 7%nat p = Done (0, p).
Proof.
  split; [exact BlockClaims.tg8_ok|]. split; [lia|].
  destruct (fixed_zero_capacity (T:=nat) tg8 64
              BlockClaims.tg8_ok ltac:(lia)) as (b & Hctor & _ & _ & Hnew).
  eexists. split; [exact Hctor | apply Hnew].
Defined.

(** C9. On a dynamic pool whose array holds [num_blocks_] initialised
    records, [delete_object] of a pointer outside the storage range of every
    record selects no block, so no block's [delete_object] (where the
    destructor is called) runs, and the pool with its blocks, records and
    free-block hint is returned as it was. *)
Theorem delete_unowned_noop {T : Type} (tg : target)
    (p : DynamicMemoryPool.Pool T) (ptr : Z) :
  length (DynamicMemoryPool.block_info_ p)
  = N.to_nat (DynamicMemoryPool.num_blocks_ p) →
  (∀ o, o ∈ DynamicMemoryPool.block_info_ p → is_Some o) →
  (∀ info, Some info ∈ DynamicMemoryPool.block_info_ p →
     ¬ DynamicMemoryPool.in_range tg (DynamicMemoryPool.entries_per_block_ p)
         info ptr) →
  DynamicMemoryPool.find_block tg ptr (DynamicMemoryPool.entries_per_block_ p)
    (DynamicMemoryPool.block_info_ p) 0
    (N.to_nat (DynamicMemoryPool.num_blocks_ p)) = Done None ∧
  DynamicMemoryPool.delete_object tg ptr p = Done p.
Proof.
  intros Hlen Hinit Hout.
  destruct (DynamicFacts.all_Some (fun _ => True)
              (DynamicMemoryPool.block_info_ p)) as (infos & Hi & _).
  { intros k o Hk. destruct (Hinit o) as [info ->]; [|by exists info].
    by eapply list_elem_of_lookup_2. }
  assert (Hfind :
    DynamicMemoryPool.find_block tg ptr (DynamicMemoryPool.entries_per_block_ p)
      (DynamicMemoryPool.block_info_ p) 0
      (N.to_nat (DynamicMemoryPool.num_blocks_ p)) = Done None).
  { rewrite <- Hlen, Hi, length_fmap. apply DynamicFacts.find_block_none.
    intros info Hinfo. apply Hout. rewrite Hi.
    apply list_elem_of_fmap. by exists info. }
  split; [done|]. unfold DynamicMemoryPool.delete_object. by rewrite Hfind.
Qed.

Lemma delete_unowned_noop_witness :
  let p : DynamicMemoryPool.Pool nat :=
    {| DynamicMemoryPool.block_info_ :=
         [Some (DynamicMemoryPool.new_info tg8 2 64)];
       DynamicMemoryPool.num_blocks_ := 1;
       DynamicMemoryPool.free_block_index_ := 0;
       DynamicMemoryPool.entries_per_block_ := 2 |} in
  DynamicMemoryPool.ctor tg8 2
    {| DynamicMemoryPool.malloc_answer := 64;
       DynamicMemoryPool.realloc_ok := true |} = Done p ∧
  ¬ DynamicMemoryPool.in_range tg8 2
      (DynamicMemoryPool.new_info (T:=nat) tg8 2 64) 4096 ∧
  DynamicMemoryPool.delete_object tg8 4096 p = Done p.
Proof.
  intros p.
  assert (Hout : ¬ DynamicMemoryPool.in_range tg8 2
      (DynamicMemoryPool.new_info (T:=nat) tg8 2 64) 4096).
  { unfold DynamicMemoryPool.in_range. vm_compute. intros [_ H]. discriminate. }
  split_and!; [reflexivity | exact Hout |].
  apply (delete_unowned_noop tg8 p 4096).
  - reflexivity.
  - intros o Ho. apply list_elem_of_singleton in Ho as ->. by eexists.
  - intros info Hinfo. apply list_elem_of_singleton in Hinfo.
    injection Hinfo as ->. exact Hout.
Defined.

(** C8. Failures of the host allocator are not always reported by a null
    result. When [realloc] fails in [add_block] its result is not tested and
    the new record is written through it: the call has no defined behaviour
    (first statement, assertions compiled out, pool of one-entry blocks with
    one live object). When [aligned_malloc] fails in a build with
    assertions, the assertions of [create] go through the null pointer
    (second statement). Only with assertions compiled out a failing
    [aligned_malloc] gives the null result (third statement). *)
Theorem host_failure_unreported :
  let tg8r := {| sizeof_T := 8; alignof_T := 8; header_size := 8;
                 assertions := false |} in
  let host a ok := {| DynamicMemoryPool.malloc_answer := a;
                      DynamicMemoryPool.realloc_ok := ok |} in
  (∃ p0 p1 : DynamicMemoryPool.Pool nat,
     DynamicMemoryPool.ctor tg8r 1 (host 64 true) = Done p0 ∧
     DynamicMemoryPool.new_object tg8r 1%nat (host 0 true) p0 = Done (76, p1) ∧
     DynamicMemoryPool.new_object tg8r 2%nat (host 128 false) p1 = Undefined) ∧
  (∃ p0 p1 p2 : DynamicMemoryPool.Pool nat,
     DynamicMemoryPool.ctor tg8 2 (host 64 true) = Done p0 ∧
     DynamicMemoryPool.new_object tg8 1%nat (host 0 true) p0
     = Done (80, p1) ∧
     DynamicMemoryPool.new_object tg8 2%nat (host 0 true) p1
     = Done (88, p2) ∧
     DynamicMemoryPool.new_object tg8 3%nat (host 0 true) p2
     = Undefined) ∧
  (∃ p0 p1 : DynamicMemoryPool.Pool nat,
     DynamicMemoryPool.ctor tg8r 1 (host 64 true) = Done p0 ∧
     DynamicMemoryPool.new_object tg8r 1%nat (host 0 true) p0 = Done (76, p1) ∧
     DynamicMemoryPool.new_object tg8r 2%nat (host 0 true) p1
     = Done (0, DynamicMemoryPool.set_free_block_index p1 1)).
Proof.
  cbn zeta. split_and!.
  - eexists _, _. split_and!; [reflexivity | vm_compute; reflexivity |].
    vm_compute. reflexivity.
  - eexists _, _, _.
    split_and!; [reflexivity | vm_compute; reflexivity
                | vm_compute; reflexivity |].
    vm_compute. reflexivity.
  - eexists _, _. split_and!; [reflexivity | vm_compute; reflexivity |].
    vm_compute. reflexivity.
Qed.

(** C6. A dynamic pool with blocks of [B > 0] entries that has seen [B + 1]
    successful allocations and no release has two blocks: [get_stats]
    completes with [block_count = 2]. While the successful allocations are
    between 1 and [B] there is one block, so it is the [(B + 1)]-th that adds
    the second. *)
Theorem block_count_after_overflow {T : Type} (tg : target)
    (p : DynamicMemoryPool.Pool T) (owned : list Z) (allocs : nat) :
  let B := DynamicMemoryPool.entries_per_block_ p in
  target_ok tg → (0 < B)%N → history tg (Dynamic p) owned allocs 0 →
  ∃ stats, get_stats tg (Dynamic p) = Done stats ∧
    (N.of_nat allocs = B + 1 → block_count stats = 2)%N ∧
    (0 < N.of_nat allocs <= B → block_count stats = 1)%N.
Proof.
  intros B Htg HB Hhist.
  destruct (PoolFacts.history_inv tg _ _ _ _ Htg Hhist) as (Hp & Hperm & ->).
  pose proof (PoolFacts.history_packed tg _ _ _ _ Htg Hhist eq_refl p eq_refl HB)
    as Hpacked.
  destruct (DynamicFacts.packed_count tg p Hp Hpacked HB) as [Hover Hfill].
  cbn zeta in Hover, Hfill.
  change (DynamicMemoryPool.live_objects tg p)
    with (live_objects tg (Dynamic p)) in Hover, Hfill.
  rewrite <- Hperm in Hover, Hfill.
  eexists. split; [by apply DynamicFacts.dyn_get_stats_spec|].
  cbn [block_count Nat.add]. split; [exact Hover | exact Hfill].
Qed.

Lemma block_count_after_overflow_witness :
  target_ok tg8 ∧
  ∃ p : DynamicMemoryPool.Pool nat,
    DynamicMemoryPool.entries_per_block_ p = 2%N ∧
    history tg8 (Dynamic p) [144; 88; 80] 3 0 ∧
    ∃ stats, get_stats tg8 (Dynamic p) = Done stats ∧
             block_count stats = 2%N.
Proof.
  pose (h0 := {| DynamicMemoryPool.malloc_answer := 0;
                 DynamicMemoryPool.realloc_ok := true |}).
  pose (hat := fun a => {| DynamicMemoryPool.malloc_answer := a;
                           DynamicMemoryPool.realloc_ok := true |}).
  assert (Hh0 : ∀ q : pool nat, host_ok tg8 q h0).
  { intros [p|p]; [done|]. split; [by left | done]. }
  assert (Hhist : ∃ p : DynamicMemoryPool.Pool nat,
    DynamicMemoryPool.entries_per_block_ p = 2%N ∧
    history tg8 (Dynamic p) [144; 88; 80] 3 0).
  { eexists. split; [|
      eapply (history_new _ _ _ _ _ 3%nat (hat 128));
      [eapply (history_new _ _ _ _ _ 2%nat h0);
       [eapply (history_new _ _ _ _ _ 1%nat h0);
        [eapply (history_dynamic _ 2 (hat 64));
         [reflexivity | right; split; reflexivity | vm_compute; reflexivity]
        | apply Hh0 | vm_compute; reflexivity | discriminate]
       | apply Hh0 | vm_compute; reflexivity | discriminate]
      | | vm_compute; reflexivity | discriminate]].
    - reflexivity.
    - split; [right; split; reflexivity|].
      intros _ b Hb. apply list_elem_of_singleton in Hb as ->.
      unfold DynamicMemoryPool.apart. vm_compute. right. discriminate. }
  split; [exact BlockClaims.tg8_ok|].
  destruct Hhist as (p & HB & Hhist). exists p. split_and!; [done..|].
  destruct (block_count_after_overflow tg8 p _ 3
              BlockClaims.tg8_ok ltac:(rewrite HB; reflexivity) Hhist)
    as (stats & Hstats & Hover & _).
  exists stats. split; [exact Hstats|]. apply Hover. rewrite HB. reflexivity.
Defined.

End PoolClaims.

(** ** Further properties of a block *)

Module BlockExtraFacts.
Import MemoryPoolBlock.

Section Facts.
Context {T : Type} (tg : target).
Implicit Types (b : Block T).

Lemma live_from_lt b (mem : list (option T)) k (j : nat) :
  mem !! j = Some None →
  (length (live_from tg b mem k) < length mem)%nat.
Proof.
  revert k j. induction mem as [|o mem IH]; intros k j Hj; [done|].
  destruct j as [|j]; cbn in Hj.
  - injection Hj as ->. cbn.
    pose proof (BlockFacts.live_from_length tg b mem (k + 1)). lia.
  - specialize (IH (k + 1)%N j Hj). destruct o; cbn; lia.
Qed.

Lemma not_full_live b :
  inv b → free_head_index_ b ≠ entries_per_block_ b →
  (N.of_nat (length (live_objects tg b)) < entries_per_block_ b)%N.
Proof.
  intros Hb Hne. destruct (inv_free _ Hb) as (fl & Hchain & _ & Hfl).
  destruct (BlockFacts.free_chain_head _ _ _ _ Hchain) as [|Hin]; [done|].
  apply Hfl in Hin as [Hlt Hdead].
  pose proof (BlockFacts.not_live_lookup _ _ Hb Hlt Hdead) as Hnone.
  pose proof (live_from_lt b (memory b) 0 _ Hnone) as Hl.
  rewrite (inv_memory _ Hb) in Hl. unfold live_objects. lia.
Qed.

Lemma align_to_fixed n align :
  0 < align → (align_to n align = n ↔ n mod align = 0).
Proof.
  intros Ha. unfold align_to. split.
  - intros <-. apply Z.mod_mul. lia.
  - intros Hn. apply Z.mod_divide in Hn; [|lia]. destruct Hn as [k ->].
    replace (k * align + align - 1) with (align - 1 + k * align) by lia.
    rewrite Z.div_add by lia. rewrite (Z.div_small (align - 1)) by lia. lia.
Qed.

Lemma dtor_spec b :
  inv b →
  dtor tg b = if assertions tg && negb (bool_decide (live_objects tg b = []))
              then AssertFail else Done tt.
Proof.
  intros Hb. unfold dtor. destruct (assertions tg) eqn:Ha; [|done].
  rewrite BlockFacts.count_allocations_spec by done. cbn [mbind outcome_bind].
  unfold assert. rewrite Ha. cbn [andb].
  destruct (live_objects tg b) as [|ptr l]; [done|].
  rewrite bool_decide_eq_false_2 by done. cbn [negb length].
  by destruct (N.eqb_spec (N.of_nat (S (length l))) 0); [lia|].
Qed.

End Facts.
End BlockExtraFacts.

Module BlockExtras.
Import MemoryPoolBlock.

(** X1. On a block that satisfies the invariant, [count_allocations]
    returns the number of slots that hold a live object; the number is at
    most the capacity and equals it exactly when [free_head_index_] is the
    sentinel. *)
Theorem count_allocations_live {T : Type} (tg : target) (b : Block T) :
  inv b →
  count_allocations tg b = Done (N.of_nat (length (live_objects tg b))) ∧
  (N.of_nat (length (live_objects tg b)) <= entries_per_block_ b)%N ∧
  (N.of_nat (length (live_objects tg b)) = entries_per_block_ b
   ↔ free_head_index_ b = entries_per_block_ b).
Proof.
  intros Hb. split_and!.
  - by apply BlockFacts.count_allocations_spec.
  - by apply BlockFacts.live_objects_length.
  - split.
    + intros Hfull.
      destruct (decide (free_head_index_ b = entries_per_block_ b)); [done|].
      pose proof (BlockExtraFacts.not_full_live tg b Hb ltac:(done)). lia.
    + by apply BlockFacts.full_live.
Qed.

Lemma count_allocations_live_witness :
  let b : Block nat :=
    {| this := 64; free_head_index_ := 1; entries_per_block_ := 2;
       indices := [0; 2]%N; memory := [Some 7%nat; None] |} in
  inv b ∧ count_allocations tg8 b = Done 1%N.
Proof.
  intros b.
  assert (Hb : inv b).
  { assert (Hnew : new_object tg8 7%nat (ctor 64 2) = Done (80, b))
      by (vm_compute; reflexivity).
    eapply (BlockFacts.new_object_inv tg8); [|exact Hnew].
    apply BlockFacts.inv_ctor; [lia | reflexivity]. }
  split; [exact Hb|].
  destruct (count_allocations_live tg8 b Hb) as (Hcount & _).
  rewrite Hcount. reflexivity.
Defined.



(** X3. In a build with assertions, a successful allocation lets [create]
    complete exactly when the index array needs no padding, that is when
    [sizeof(index_t) * entries_per_block] is a multiple of [alignof(T)];
    otherwise its second assertion fails. With assertions compiled out
    [create] always completes, with null exactly when the allocation
    failed. *)
Theorem create_outcome {T : Type} (tg : target) (cap : N) (a : Z) :
  target_ok tg →
  (assertions tg = false →
   create (T:=T) tg cap a
   = Done (if (a =? 0) then None else Some (ctor a cap))) ∧
  (assertions tg = true → a ≠ 0 →
   ((sizeof_index * Z.of_N cap) mod alignof_T tg = 0 →
    create (T:=T) tg cap a = Done (Some (ctor a cap))) ∧
   ((sizeof_index * Z.of_N cap) mod alignof_T tg ≠ 0 →
    create (T:=T) tg cap a = AssertFail)).
Proof.
  intros [_ Hal _]. split.
  - intros Ha. unfold create. by rewrite Ha.
  - intros Ha Hne.
    pose proof (BlockExtraFacts.align_to_fixed
                  (sizeof_index * Z.of_N cap) (alignof_T tg) Hal) as Hfix.
    split; intros Hmod.
    + apply DynamicFacts.create_ok; [done|]. right. by apply Hfix.
    + unfold create. replace (a =? 0) with false by (symmetry; lia).
      rewrite Ha. unfold assert. rewrite Ha.
      change (indices_begin tg (ctor (T:=T) a cap)) with (a + header_size tg).
      rewrite Z.eqb_refl. cbn [andb negb mbind outcome_bind].
      destruct (Z.eqb_spec (memory_begin tg (ctor (T:=T) a cap))
                  (a + header_size tg + indices_size tg cap)) as [Heq|_];
        [|done].
      exfalso. apply Hmod, Hfix.
      unfold memory_begin, indices_begin, indices_size in Heq. cbn in Heq.
      unfold indices_size in *. lia.
Qed.

Lemma create_outcome_witness :
  target_ok tg8 ∧
  create (T:=nat) tg8 2 64 = Done (Some (ctor 64 2)) ∧
  create (T:=nat) tg8 3 64 = AssertFail.
Proof.
  split; [exact BlockClaims.tg8_ok|].
  destruct (create_outcome (T:=nat) tg8 2 64 BlockClaims.tg8_ok) as [_ H2].
  destruct (create_outcome (T:=nat) tg8 3 64 BlockClaims.tg8_ok) as [_ H3].
  split.
  - apply H2; [reflexivity | discriminate | reflexivity].
  - apply H3; [reflexivity | discriminate | discriminate].
Defined.

(** X4. [delete_object] of an owned pointer, the address of slot [i]:
    afterwards [free_head_index_] is [i], entry [i] of the index array is
    the old free head, slot [i] holds no object, and every other index entry
    and every other slot is as before. *)
Theorem delete_object_spec {T : Type} (tg : target) (b : Block T) (ptr : Z) :
  target_ok tg → inv b → owned tg b ptr →
  ∃ i b',
    ptr = slot_address tg b i ∧
    delete_object tg ptr b = Done b' ∧
    free_head_index_ b' = i ∧
    indices b' !! N.to_nat i = Some (free_head_index_ b) ∧
    memory b' !! N.to_nat i = Some None ∧
    (∀ j : nat, j ≠ N.to_nat i →
       indices b' !! j = indices b !! j ∧ memory b' !! j = memory b !! j) ∧
    this b' = this b ∧ entries_per_block_ b' = entries_per_block_ b.
Proof.
  intros Htg Hb (i & Hi & Hlive & ->).
  eexists i, _. split; [done|].
  split; [by apply BlockFacts.delete_object_owned|]. cbn.
  assert ((N.to_nat i < length (indices b))%nat)
    by (rewrite (inv_indices _ Hb); lia).
  assert ((N.to_nat i < length (memory b))%nat)
    by (rewrite (inv_memory _ Hb); lia).
  rewrite !list_lookup_insert_eq by done. split_and!; try done.
  intros j Hj. by rewrite !list_lookup_insert_ne.
Qed.

Lemma delete_object_spec_witness :
  let b : Block nat :=
    {| this := 64; free_head_index_ := 1; entries_per_block_ := 2;
       indices := [0; 2]%N; memory := [Some 7%nat; None] |} in
  target_ok tg8 ∧ inv b ∧ owned tg8 b 80 ∧
  delete_object tg8 80 b
  = Done {| this := 64; free_head_index_ := 0; entries_per_block_ := 2;
            indices := [1; 2]%N; memory := [None; None] |}.
Proof.
  intros b.
  assert (Hb : inv b).
  { assert (Hnew : new_object tg8 7%nat (ctor 64 2) = Done (80, b))
      by (vm_compute; reflexivity).
    eapply (BlockFacts.new_object_inv tg8); [|exact Hnew].
    apply BlockFacts.inv_ctor; [lia | reflexivity]. }
  assert (Hown : owned tg8 b 80).
  { exists 0%N. split_and!; [reflexivity | by exists 7%nat | reflexivity]. }
  split_and!; [exact BlockClaims.tg8_ok | exact Hb | exact Hown |].
  destruct (delete_object_spec tg8 b 80 BlockClaims.tg8_ok Hb Hown)
    as (i & b' & _ & Hdel & _).
  rewrite Hdel. vm_compute in Hdel. injection Hdel as <-. reflexivity.
Defined.

(** X5. [destroy] of a block that satisfies the invariant: when no object
    is live it completes and hands the block's address to [aligned_free];
    when an object is live the destructor's assertion fails in a build with
    assertions, and without assertions the block is freed all the same. *)
Theorem destroy_spec {T : Type} (tg : target) (b : Block T) :
  inv b →
  (live_objects tg b = [] → destroy tg (Some b) = Done [this b]) ∧
  (live_objects tg b ≠ [] → assertions tg = true →
   destroy tg (Some b) = AssertFail) ∧
  (assertions tg = false → destroy tg (Some b) = Done [this b]).
Proof.
  intros Hb. unfold destroy. rewrite BlockExtraFacts.dtor_spec by done.
  split_and!.
  - intros ->. rewrite bool_decide_eq_true_2 by done.
    by rewrite andb_false_r.
  - intros Hlive ->. by rewrite bool_decide_eq_false_2.
  - by intros ->.
Qed.

Lemma destroy_spec_witness :
  inv (ctor (T:=nat) 64 2) ∧
  live_objects tg8 (ctor (T:=nat) 64 2) = [] ∧
  destroy tg8 (Some (ctor (T:=nat) 64 2)) = Done [64].
Proof.
  assert (Hb : inv (ctor (T:=nat) 64 2))
    by (apply BlockFacts.inv_ctor; [lia | reflexivity]).
  assert (Hlive : live_objects tg8 (ctor (T:=nat) 64 2) = []) by reflexivity.
  split; [exact Hb|]. split; [exact Hlive|].
  exact (proj1 (destroy_spec tg8 (ctor 64 2) Hb) Hlive).
Defined.

End BlockExtras.

(** ** Further properties of the pools *)

Module PoolExtraFacts.
Import Pool.

Section Facts.
Context {T : Type} (tg : target).
Implicit Types (p : DynamicMemoryPool.Pool T).

(** The state after [delete_object] of a live object: the record of the
    owning block is the only one that changes. *)
Lemma dyn_delete_object_shape p infos ptr :
  target_ok tg → DynamicMemoryPool.inv tg p →
  DynamicMemoryPool.block_info_ p = Some <$> infos →
  ptr ∈ DynamicMemoryPool.live_objects tg p →
  ∃ (k : nat) info block,
    infos !! k = Some info ∧
    MemoryPoolBlock.owned tg (DynamicMemoryPool.block_ info) ptr ∧
    MemoryPoolBlock.delete_object tg ptr (DynamicMemoryPool.block_ info)
    = Done block ∧
    DynamicMemoryPool.delete_object tg ptr p
    = Done {| DynamicMemoryPool.block_info_ :=
                Some <$> <[k := {| DynamicMemoryPool.num_free_ :=
                                     DynamicMemoryPool.num_free_ info + 1;
                                   DynamicMemoryPool.offset_ :=
                                     DynamicMemoryPool.offset_ info;
                                   DynamicMemoryPool.block_ := block |}]> infos;
              DynamicMemoryPool.num_blocks_ := DynamicMemoryPool.num_blocks_ p;
              DynamicMemoryPool.free_block_index_ :=
                N.min (DynamicMemoryPool.free_block_index_ p) (N.of_nat k);
              DynamicMemoryPool.entries_per_block_ :=
                DynamicMemoryPool.entries_per_block_ p |}.
Proof.
  intros Htg Hp Hi Hptr.
  destruct (DynamicFacts.inv_records tg p Hp)
    as (infos0 & Hi0 & Hall & Hlen & Hblocks).
  assert (infos0 = infos) as ->.
  { rewrite Hi in Hi0. by apply (inj (fmap Some)) in Hi0. }
  pose proof (DynamicMemoryPool.inv_entries _ _ Hp) as HB.
  pose proof (DynamicMemoryPool.inv_num_blocks _ _ Hp) as Hnb.
  unfold DynamicMemoryPool.live_objects in Hptr. rewrite Hblocks in Hptr.
  apply list_elem_of_bind in Hptr as (b & Hptr & Hb).
  apply list_elem_of_fmap in Hb as (info & -> & Hinfo).
  apply list_elem_of_lookup in Hinfo as [k Hk].
  pose proof (Forall_lookup_1 _ _ _ _ Hall Hk) as Hinfo.
  pose proof Hinfo as [Hb Hcap Hoff Hcount].
  apply (BlockFacts.elem_of_live_objects tg _ _ Hb) in Hptr.
  pose proof (lookup_lt_Some _ _ _ Hk) as Hklt.
  assert (Hpos : (0 < DynamicMemoryPool.entries_per_block_ p)%N).
  { destruct Hptr as (i & Hi' & _). lia. }
  assert (Hfind :
    DynamicMemoryPool.find_block tg ptr (DynamicMemoryPool.entries_per_block_ p)
      (DynamicMemoryPool.block_info_ p) 0
      (N.to_nat (DynamicMemoryPool.num_blocks_ p))
    = Done (Some (N.of_nat k, info))).
  { rewrite Hi, <- Hlen.
    rewrite (DynamicFacts.find_block_found tg ptr _ infos 0 k info);
      [done | done | by apply DynamicFacts.owned_in_range |].
    intros j ij Hjk Hj Hin.
    pose proof (Forall_lookup_1 _ _ _ _ Hall Hj) as Hij.
    apply (DynamicFacts.in_range_region tg _ _ _ Htg Hij) in Hin.
    pose proof (DynamicFacts.in_range_region tg _ _ _ Htg Hinfo
                  (DynamicFacts.owned_in_range tg _ _ _ Htg Hinfo Hptr)).
    pose proof (DynamicFacts.inv_apart_records tg p infos j k ij info
                  Hp Hi ltac:(lia) Hj Hk) as Hapart.
    unfold DynamicMemoryPool.apart in Hapart. lia. }
  destruct (BlockFacts.delete_object_live tg _ _ Htg Hb Hptr)
    as (block & Hdel & _ & _ & _ & Hperm).
  exists k, info, block. split_and!; [done..|].
  unfold DynamicMemoryPool.delete_object. rewrite Hfind.
  cbn [mbind outcome_bind]. rewrite Hdel. cbn [mbind outcome_bind].
  rewrite store_lt by (rewrite Hi, length_fmap, Nat2N.id; lia).
  cbn [mbind outcome_bind]. rewrite to_index_small by lia.
  rewrite Nat2N.id, Hi, <- list_fmap_insert.
  pose proof (Permutation_length Hperm) as Hlenp. cbn [length] in Hlenp.
  specialize (Hcount Hpos).
  rewrite wrap32_small by lia.
  cbn [DynamicMemoryPool.set_block_info DynamicMemoryPool.free_block_index_].
  destruct (N.ltb_spec (N.of_nat k) (DynamicMemoryPool.free_block_index_ p)).
  - unfold DynamicMemoryPool.set_free_block_index. cbn.
    by rewrite N.min_r by lia.
  - unfold DynamicMemoryPool.set_block_info. by rewrite N.min_l by lia.
Qed.

(** [new_object] returns null only through paths that an assertion
    guards. *)
Lemma dyn_new_object_null p v h p' :
  DynamicMemoryPool.new_object tg v h p = Done (0, p') →
  assertions tg = false.
Proof.
  intros Hnew. unfold DynamicMemoryPool.new_object in Hnew.
  apply bind_Done in Hnew as (_ & _ & Hnew).
  apply bind_Done in Hnew as (k & _ & Hnew).
  assert (Hc : ∀ k' p0, DynamicMemoryPool.construct tg v k' p0 = Done (0, p')
                        → assertions tg = false).
  { intros k' p0 Hc. unfold DynamicMemoryPool.construct in Hc.
    apply bind_Done in Hc as (info & _ & Hc).
    apply bind_Done in Hc as ([ptr block] & _ & Hc).
    apply bind_Done in Hc as (u & Hassert & Hc).
    apply bind_Done in Hc as (infos' & _ & Hc). injection Hc as -> _.
    by apply assert_Done in Hassert as [?|?]. }
  destruct (N.eqb _ _); [|by eapply Hc].
  apply bind_Done in Hnew as ([r p2] & Hadd & Hnew).
  destruct r as [p_info|]; [by eapply Hc|].
  unfold DynamicMemoryPool.add_block in Hadd.
  apply bind_Done in Hadd as (_ & _ & Hadd).
  apply bind_Done in Hadd as (ob & Hcreate & Hadd).
  apply DynamicFacts.create_Done in Hcreate as [(_ & _ & ?)|(_ & ->)]; [done|].
  destruct (DynamicMemoryPool.realloc_ok h); [|done].
  by apply bind_Done in Hadd as (? & _ & ?).
Qed.

(** *** The free-block hint *)

Lemma new_object_hint p v h ptr p' :
  DynamicMemoryPool.inv tg p → DynamicMemoryPool.hint_ok p →
  DynamicMemoryPool.new_object tg v h p = Done (ptr, p') →
  DynamicMemoryPool.hint_ok p'.
Proof.
  intros Hp Hhint Hnew.
  destruct (DynamicFacts.inv_records tg p Hp) as (infos & Hi & _ & Hlen & _).
  assert (Hh : ∀ (j : nat) info, infos !! j = Some info →
    (N.of_nat j < DynamicMemoryPool.free_block_index_ p)%N →
    DynamicMemoryPool.num_free_ info = 0%N).
  { intros j info Hj. apply (Hhint j info).
    by rewrite Hi, list_lookup_fmap, Hj. }
  destruct (DynamicFacts.new_object_Done tg p infos v h ptr p' Hp Hi Hnew)
    as (k & Hk & Hbefore & Hcases).
  assert (Hlow : ∀ (j : nat) info, infos !! j = Some info →
    (N.of_nat j < k)%N → DynamicMemoryPool.num_free_ info = 0%N).
  { intros j info Hj Hjk.
    destruct (decide (N.of_nat j < DynamicMemoryPool.free_block_index_ p)%N);
      [by eapply Hh | apply (Hbefore j info Hj); lia]. }
  destruct Hcases as [(_ & _ & _ & ->)
                     |[(Hkn & _ & _ & Hc)|(_ & info & Hinfo & _ & Hc)]].
  - intros j info Hj Hlt. cbn in Hj, Hlt.
    rewrite Hi, list_lookup_fmap in Hj.
    destruct (infos !! j) as [ij|] eqn:Hij; [|done]. injection Hj as ->.
    by eapply Hlow.
  - set (ninfo := DynamicMemoryPool.new_info (T:=T) tg
                    (DynamicMemoryPool.entries_per_block_ p)
                    (DynamicMemoryPool.malloc_answer h)) in *.
    assert (Hlast : (infos ++ [ninfo]) !! N.to_nat k = Some ninfo).
    { rewrite Hkn, <- Hlen. by apply list_lookup_middle. }
    eapply DynamicFacts.construct_Done in Hc as (block & _ & _ & ->);
      [|done|exact Hlast].
    intros j info Hj Hlt. cbn in Hj, Hlt.
    rewrite list_lookup_fmap, list_lookup_insert_ne in Hj by lia.
    destruct ((infos ++ [ninfo]) !! j) as [ij|] eqn:Hij; [|done].
    injection Hj as ->.
    apply lookup_app_Some in Hij as [Hij|[Hge _]]; [by eapply Hlow | lia].
  - eapply DynamicFacts.construct_Done in Hc as (block & _ & _ & ->);
      [|done..].
    intros j ij Hj Hlt. cbn in Hj, Hlt.
    rewrite list_lookup_fmap, list_lookup_insert_ne in Hj by lia.
    destruct (infos !! j) as [ij'|] eqn:Hij; [|done]. injection Hj as ->.
    by eapply Hlow.
Qed.

Lemma history_hint (q : pool T) owned allocs releases :
  target_ok tg → history tg q owned allocs releases →
  ∀ p, q = Dynamic p → DynamicMemoryPool.hint_ok p.
Proof.
  intros Htg Hhist. induction Hhist as
    [cap a p0 Hcap Ha Hctor
    |cap h p0 Hcap Hans Hctor
    |q owned allocs releases v h ptr q' Hhist IH Hh Hnew Hptr
    |q owned allocs releases v h q' Hhist IH Hh Hnew
    |q owned1 ptr owned2 allocs releases q' Hhist IH Hdel
    |q owned allocs releases q' Hhist IH Hdel]; intros p Hq.
  - done.
  - injection Hq as <-.
    destruct (DynamicFacts.ctor_inv tg cap h p0 Hcap Hans Hctor)
      as (_ & _ & _ & Hfbi & _).
    intros k info _. rewrite Hfbi. lia.
  - subst q'. destruct q as [p0|p0]; cbn in Hnew.
    { by destruct (FixedMemoryPool.new_object tg v p0) as [[? ?]| |]. }
    apply bind_Done in Hnew as ([ptr' p'] & Hnew & Heq).
    injection Heq as -> ->.
    destruct (PoolFacts.history_inv _ _ _ _ _ Htg Hhist) as (Hp0 & _).
    eapply new_object_hint; [exact Hp0 | by apply IH | exact Hnew].
  - subst q'. destruct q as [p0|p0]; cbn in Hnew.
    { by destruct (FixedMemoryPool.new_object tg v p0) as [[? ?]| |]. }
    apply bind_Done in Hnew as ([ptr' p'] & Hnew & Heq).
    injection Heq as -> ->.
    destruct (PoolFacts.history_inv _ _ _ _ _ Htg Hhist) as (Hp0 & _).
    eapply new_object_hint; [exact Hp0 | by apply IH | exact Hnew].
  - subst q'. destruct q as [p0|p0]; cbn in Hdel.
    { by destruct (FixedMemoryPool.delete_object tg ptr p0). }
    apply bind_Done in Hdel as (p' & Hdel & Heq). injection Heq as ->.
    destruct (PoolFacts.history_inv _ _ _ _ _ Htg Hhist) as (Hp0 & Hperm & _).
    cbn [inv] in Hp0.
    destruct (DynamicFacts.inv_records tg p0 Hp0) as (infos & Hi & _).
    assert (Hin : ptr ∈ DynamicMemoryPool.live_objects tg p0).
    { change (ptr ∈ live_objects tg (Dynamic p0)). rewrite <- Hperm.
      apply elem_of_app. right. by left. }
    destruct (dyn_delete_object_shape p0 infos ptr Htg Hp0 Hi Hin)
      as (k & info & block & Hk & _ & _ & Hshape).
    rewrite Hshape in Hdel. injection Hdel as <-.
    pose proof (IH p0 eq_refl) as Hhint.
    intros j ij Hj Hlt. cbn in Hj, Hlt.
    rewrite list_lookup_fmap, list_lookup_insert_ne in Hj by lia.
    apply (Hhint j ij); [|lia]. by rewrite Hi, list_lookup_fmap.
  - destruct (PoolFacts.history_inv _ _ _ _ _ Htg Hhist) as (Hq0 & _).
    rewrite PoolFacts.delete_null in Hdel by done. injection Hdel as ->.
    by apply IH.
Qed.

End Facts.
End PoolExtraFacts.

Module PoolExtras.
Import Pool.

Lemma example_fixed : history tg8 (Fixed Examples.fixed_full) [88; 80] 2 0.
Proof.
  pose (h0 := {| DynamicMemoryPool.malloc_answer := 0;
                 DynamicMemoryPool.realloc_ok := true |}).
  eapply (history_new _ _ _ _ _ 2%nat h0);
    [eapply (history_new _ _ _ _ _ 1%nat h0);
     [eapply (history_fixed _ 2 64);
      [reflexivity | reflexivity | vm_compute; reflexivity]
     | done | vm_compute; reflexivity | discriminate]
    | done | vm_compute; reflexivity | discriminate].
Qed.

Lemma example_dynamic :
  history tg8 (Dynamic Examples.dynamic_three) [144; 88; 80] 3 0.
Proof.
  pose (h0 := {| DynamicMemoryPool.malloc_answer := 0;
                 DynamicMemoryPool.realloc_ok := true |}).
  pose (hat := fun a => {| DynamicMemoryPool.malloc_answer := a;
                           DynamicMemoryPool.realloc_ok := true |}).
  assert (Hh0 : ∀ q : pool nat, host_ok tg8 q h0).
  { intros [p|p]; [done|]. split; [by left | done]. }
  eapply (history_new _ _ _ _ _ 3%nat (hat 128));
    [eapply (history_new _ _ _ _ _ 2%nat h0);
     [eapply (history_new _ _ _ _ _ 1%nat h0);
      [eapply (history_dynamic _ 2 (hat 64));
       [reflexivity | right; split; reflexivity | vm_compute; reflexivity]
      | apply Hh0 | vm_compute; reflexivity | discriminate]
     | apply Hh0 | vm_compute; reflexivity | discriminate]
    | | vm_compute; reflexivity | discriminate].
  split; [right; split; reflexivity|].
  intros _ b Hb. apply list_elem_of_singleton in Hb as ->.
  unfold DynamicMemoryPool.apart. vm_compute. right. discriminate.
Qed.

(** X6. A fixed pool under the ownership contract holds at most as many
    live objects as its block has entries. When it holds that many,
    [new_object] returns null and leaves the pool unchanged; when it holds
    fewer, [new_object] returns a non-null pointer that is not among the
    owned ones. *)
Theorem fixed_capacity {T : Type} (tg : target) (p : FixedMemoryPool.Pool T)
    (owned : list Z) (allocs releases : nat) (v : T) :
  target_ok tg → history tg (Fixed p) owned allocs releases →
  ∃ b, FixedMemoryPool.block_ p = Some b ∧
    (N.of_nat (length owned) <= MemoryPoolBlock.entries_per_block_ b)%N ∧
    (N.of_nat (length owned) = MemoryPoolBlock.entries_per_block_ b →
     FixedMemoryPool.new_object tg v p = Done (0, p)) ∧
    ((N.of_nat (length owned) < MemoryPoolBlock.entries_per_block_ b)%N →
     ∃ ptr p', FixedMemoryPool.new_object tg v p = Done (ptr, p') ∧
               ptr ≠ 0 ∧ ptr ∉ owned).
Proof.
  intros Htg Hhist.
  destruct (PoolFacts.history_inv tg _ _ _ _ Htg Hhist)
    as ((b & Hb & Hinv) & Hperm & _).
  rewrite (PoolFacts.live_objects_fixed tg p b Hb) in Hperm.
  exists b. rewrite Hperm. split_and!; [done | | |].
  - by apply BlockFacts.live_objects_length.
  - intros Hfull. unfold FixedMemoryPool.new_object. rewrite Hb.
    destruct (decide (MemoryPoolBlock.free_head_index_ b
                      = MemoryPoolBlock.entries_per_block_ b)) as [Hh|Hh].
    + rewrite BlockFacts.new_object_full by done. cbn.
      destruct p. cbn in Hb. by rewrite Hb.
    + pose proof (BlockExtraFacts.not_full_live tg b Hinv Hh). lia.
  - intros Hlt.
    assert (Hh : MemoryPoolBlock.free_head_index_ b
                 ≠ MemoryPoolBlock.entries_per_block_ b).
    { intros Hh. pose proof (BlockFacts.full_live tg b Hinv Hh). lia. }
    destruct (BlockFacts.new_object_free tg b v Hinv Hh)
      as (next & _ & _ & _ & Hnew).
    destruct (BlockFacts.new_object_live tg b v _ _ Htg Hinv Hnew)
      as (_ & _ & [(_ & _ & ?)|(Hne & _ & Hlive)]); [done|].
    eexists _, _. unfold FixedMemoryPool.new_object. rewrite Hb, Hnew.
    split_and!; [done | done |].
    rewrite Hperm. intros Hin.
    assert (Hnd : NoDup (MemoryPoolBlock.slot_address tg b
                           (MemoryPoolBlock.free_head_index_ b)
                         :: MemoryPoolBlock.live_objects tg b)).
    { rewrite <- Hlive. by apply PoolFacts.sorted_NoDup,
        PoolFacts.live_from_sorted. }
    by apply NoDup_cons in Hnd as [? _].
Qed.

Lemma fixed_capacity_witness :
  target_ok tg8 ∧ history tg8 (Fixed Examples.fixed_full) [88; 80] 2 0 ∧
  FixedMemoryPool.new_object tg8 3%nat Examples.fixed_full
  = Done (0, Examples.fixed_full).
Proof.
  split; [exact BlockClaims.tg8_ok|]. split; [exact example_fixed|].
  destruct (fixed_capacity tg8 Examples.fixed_full _ 2 0 3%nat
              BlockClaims.tg8_ok example_fixed) as (b & Hb & _ & Hfull & _).
  injection Hb as <-. apply Hfull. reflexivity.
Defined.

(** X7. [~FixedMemoryPool] under the ownership contract: when every
    object has been released it completes and hands the block to
    [aligned_free]; when an object is still owned its assertion fails in a
    build with assertions, and without assertions the block is freed all the
    same. *)
Theorem fixed_dtor {T : Type} (tg : target) (p : FixedMemoryPool.Pool T)
    (owned : list Z) (allocs releases : nat) :
  target_ok tg → history tg (Fixed p) owned allocs releases →
  ∃ b, FixedMemoryPool.block_ p = Some b ∧
    (owned = [] → FixedMemoryPool.dtor tg p = Done [MemoryPoolBlock.this b]) ∧
    (owned ≠ [] → assertions tg = true →
     FixedMemoryPool.dtor tg p = AssertFail) ∧
    (assertions tg = false →
     FixedMemoryPool.dtor tg p = Done [MemoryPoolBlock.this b]).
Proof.
  intros Htg Hhist.
  destruct (PoolFacts.history_inv tg _ _ _ _ Htg Hhist) as (Hq & Hperm & _).
  pose proof (PoolFacts.pool_get_stats_spec tg _ Hq) as Hstats.
  destruct Hq as (b & Hb & Hinv).
  rewrite (PoolFacts.live_objects_fixed tg p b Hb) in Hperm, Hstats.
  cbn [get_stats] in Hstats.
  exists b. split; [done|]. unfold FixedMemoryPool.dtor.
  rewrite Hstats, Hb. cbn [mbind outcome_bind allocation_count].
  unfold MemoryPoolBlock.destroy.
  rewrite (BlockExtraFacts.dtor_spec tg b Hinv). unfold assert.
  split_and!.
  - intros ->. apply Permutation_nil in Hperm. rewrite Hperm.
    cbn. by destruct (assertions tg).
  - intros Hne ->. destruct (MemoryPoolBlock.live_objects tg b) as [|x l].
    { symmetry in Hperm. by apply Permutation_nil in Hperm. }
    cbn [length andb]. by destruct (N.eqb_spec (N.of_nat (S (length l))) 0).
  - by intros ->.
Qed.

Lemma fixed_dtor_witness :
  target_ok tg8 ∧ history tg8 (Fixed Examples.fixed_full) [88; 80] 2 0 ∧
  FixedMemoryPool.dtor tg8 Examples.fixed_full = AssertFail.
Proof.
  split; [exact BlockClaims.tg8_ok|]. split; [exact example_fixed|].
  destruct (fixed_dtor tg8 Examples.fixed_full _ 2 0
              BlockClaims.tg8_ok example_fixed) as (b & _ & _ & Hlive & _).
  apply Hlive; [discriminate | reflexivity].
Defined.

(** X8. [~DynamicMemoryPool] under the ownership contract: it completes
    when every object has been released or assertions are compiled out, and
    its assertion fails otherwise. When it completes, nothing was passed to
    [aligned_free]: the blocks stay allocated. *)
Theorem dynamic_dtor {T : Type} (tg : target) (p : DynamicMemoryPool.Pool T)
    (owned : list Z) (allocs releases : nat) :
  target_ok tg → history tg (Dynamic p) owned allocs releases →
  (owned = [] → DynamicMemoryPool.dtor tg p = Done []) ∧
  (owned ≠ [] → assertions tg = true →
   DynamicMemoryPool.dtor tg p = AssertFail) ∧
  (assertions tg = false → DynamicMemoryPool.dtor tg p = Done []).
Proof.
  intros Htg Hhist.
  destruct (PoolFacts.history_inv tg _ _ _ _ Htg Hhist) as (Hq & Hperm & _).
  pose proof (PoolFacts.pool_get_stats_spec tg _ Hq) as Hstats.
  cbn [get_stats] in Hstats. unfold DynamicMemoryPool.dtor.
  rewrite Hstats. cbn [mbind outcome_bind allocation_count]. unfold assert.
  split_and!.
  - intros ->. apply Permutation_nil in Hperm. rewrite Hperm.
    cbn. by destruct (assertions tg).
  - intros Hne ->. destruct (live_objects tg (Dynamic p)) as [|x l].
    { symmetry in Hperm. by apply Permutation_nil in Hperm. }
    cbn [length andb]. by destruct (N.eqb_spec (N.of_nat (S (length l))) 0).
  - by intros ->.
Qed.

Lemma dynamic_dtor_witness :
  target_ok tg8 ∧
  history tg8 (Dynamic Examples.dynamic_three) [144; 88; 80] 3 0 ∧
  DynamicMemoryPool.dtor tg8 Examples.dynamic_three = AssertFail.
Proof.
  split; [exact BlockClaims.tg8_ok|]. split; [exact example_dynamic|].
  destruct (dynamic_dtor tg8 Examples.dynamic_three _ 3 0
              BlockClaims.tg8_ok example_dynamic) as (_ & Hlive & _).
  apply Hlive; [discriminate | reflexivity].
Defined.

(** X9. When the constructor of a dynamic pool completes, the pool has the
    given block capacity, its free-block hint is 0 and it holds no object.
    It has one block, whose record says that all entries are free, when the
    allocation succeeded; it has no block when the allocation failed, which
    happens only with assertions compiled out. *)
Theorem dynamic_ctor {T : Type} (tg : target) (cap : N)
    (h : DynamicMemoryPool.host) (p : DynamicMemoryPool.Pool T) :
  (cap < 2 ^ 32)%N →
  aligned_malloc_answer MIN_BLOCK_ALIGN (DynamicMemoryPool.malloc_answer h) →
  DynamicMemoryPool.ctor tg cap h = Done p →
  DynamicMemoryPool.entries_per_block_ p = cap ∧
  DynamicMemoryPool.free_block_index_ p = 0%N ∧
  DynamicMemoryPool.get_stats tg p
  = Done {| block_count := DynamicMemoryPool.num_blocks_ p;
            allocation_count := 0 |} ∧
  (DynamicMemoryPool.malloc_answer h ≠ 0 →
   DynamicMemoryPool.num_blocks_ p = 1%N ∧
   DynamicMemoryPool.block_info_ p
   = [Some (DynamicMemoryPool.new_info tg cap
              (DynamicMemoryPool.malloc_answer h))]) ∧
  (DynamicMemoryPool.malloc_answer h = 0 →
   assertions tg = false ∧ DynamicMemoryPool.num_blocks_ p = 0%N ∧
   DynamicMemoryPool.block_info_ p = []).
Proof.
  intros Hcap Hans Hctor.
  destruct (DynamicFacts.ctor_inv tg cap h p Hcap Hans Hctor)
    as (Hp & HB & Hlive & Hfbi & Hcases).
  split_and!; [done | done | | |].
  - rewrite DynamicFacts.dyn_get_stats_spec by done. by rewrite Hlive.
  - intros Ha. by destruct Hcases as [(? & _)|(_ & ? & ?)].
  - intros Ha. destruct Hcases as [(_ & Hi)|(? & _)]; [|done].
    pose proof (DynamicMemoryPool.inv_length _ _ Hp) as Hlen.
    rewrite Hi in Hlen. cbn in Hlen. split_and!; [|lia|done].
    unfold DynamicMemoryPool.ctor in Hctor.
    apply bind_Done in Hctor as ([r p1] & Hadd & _).
    unfold DynamicMemoryPool.add_block in Hadd.
    apply bind_Done in Hadd as (_ & _ & Hadd).
    apply bind_Done in Hadd as (ob & Hcreate & _).
    by apply DynamicFacts.create_Done in Hcreate as [(_ & _ & ?)|(? & _)].
Qed.

Lemma dynamic_ctor_witness :
  let h := {| DynamicMemoryPool.malloc_answer := 64;
              DynamicMemoryPool.realloc_ok := true |} in
  (2 < 2 ^ 32)%N ∧ aligned_malloc_answer MIN_BLOCK_ALIGN 64 ∧
  ∃ p : DynamicMemoryPool.Pool nat,
    DynamicMemoryPool.ctor tg8 2 h = Done p ∧
    DynamicMemoryPool.get_stats tg8 p
    = Done {| block_count := 1; allocation_count := 0 |}.
Proof.
  intros h.
  assert (Hcap : (2 < 2 ^ 32)%N) by reflexivity.
  assert (Hans : aligned_malloc_answer MIN_BLOCK_ALIGN 64)
    by (right; split; reflexivity).
  split; [exact Hcap|]. split; [exact Hans|].
  eexists. split; [reflexivity|].
  destruct (dynamic_ctor (T:=nat) tg8 2 h _ Hcap Hans eq_refl)
    as (_ & _ & Hstats & _).
  exact Hstats.
Defined.

(** X10. The records of a dynamic pool with [entries_per_block > 0] stay in
    sync with their blocks under the ownership contract: the array holds
    [num_blocks_] initialised records, and in each record [num_free_] plus
    the number of live objects of the block is [entries_per_block],
    [offset_] is the block's [memory_offset], and the block has the pool's
    capacity. *)
Theorem records_in_sync {T : Type} (tg : target)
    (p : DynamicMemoryPool.Pool T) (owned : list Z) (allocs releases : nat) :
  target_ok tg → history tg (Dynamic p) owned allocs releases →
  (0 < DynamicMemoryPool.entries_per_block_ p)%N →
  length (DynamicMemoryPool.block_info_ p)
  = N.to_nat (DynamicMemoryPool.num_blocks_ p) ∧
  ∀ (k : nat) o, DynamicMemoryPool.block_info_ p !! k = Some o →
    ∃ info, o = Some info ∧
      (DynamicMemoryPool.num_free_ info
       + N.of_nat (length (MemoryPoolBlock.live_objects tg
                             (DynamicMemoryPool.block_ info)))
       = DynamicMemoryPool.entries_per_block_ p)%N ∧
      DynamicMemoryPool.offset_ info
      = MemoryPoolBlock.memory_offset tg (DynamicMemoryPool.block_ info) ∧
      MemoryPoolBlock.entries_per_block_ (DynamicMemoryPool.block_ info)
      = DynamicMemoryPool.entries_per_block_ p.
Proof.
  intros Htg Hhist Hpos.
  destruct (PoolFacts.history_inv tg _ _ _ _ Htg Hhist) as (Hp & _).
  cbn [inv] in Hp. split; [apply (DynamicMemoryPool.inv_length _ _ Hp)|].
  intros k o Hk.
  destruct (DynamicMemoryPool.inv_infos _ _ Hp k o Hk)
    as (info & -> & [_ Hcap Hoff Hcount]).
  exists info. split_and!; [done | by apply Hcount | done | done].
Qed.

Lemma records_in_sync_witness :
  target_ok tg8 ∧
  history tg8 (Dynamic Examples.dynamic_three) [144; 88; 80] 3 0 ∧
  (0 < DynamicMemoryPool.entries_per_block_ Examples.dynamic_three)%N ∧
  length (DynamicMemoryPool.block_info_ Examples.dynamic_three) = 2%nat.
Proof.
  split; [exact BlockClaims.tg8_ok|]. split; [exact example_dynamic|].
  split; [reflexivity|].
  exact (proj1 (records_in_sync tg8 Examples.dynamic_three _ 3 0
                  BlockClaims.tg8_ok example_dynamic eq_refl)).
Defined.

(** X11. The free-block hint of a dynamic pool is a lower bound under the
    ownership contract: it is at most [num_blocks_], and every record before
    it has [num_free_ = 0]; with [entries_per_block > 0] those blocks are
    full. *)
Theorem hint_lower_bound {T : Type} (tg : target)
    (p : DynamicMemoryPool.Pool T) (owned : list Z) (allocs releases : nat) :
  target_ok tg → history tg (Dynamic p) owned allocs releases →
  (DynamicMemoryPool.free_block_index_ p
   <= DynamicMemoryPool.num_blocks_ p)%N ∧
  ∀ (k : nat) info,
    DynamicMemoryPool.block_info_ p !! k = Some (Some info) →
    (N.of_nat k < DynamicMemoryPool.free_block_index_ p)%N →
    DynamicMemoryPool.num_free_ info = 0%N ∧
    ((0 < DynamicMemoryPool.entries_per_block_ p)%N →
     N.of_nat (length (MemoryPoolBlock.live_objects tg
                         (DynamicMemoryPool.block_ info)))
     = DynamicMemoryPool.entries_per_block_ p).
Proof.
  intros Htg Hhist.
  destruct (PoolFacts.history_inv tg _ _ _ _ Htg Hhist) as (Hp & _).
  cbn [inv] in Hp.
  pose proof (PoolExtraFacts.history_hint tg _ _ _ _ Htg Hhist p eq_refl)
    as Hhint.
  split; [apply (DynamicMemoryPool.inv_hint _ _ Hp)|].
  intros k info Hk Hlt. pose proof (Hhint k info Hk Hlt) as Hz.
  split; [done|]. intros Hpos.
  destruct (DynamicMemoryPool.inv_infos _ _ Hp k _ Hk)
    as (info' & [= <-] & [_ _ _ Hcount]).
  specialize (Hcount Hpos). lia.
Qed.

Lemma hint_lower_bound_witness :
  target_ok tg8 ∧
  history tg8 (Dynamic Examples.dynamic_three) [144; 88; 80] 3 0 ∧
  (DynamicMemoryPool.free_block_index_ Examples.dynamic_three
   <= DynamicMemoryPool.num_blocks_ Examples.dynamic_three)%N.
Proof.
  split; [exact BlockClaims.tg8_ok|]. split; [exact example_dynamic|].
  exact (proj1 (hint_lower_bound tg8 Examples.dynamic_three _ 3 0
                  BlockClaims.tg8_ok example_dynamic)).
Defined.

(** X12. A dynamic pool with [entries_per_block > 0] grows only when it is
    full: a [new_object] that completes either keeps the number of blocks,
    or adds exactly one block, and then the pool held
    [num_blocks_ * entries_per_block] live objects before the call. *)
Theorem grows_only_when_full {T : Type} (tg : target)
    (p : DynamicMemoryPool.Pool T) (owned : list Z) (allocs releases : nat)
    (v : T) (h : DynamicMemoryPool.host) (ptr : Z)
    (p' : DynamicMemoryPool.Pool T) :
  target_ok tg → history tg (Dynamic p) owned allocs releases →
  (0 < DynamicMemoryPool.entries_per_block_ p)%N →
  DynamicMemoryPool.new_object tg v h p = Done (ptr, p') →
  DynamicMemoryPool.num_blocks_ p' = DynamicMemoryPool.num_blocks_ p ∨
  (DynamicMemoryPool.num_blocks_ p' = (DynamicMemoryPool.num_blocks_ p + 1)%N ∧
   N.of_nat (length owned)
   = (DynamicMemoryPool.num_blocks_ p
      * DynamicMemoryPool.entries_per_block_ p)%N).
Proof.
  intros Htg Hhist Hpos Hnew.
  destruct (PoolFacts.history_inv tg _ _ _ _ Htg Hhist) as (Hp & Hperm & _).
  cbn [inv] in Hp.
  pose proof (PoolExtraFacts.history_hint tg _ _ _ _ Htg Hhist p eq_refl)
    as Hhint.
  destruct (DynamicFacts.inv_records tg p Hp)
    as (infos & Hi & Hall & Hlen & Hblocks).
  destruct (DynamicFacts.new_object_Done tg p infos v h ptr p' Hp Hi Hnew)
    as (k & Hk & Hbefore & Hcases).
  destruct Hcases as [(_ & _ & _ & ->)
                     |[(Hkn & _ & _ & Hc)|(_ & info & Hinfo & _ & Hc)]].
  - by left.
  - right.
    set (ninfo := DynamicMemoryPool.new_info (T:=T) tg
                    (DynamicMemoryPool.entries_per_block_ p)
                    (DynamicMemoryPool.malloc_answer h)) in *.
    assert (Hlast : (infos ++ [ninfo]) !! N.to_nat k = Some ninfo).
    { rewrite Hkn, <- Hlen. by apply list_lookup_middle. }
    eapply DynamicFacts.construct_Done in Hc as (block & _ & _ & ->);
      [|done|exact Hlast].
    split; [done|].
    assert (Hfull : ∀ info, info ∈ infos →
                    DynamicMemoryPool.num_free_ info = 0%N).
    { intros info [j Hj]%list_elem_of_lookup.
      destruct (decide (N.of_nat j
                        < DynamicMemoryPool.free_block_index_ p)%N).
      - apply (Hhint j info); [|done]. by rewrite Hi, list_lookup_fmap, Hj.
      - apply (Hbefore j info Hj). apply lookup_lt_Some in Hj. lia. }
    rewrite Hperm. unfold live_objects. cbn [blocks]. rewrite Hblocks.
    rewrite (DynamicFacts.full_blocks_count tg _ infos Hall Hpos Hfull). lia.
  - left.
    by eapply DynamicFacts.construct_Done in Hc as (block & _ & _ & ->).
Qed.

Lemma grows_only_when_full_witness :
  let h := {| DynamicMemoryPool.malloc_answer := 0;
              DynamicMemoryPool.realloc_ok := true |} in
  target_ok tg8 ∧
  history tg8 (Dynamic Examples.dynamic_three) [144; 88; 80] 3 0 ∧
  ∃ p', DynamicMemoryPool.new_object tg8 4%nat h Examples.dynamic_three
        = Done (152, p') ∧
        DynamicMemoryPool.num_blocks_ p' = 2%N.
Proof.
  intros h. split; [exact BlockClaims.tg8_ok|].
  split; [exact example_dynamic|].
  assert (Hnew : ∃ p', DynamicMemoryPool.new_object tg8 4%nat h
                         Examples.dynamic_three = Done (152, p'))
    by (eexists; vm_compute; reflexivity).
  destruct Hnew as [p' Hnew]. exists p'. split; [exact Hnew|].
  destruct (grows_only_when_full tg8 Examples.dynamic_three _ 3 0 4%nat h
              152 p' BlockClaims.tg8_ok example_dynamic eq_refl Hnew)
    as [Hsame|[_ Hfull]]; [exact Hsame | discriminate Hfull].
Defined.

(** X13. With assertions compiled in, a [new_object] of a dynamic pool that
    completes never returns null: the null results, after a failed block
    allocation and after a null from the block, are reached only with
    assertions compiled out. *)
Theorem new_object_null_unchecked {T : Type} (tg : target)
    (p : DynamicMemoryPool.Pool T) (v : T) (h : DynamicMemoryPool.host)
    (p' : DynamicMemoryPool.Pool T) :
  DynamicMemoryPool.new_object tg v h p = Done (0, p') →
  assertions tg = false.
Proof. apply PoolExtraFacts.dyn_new_object_null. Qed.

Lemma new_object_null_unchecked_witness :
  let tg8r := {| sizeof_T := 8; alignof_T := 8; header_size := 8;
                 assertions := false |} in
  let h := {| DynamicMemoryPool.malloc_answer := 0;
              DynamicMemoryPool.realloc_ok := true |} in
  let p : DynamicMemoryPool.Pool nat :=
    {| DynamicMemoryPool.block_info_ := [];
       DynamicMemoryPool.num_blocks_ := 0;
       DynamicMemoryPool.free_block_index_ := 0;
       DynamicMemoryPool.entries_per_block_ := 2 |} in
  DynamicMemoryPool.ctor tg8r 2 h = Done p ∧
  DynamicMemoryPool.new_object tg8r 1%nat h p = Done (0, p) ∧
  assertions tg8r = false.
Proof.
  intros tg8r h p.
  assert (Hnew : DynamicMemoryPool.new_object tg8r 1%nat h p = Done (0, p))
    by reflexivity.
  split; [reflexivity|]. split; [exact Hnew|].
  exact (new_object_null_unchecked tg8r p 1%nat h p Hnew).
Defined.

(** X14. A dynamic pool with [entries_per_block = 0] never holds an object:
    under the ownership contract nothing is owned, and every [new_object]
    that completes returns null, which happens only with assertions
    compiled out. *)
Theorem dynamic_zero_capacity {T : Type} (tg : target)
    (p : DynamicMemoryPool.Pool T) (owned : list Z) (allocs releases : nat) :
  target_ok tg → history tg (Dynamic p) owned allocs releases →
  DynamicMemoryPool.entries_per_block_ p = 0%N →
  owned = [] ∧
  ∀ v h ptr p', DynamicMemoryPool.new_object tg v h p = Done (ptr, p') →
                ptr = 0 ∧ assertions tg = false.
Proof.
  intros Htg Hhist HB.
  destruct (PoolFacts.history_inv tg _ _ _ _ Htg Hhist) as (Hp & Hperm & _).
  cbn [inv] in Hp.
  destruct (DynamicFacts.inv_records tg p Hp)
    as (infos & Hi & Hall & Hlen & Hblocks).
  assert (Hfullb : ∀ info, info ∈ infos →
    MemoryPoolBlock.free_head_index_ (DynamicMemoryPool.block_ info)
    = MemoryPoolBlock.entries_per_block_ (DynamicMemoryPool.block_ info)).
  { intros info Hin.
    pose proof (proj1 (Forall_forall _ _) Hall info Hin) as [Hb Hcap _ _].
    destruct (decide (MemoryPoolBlock.free_head_index_
                        (DynamicMemoryPool.block_ info)
                      = MemoryPoolBlock.entries_per_block_
                          (DynamicMemoryPool.block_ info))) as [|Hne]; [done|].
    pose proof (BlockExtraFacts.not_full_live tg _ Hb Hne). lia. }
  split.
  - apply Permutation_nil. rewrite Hperm. unfold live_objects. cbn [blocks].
    rewrite Hblocks. clear -Hall HB.
    induction Hall as [|info infos Hinfo _ IH]; [done|].
    rewrite fmap_cons, bind_cons, <- IH.
    rewrite (DynamicFacts.skipped_block_empty tg _ info Hinfo); [done|].
    rewrite HB. lia.
  - intros v h ptr p' Hnew.
    assert (ptr = 0) as ->; [|split; [done|];
      by eapply PoolExtraFacts.dyn_new_object_null].
    destruct (DynamicFacts.new_object_Done tg p infos v h ptr p' Hp Hi Hnew)
      as (k & Hk & _ & Hcases).
    destruct Hcases as [(_ & _ & -> & _)
                       |[(Hkn & _ & _ & Hc)|(_ & info & Hinfo & _ & Hc)]].
    + done.
    + set (ninfo := DynamicMemoryPool.new_info (T:=T) tg
                      (DynamicMemoryPool.entries_per_block_ p)
                      (DynamicMemoryPool.malloc_answer h)) in *.
      assert (Hlast : (infos ++ [ninfo]) !! N.to_nat k = Some ninfo).
      { rewrite Hkn, <- Hlen. by apply list_lookup_middle. }
      eapply DynamicFacts.construct_Done in Hc as (block & Hb & _ & _);
        [|done|exact Hlast].
      rewrite BlockFacts.new_object_full in Hb; [congruence|].
      cbn. by rewrite HB.
    + eapply DynamicFacts.construct_Done in Hc as (block & Hb & _ & _);
        [|done..].
      rewrite BlockFacts.new_object_full in Hb; [congruence|].
      apply Hfullb. by eapply list_elem_of_lookup_2.
Qed.

Lemma dynamic_zero_capacity_witness :
  let tg8r := {| sizeof_T := 8; alignof_T := 8; header_size := 8;
                 assertions := false |} in
  let hat a := {| DynamicMemoryPool.malloc_answer := a;
                  DynamicMemoryPool.realloc_ok := true |} in
  target_ok tg8r ∧
  ∃ p p' : DynamicMemoryPool.Pool nat,
    history tg8r (Dynamic p) [] 0 0 ∧
    DynamicMemoryPool.entries_per_block_ p = 0%N ∧
    DynamicMemoryPool.new_object tg8r 1%nat (hat 128) p = Done (0, p') ∧
    DynamicMemoryPool.num_blocks_ p' = 2%N.
Proof.
  intros tg8r hat.
  assert (Htg : target_ok tg8r) by (split; cbn; lia).
  split; [exact Htg|].
  assert (Hhist : ∃ p : DynamicMemoryPool.Pool nat,
            DynamicMemoryPool.ctor tg8r 0 (hat 64) = Done p)
    by (eexists; reflexivity).
  destruct Hhist as [p Hctor]. exists p.
  assert (Hp : history tg8r (Dynamic p) [] 0 0).
  { apply (history_dynamic tg8r 0 (hat 64));
      [reflexivity | right; split; reflexivity | exact Hctor]. }
  assert (HB : DynamicMemoryPool.entries_per_block_ p = 0%N)
    by (vm_compute in Hctor; injection Hctor as <-; reflexivity).
  assert (Hnew : ∃ ptr p', DynamicMemoryPool.new_object tg8r 1%nat (hat 128) p
                           = Done (ptr, p')
                           ∧ DynamicMemoryPool.num_blocks_ p' = 2%N).
  { vm_compute in Hctor. injection Hctor as <-.
    eexists _, _. split; [vm_compute; reflexivity | reflexivity]. }
  destruct Hnew as (ptr & p' & Hnew & Hnb). exists p'.
  destruct (dynamic_zero_capacity tg8r p [] 0 0 Htg Hp HB) as [_ Hnull].
  destruct (Hnull _ _ _ _ Hnew) as [-> _].
  split_and!; [exact Hp | exact HB | exact Hnew | exact Hnb].
Defined.

(** X15. [delete_object] of an owned pointer on a dynamic pool changes one
    record only, the one of the block that owns the pointer: the block
    releases the object, the cached [num_free_] grows by one, and the
    free-block hint becomes the smaller of its old value and the index of
    that record. [num_blocks_] and [entries_per_block_] stay. *)
Theorem dynamic_delete_frame {T : Type} (tg : target)
    (p : DynamicMemoryPool.Pool T) (owned : list Z) (allocs releases : nat)
    (ptr : Z) :
  target_ok tg → history tg (Dynamic p) owned allocs releases →
  ptr ∈ owned →
  ∃ (k : nat) info block,
    DynamicMemoryPool.block_info_ p !! k = Some (Some info) ∧
    MemoryPoolBlock.owned tg (DynamicMemoryPool.block_ info) ptr ∧
    MemoryPoolBlock.delete_object tg ptr (DynamicMemoryPool.block_ info)
    = Done block ∧
    DynamicMemoryPool.delete_object tg ptr p
    = Done {| DynamicMemoryPool.block_info_ :=
                <[k := Some {| DynamicMemoryPool.num_free_ :=
                                 DynamicMemoryPool.num_free_ info + 1;
                               DynamicMemoryPool.offset_ :=
                                 DynamicMemoryPool.offset_ info;
                               DynamicMemoryPool.block_ := block |}]>
                  (DynamicMemoryPool.block_info_ p);
              DynamicMemoryPool.num_blocks_ := DynamicMemoryPool.num_blocks_ p;
              DynamicMemoryPool.free_block_index_ :=
                N.min (DynamicMemoryPool.free_block_index_ p) (N.of_nat k);
              DynamicMemoryPool.entries_per_block_ :=
                DynamicMemoryPool.entries_per_block_ p |}.
Proof.
  intros Htg Hhist Hin.
  destruct (PoolFacts.history_inv tg _ _ _ _ Htg Hhist) as (Hp & Hperm & _).
  cbn [inv] in Hp.
  destruct (DynamicFacts.inv_records tg p Hp) as (infos & Hi & _).
  rewrite Hperm in Hin.
  destruct (PoolExtraFacts.dyn_delete_object_shape tg p infos ptr Htg Hp Hi Hin)
    as (k & info & block & Hk & Hown & Hdel & Hshape).
  exists k, info, block. split_and!; [|done|done|].
  - by rewrite Hi, list_lookup_fmap, Hk.
  - rewrite Hshape. by rewrite Hi, list_fmap_insert.
Qed.

Lemma dynamic_delete_frame_witness :
  target_ok tg8 ∧
  history tg8 (Dynamic Examples.dynamic_three) [144; 88; 80] 3 0 ∧
  88 ∈ [144; 88; 80] ∧
  ∃ p', DynamicMemoryPool.delete_object tg8 88 Examples.dynamic_three
        = Done p' ∧
        DynamicMemoryPool.free_block_index_ p' = 0%N ∧
        DynamicMemoryPool.num_blocks_ p' = 2%N.
Proof.
  assert (Hin : 88 ∈ [144; 88; 80]) by (right; left).
  split; [exact BlockClaims.tg8_ok|]. split; [exact example_dynamic|].
  split; [exact Hin|].
  destruct (dynamic_delete_frame tg8 Examples.dynamic_three _ 3 0 88
              BlockClaims.tg8_ok example_dynamic Hin)
    as (k & info & block & _ & _ & _ & Hdel).
  eexists. split; [exact Hdel|].
  vm_compute in Hdel. injection Hdel as Hinfos Hfbi.
  cbn [DynamicMemoryPool.free_block_index_ DynamicMemoryPool.num_blocks_].
  split; [|reflexivity]. symmetry. exact Hfbi.
Defined.

(** X16. Releasing the null pointer is a no-op on every pool under the
    ownership contract. The dynamic pool has no test for null: no block's
    storage range contains address 0. *)
Theorem null_release_noop {T : Type} (tg : target) (q : pool T)
    (owned : list Z) (allocs releases : nat) :
  target_ok tg → history tg q owned allocs releases →
  delete_object tg 0 q = Done q.
Proof.
  intros Htg Hhist.
  destruct (PoolFacts.history_inv tg _ _ _ _ Htg Hhist) as (Hq & _).
  by apply PoolFacts.delete_null.
Qed.

Lemma null_release_noop_witness :
  target_ok tg8 ∧
  history tg8 (Dynamic Examples.dynamic_three) [144; 88; 80] 3 0 ∧
  delete_object tg8 0 (Dynamic Examples.dynamic_three)
  = Done (Dynamic Examples.dynamic_three).
Proof.
  split; [exact BlockClaims.tg8_ok|]. split; [exact example_dynamic|].
  exact (null_release_noop tg8 _ _ 3 0 BlockClaims.tg8_ok example_dynamic).
Defined.

(** X17. Allocation from a dynamic pool succeeds whenever the host
    allocator does: with [entries_per_block > 0], the hint inside the array,
    room for one more block in [num_blocks_], a host that answers both
    requests, and assertions compiled out or an index array that needs no
    padding, [new_object] completes with a non-null pointer that is not
    among the owned ones. *)
Theorem new_object_succeeds {T : Type} (tg : target)
    (p : DynamicMemoryPool.Pool T) (owned : list Z) (allocs releases : nat)
    (v : T) (h : DynamicMemoryPool.host) :
  target_ok tg → history tg (Dynamic p) owned allocs releases →
  (0 < DynamicMemoryPool.entries_per_block_ p)%N →
  (DynamicMemoryPool.free_block_index_ p
   < DynamicMemoryPool.num_blocks_ p)%N →
  (DynamicMemoryPool.num_blocks_ p + 1 < 2 ^ 32)%N →
  host_ok tg (Dynamic p) h →
  DynamicMemoryPool.malloc_answer h ≠ 0 →
  DynamicMemoryPool.realloc_ok h = true →
  assertions tg = false
  ∨ MemoryPoolBlock.indices_size tg (DynamicMemoryPool.entries_per_block_ p)
    = sizeof_index * Z.of_N (DynamicMemoryPool.entries_per_block_ p) →
  ∃ ptr p', DynamicMemoryPool.new_object tg v h p = Done (ptr, p') ∧
            ptr ≠ 0 ∧ (ptr ∉ owned) ∧
            history tg (Dynamic p') (ptr :: owned) (S allocs) releases.
Proof.
  intros Htg Hhist Hpos Hhint Hnb Hh Ha Hre Hlayout.
  destruct (PoolFacts.history_inv tg _ _ _ _ Htg Hhist) as (Hp & _).
  cbn [inv] in Hp.
  assert (Hapos : 0 < DynamicMemoryPool.malloc_answer h).
  { destruct Hh as [[?|[? _]] _]; [done | lia]. }
  destruct (DynamicFacts.dyn_new_object_progress tg p v h Htg Hp Hpos Hhint
              Hnb Hapos Hre Hlayout) as (ptr & p' & Hnew & Hptr & _).
  assert (Hhist' : history tg (Dynamic p') (ptr :: owned) (S allocs) releases).
  { eapply (history_new tg (Dynamic p) owned _ _ v h); [done | done | | done].
    cbn. by rewrite Hnew. }
  exists ptr, p'. split_and!; [done | done | | done].
  destruct (PoolFacts.history_inv tg _ _ _ _ Htg Hhist') as (Hp' & Hperm & _).
  pose proof (PoolFacts.live_objects_NoDup tg _ Htg Hp') as Hnd.
  rewrite <- Hperm in Hnd. by apply NoDup_cons in Hnd as [? _].
Qed.

Lemma new_object_succeeds_witness :
  let h := {| DynamicMemoryPool.malloc_answer := 192;
              DynamicMemoryPool.realloc_ok := true |} in
  target_ok tg8 ∧
  history tg8 (Dynamic Examples.dynamic_three) [144; 88; 80] 3 0 ∧
  host_ok tg8 (Dynamic Examples.dynamic_three) h ∧
  ∃ p', DynamicMemoryPool.new_object tg8 4%nat h Examples.dynamic_three
        = Done (152, p').
Proof.
  intros h.
  assert (Hh : host_ok tg8 (Dynamic Examples.dynamic_three) h).
  { split; [right; split; reflexivity|].
    intros _ b Hb. cbn in Hb.
    apply elem_of_cons in Hb as [->|Hb];
      [|apply list_elem_of_singleton in Hb as ->];
      unfold DynamicMemoryPool.apart; vm_compute; right; discriminate. }
  split; [exact BlockClaims.tg8_ok|]. split; [exact example_dynamic|].
  split; [exact Hh|].
  destruct (new_object_succeeds tg8 Examples.dynamic_three _ 3 0 4%nat h
              BlockClaims.tg8_ok example_dynamic)
    as (ptr & p' & Hnew & _);
    [reflexivity | reflexivity | reflexivity | exact Hh | discriminate
    | reflexivity | right; reflexivity |].
  exists p'. rewrite Hnew. vm_compute in Hnew. injection Hnew as <- _.
  reflexivity.
Defined.

End PoolExtras.
